(** * TraceViz: the trace parser, the graph builder and the grouping and
    layout passes of the renderer, embedded from the JavaScript sources
    [js/trace-parser.js] (class TraceParser) and [js/graph-renderer.js]
    (class GraphRenderer), with the escaping and highlighting helpers of
    [js/app.js] and the comparison made by [test-node-count.js].

    JavaScript strings are modelled by [string], arrays by [list], objects
    used as dictionaries by association lists kept in insertion order
    (the order [Object.keys] depends on), and [null]/[undefined] by [None]. *)

From Stdlib Require Import List String Ascii ZArith NArith Arith Bool Lia.
From Stdlib Require Import DecimalString DecimalNat Sorted.
Import ListNotations.
Open Scope string_scope.
Open Scope list_scope.

(** ** JavaScript built-ins used by the sources *)
Module Js.

(** [`${n}`] for a non-negative integer [n]. *)
Definition string_of_nat (n : nat) : string :=
  NilZero.string_of_uint (Nat.to_uint n).

(** [s.startsWith(p)]. *)
Definition startsWith (s p : string) : bool := String.prefix p s.

(** [s.includes(sub)]. *)
Fixpoint includes (s sub : string) : bool :=
  String.prefix sub s ||
  match s with
  | EmptyString => false
  | String _ s' => includes s' sub
  end.

(** [a || b] on strings where [null] is [None]: the empty string is falsy. *)
Definition or_else (a : option string) (b : string) : string :=
  match a with
  | Some v => if (v =? "")%string then b else v
  | None => b
  end.

Definition is_digit (c : ascii) : bool :=
  let n := nat_of_ascii c in ((48 <=? n) && (n <=? 57))%nat.

Fixpoint all_digits (s : string) : bool :=
  match s with
  | EmptyString => true
  | String c s' => is_digit c && all_digits s'
  end.

(** Splits off the longest run of decimal digits at the start of [s]. *)
Fixpoint span_digits (s : string) : string * string :=
  match s with
  | EmptyString => (EmptyString, EmptyString)
  | String c s' =>
      if is_digit c
      then let (d, r) := span_digits s' in (String c d, r)
      else (EmptyString, s)
  end.

(** [s.match(/^(\d+)(?:-(\d+))?$/)]: [Some g1] with the first capture group
    when the whole of [s] matches, [None] (JavaScript [null]) otherwise. *)
Definition match_base (s : string) : option string :=
  let (d, r) := span_digits s in
  match d with
  | EmptyString => None
  | _ =>
      match r with
      | EmptyString => Some d
      | String c r' =>
          if (c =? "-")%char && negb (r' =? "")%string && all_digits r'
          then Some d else None
      end
  end.

(** *** parseInt *)

Definition is_space (c : ascii) : bool :=
  let n := nat_of_ascii c in
  ((n =? 9) || (n =? 10) || (n =? 11) || (n =? 12) || (n =? 13) || (n =? 32))%nat.

Fixpoint skip_spaces (s : string) : string :=
  match s with
  | String c s' => if is_space c then skip_spaces s' else s
  | EmptyString => EmptyString
  end.

Definition digit_value (radix : Z) (c : ascii) : option Z :=
  let n := Z.of_nat (nat_of_ascii c) in
  let v :=
    if (48 <=? n)%Z && (n <=? 57)%Z then Some (n - 48)%Z
    else if (97 <=? n)%Z && (n <=? 122)%Z then Some (n - 87)%Z
    else if (65 <=? n)%Z && (n <=? 90)%Z then Some (n - 55)%Z
    else None in
  match v with
  | Some d => if (d <? radix)%Z then Some d else None
  | None => None
  end.

(** Reads digits of the radix until the first character that is none;
    [None] when there is no digit at all. *)
Fixpoint read_digits (radix : Z) (acc : option Z) (s : string) : option Z :=
  match s with
  | EmptyString => acc
  | String c s' =>
      match digit_value radix c with
      | Some d =>
          read_digits radix
            (Some (match acc with Some a => a * radix + d | None => d end)%Z) s'
      | None => acc
      end
  end.

(** [parseInt(s)] without a radix argument; [None] is [NaN].  Exact for
    results below 2^53. *)
Definition parseInt (s : string) : option Z :=
  let s1 := skip_spaces s in
  let (neg, s2) :=
    match s1 with
    | String c r =>
        if (c =? "-")%char then (true, r)
        else if (c =? "+")%char then (false, r) else (false, s1)
    | EmptyString => (false, s1)
    end in
  let (radix, s3) :=
    match s2 with
    | String c0 (String c1 r) =>
        if (c0 =? "0")%char && ((c1 =? "x")%char || (c1 =? "X")%char)
        then (16%Z, r) else (10%Z, s2)
    | _ => (10%Z, s2)
    end in
  match read_digits radix None s3 with
  | Some v => Some (if neg then (- v)%Z else v)
  | None => None
  end.

(** [parseInt(x) || 0] where [x] is a string or [null]:
    [parseInt(null)] is [NaN], and [NaN] is falsy. *)
Definition parseInt_or_0 (x : option string) : Z :=
  match x with
  | Some s => match parseInt s with Some v => v | None => 0%Z end
  | None => 0%Z
  end.

(** [l.sort((a, b) => key(a) - key(b))]: the sort is stable, so the result
    is the one of a stable insertion sort. *)
Section Sort.
Context {A : Type} (key : A -> Z).

Fixpoint insert_by (x : A) (l : list A) : list A :=
  match l with
  | [] => [x]
  | y :: l' => if (key x <=? key y)%Z then x :: l else y :: insert_by x l'
  end.

Fixpoint sort_by (l : list A) : list A :=
  match l with
  | [] => []
  | x :: l' => insert_by x (sort_by l')
  end.

End Sort.

(** *** atob

    The browser's [atob] (forgiving-base64 decode): ASCII whitespace is
    dropped, one or two padding characters are removed when the length
    is a multiple of four, a length of 1 modulo 4 or any character outside
    the alphabet throws ([None]). *)

Definition is_ascii_whitespace (c : ascii) : bool :=
  let n := nat_of_ascii c in
  ((n =? 9) || (n =? 10) || (n =? 12) || (n =? 13) || (n =? 32))%nat.

Fixpoint strip_whitespace (s : string) : list ascii :=
  match s with
  | EmptyString => []
  | String c s' =>
      if is_ascii_whitespace c then strip_whitespace s'
      else c :: strip_whitespace s'
  end.

Definition b64_value (c : ascii) : option N :=
  let n := N_of_ascii c in
  if (65 <=? n)%N && (n <=? 90)%N then Some (n - 65)%N
  else if (97 <=? n)%N && (n <=? 122)%N then Some (n - 71)%N
  else if (48 <=? n)%N && (n <=? 57)%N then Some (n + 4)%N
  else if (n =? 43)%N then Some 62%N
  else if (n =? 47)%N then Some 63%N
  else None.

Fixpoint b64_values (l : list ascii) : option (list N) :=
  match l with
  | [] => Some []
  | c :: l' =>
      match b64_value c, b64_values l' with
      | Some v, Some vs => Some (v :: vs)
      | _, _ => None
      end
  end.

Definition byte_of (n : N) : ascii := ascii_of_N (N.land n 255).

Fixpoint b64_bytes (l : list N) : list ascii :=
  match l with
  | a :: b :: c :: d :: rest =>
      let w := (N.shiftl a 18 + N.shiftl b 12 + N.shiftl c 6 + d)%N in
      byte_of (N.shiftr w 16) :: byte_of (N.shiftr w 8) :: byte_of w
      :: b64_bytes rest
  | [a; b; c] =>
      let w := (N.shiftl a 18 + N.shiftl b 12 + N.shiftl c 6)%N in
      [byte_of (N.shiftr w 16); byte_of (N.shiftr w 8)]
  | [a; b] =>
      let w := (N.shiftl a 18 + N.shiftl b 12)%N in
      [byte_of (N.shiftr w 16)]
  | _ => []
  end.

Definition strip_padding (l : list ascii) : list ascii :=
  if (List.length l mod 4 =? 0)%nat then
    match rev l with
    | c1 :: c2 :: r =>
        if (c1 =? "=")%char then
          if (c2 =? "=")%char then rev r else rev (c2 :: r)
        else l
    | _ => l
    end
  else l.

Definition atob (s : string) : option string :=
  let l := strip_padding (strip_whitespace s) in
  if (List.length l mod 4 =? 1)%nat then None
  else
    match b64_values l with
    | Some vs => Some (string_of_list_ascii (b64_bytes vs))
    | None => None
    end.

(** *** Objects used as dictionaries

    An object literal [{}] filled by [o[k] = v].  Own properties are kept
    in insertion order.  Reading [o[k]] for a key that is no own property
    falls through to [Object.prototype], whose property names are
    [proto_keys]; every inherited value is truthy.  The values stored by
    the sources under arbitrary keys are primitives, for which assigning
    to the key [__proto__] leaves the object unchanged. *)

Definition jsobj (V : Type) : Type := list (string * V).

Definition proto_keys : list string :=
  [ "constructor"; "__defineGetter__"; "__defineSetter__"; "hasOwnProperty";
    "__lookupGetter__"; "__lookupSetter__"; "isPrototypeOf";
    "propertyIsEnumerable"; "toString"; "valueOf"; "__proto__";
    "toLocaleString" ].

Definition proto_key (k : string) : bool :=
  existsb (String.eqb k) proto_keys.

Section Obj.
Context {V : Type}.

(** The own property [k] of [o], if any. *)
Fixpoint obj_get (o : jsobj V) (k : string) : option V :=
  match o with
  | [] => None
  | (k', v) :: o' => if (k' =? k)%string then Some v else obj_get o' k
  end.

Fixpoint obj_put (o : jsobj V) (k : string) (v : V) : jsobj V :=
  match o with
  | [] => [(k, v)]
  | (k', v') :: o' =>
      if (k' =? k)%string then (k', v) :: o' else (k', v') :: obj_put o' k v
  end.

(** [o[k] = v] for a primitive [v]. *)
Definition obj_set (o : jsobj V) (k : string) (v : V) : jsobj V :=
  if (k =? "__proto__")%string then o else obj_put o k v.

End Obj.

(** A canonical array index: a decimal numeral without leading zero, below
    2^32 - 1. *)
Definition array_index (k : string) : option N :=
  match k with
  | EmptyString => None
  | String c r =>
      if all_digits k && (negb (c =? "0")%char || (r =? "")%string) then
        match read_digits 10 None k with
        | Some v => if (v <? 4294967295)%Z then Some (Z.to_N v) else None
        | None => None
        end
      else None
  end.

(** [Object.keys(o)]: the array indices in ascending numeric order, then
    the other keys in insertion order. *)
Definition obj_keys {V : Type} (o : jsobj V) : list string :=
  let ks := map fst o in
  let idx := filter (fun k => match array_index k with Some _ => true | None => false end) ks in
  let str := filter (fun k => match array_index k with Some _ => false | None => true end) ks in
  sort_by (fun k => match array_index k with Some n => Z.of_N n | None => 0%Z end) idx
  ++ str.

(** *** Strings *)

(** The string made of a double quote. *)
Definition dq : string := String (ascii_of_nat 34) EmptyString.

(** [s.replace(/c/g, rep)] for a pattern of one literal character. *)
Fixpoint replace_char (c : ascii) (rep s : string) : string :=
  match s with
  | EmptyString => EmptyString
  | String x s' =>
      ((if (x =? c)%char then rep else String x EmptyString)
       ++ replace_char c rep s')%string
  end.

(** [s.split(sep)] for a separator of one character. *)
Fixpoint split (sep : ascii) (s : string) : list string :=
  match s with
  | EmptyString => [EmptyString]
  | String c s' =>
      if (c =? sep)%char then EmptyString :: split sep s'
      else
        match split sep s' with
        | piece :: pieces => String c piece :: pieces
        | [] => [String c EmptyString]
        end
  end.

(** [l.join(sep)]. *)
Fixpoint join (sep : string) (l : list string) : string :=
  match l with
  | [] => EmptyString
  | [x] => x
  | x :: l' => (x ++ sep ++ join sep l')%string
  end.

(** [parseInt(s, 10)]; [None] is [NaN]. *)
Definition parseInt10 (s : string) : option Z :=
  let s1 := skip_spaces s in
  let (neg, s2) :=
    match s1 with
    | String c r =>
        if (c =? "-")%char then (true, r)
        else if (c =? "+")%char then (false, r) else (false, s1)
    | EmptyString => (false, s1)
    end in
  match read_digits 10 None s2 with
  | Some v => Some (if neg then (- v)%Z else v)
  | None => None
  end.

End Js.


(** ** The DOM of the parsed document

    The document handed back by the browser's [DOMParser], as a tree of
    elements and text nodes. *)
Module Dom.

Set Warnings "-register-all".

Inductive xml : Type :=
| Elem (tagName : string) (attributes : list (string * string))
       (childNodes : list xml)
| Text (data : string).

Definition is_tag (name : string) (x : xml) : bool :=
  match x with
  | Elem t _ _ => (t =? name)%string
  | Text _ => false
  end.

(** All nodes below [x], in document order. *)
Fixpoint descendants (x : xml) : list xml :=
  match x with
  | Elem _ _ cs => flat_map (fun c => c :: descendants c) cs
  | Text _ => []
  end.

(** [el.getElementsByTagName(name)]. *)
Definition getElementsByTagName (el : xml) (name : string) : list xml :=
  filter (is_tag name) (descendants el).

(** [doc.getElementsByTagName(name)] on the document whose root is [root]. *)
Definition doc_getElementsByTagName (root : xml) (name : string) : list xml :=
  filter (is_tag name) (root :: descendants root).

(** [el.querySelector(name)] for a type selector. *)
Definition querySelector (el : xml) (name : string) : option xml :=
  hd_error (getElementsByTagName el name).

Fixpoint lookup_attr (l : list (string * string)) (name : string)
  : option string :=
  match l with
  | [] => None
  | (k, v) :: l' => if (k =? name)%string then Some v else lookup_attr l' name
  end.

(** [el.getAttribute(name)]; [None] is [null]. *)
Definition getAttribute (el : xml) (name : string) : option string :=
  match el with
  | Elem _ attrs _ => lookup_attr attrs name
  | Text _ => None
  end.

Fixpoint put_attr (l : list (string * string)) (name value : string)
  : list (string * string) :=
  match l with
  | [] => [(name, value)]
  | (k, v) :: l' =>
      if (k =? name)%string then (k, value) :: l'
      else (k, v) :: put_attr l' name value
  end.

(** [el.setAttribute(name, value)]. *)
Definition setAttribute (el : xml) (name value : string) : xml :=
  match el with
  | Elem t attrs cs => Elem t (put_attr attrs name value) cs
  | Text _ => el
  end.

(** [el.textContent]. *)
Fixpoint textContent (x : xml) : string :=
  match x with
  | Text s => s
  | Elem _ _ cs => fold_right (fun c acc => (textContent c ++ acc)%string) "" cs
  end.

End Dom.

(** ** Records of the trace model *)

(** One entry of [event.args]. *)
Module Arg.
Record t : Type := mk {
  hashCode : option string;
  tracked : bool;
  encodedValue : string;
  decodedValue : option string
}.
End Arg.

(** [event.objectData] and [event.returnData]. *)
Module Content.
Record t : Type := mk {
  tracked : bool;
  hashCode : string;
  encoded : string;
  decoded : option string
}.
End Content.

(** One entry of [taintRanges]: the texts of the [tag] and of the [range]
    element, [None] when the element is missing. *)
Module TaintRange.
Record t : Type := mk {
  tag : option string;
  range : option string
}.
End TaintRange.

(** A parsed event.  The fields that only feed the display (thread, target,
    source, stack, properties, taintRanges, tags, sources, originalXml) are
    left out; [eventType] always equals [type]. *)
Module Event.
Record t : Type := mk {
  objectId : string;
  time : string;
  type : string;
  isMethodEvent : bool;
  isTriggerEvent : bool;
  isSourceEvent : bool;
  signature : string;
  args : list Arg.t;
  parentObjectIds : list string;
  objectData : option Content.t;
  returnData : option Content.t
}.
End Event.

(** A graph node.  [details] is the event of a trace-event node; the layout
    writes [y].  Display strings (methodSignature, taintedData, ...) are
    left out. *)
Module Node.
Record t : Type := mk {
  id : string;
  type : string;
  label : string;
  isSourceEvent : bool;
  isTriggerEvent : bool;
  details : option Event.t;
  category : option Z;
  isCollapsedGroup : bool;
  objectIds : list string;
  baseId : option string;
  originalNode : bool;
  y : option Z
}.
End Node.

Module Edge.
Record t : Type := mk { source : string; target : string }.

Definition eqb (a b : t) : bool :=
  (source a =? source b)%string && (target a =? target b)%string.
End Edge.

Module VulnerabilityInfo.
Record t : Type := mk {
  uuid : string;
  ruleId : string;
  applicationName : string;
  applicationId : string;
  title : string;
  link : string
}.
End VulnerabilityInfo.

Module RequestInfo.
Record t : Type := mk {
  method : string;
  protocol : string;
  version : option string;
  port : option string;
  uri : string;
  queryString : option string;
  headers : list (string * string);
  parameters : list (string * string)
}.
End RequestInfo.

Module TraceData.
Record t : Type := mk {
  vulnerabilityInfo : VulnerabilityInfo.t;
  requestInfo : RequestInfo.t;
  events : list Event.t;
  nodes : list Node.t;
  edges : list Edge.t
}.
End TraceData.

(** What a call does: it returns a value or throws an [Error]. *)
Inductive outcome (A : Type) : Type :=
| Returned (value : A)
| Thrown (message : string).
Arguments Returned {A} value.
Arguments Thrown {A} message.

(** ** TraceParser ([js/trace-parser.js]) *)
Module TraceParser.
Import Js Dom.

(** [el.getAttribute(name) === "true"]. *)
Definition attr_is_true (el : xml) (name : string) : bool :=
  match getAttribute el name with
  | Some v => (v =? "true")%string
  | None => false
  end.

(** [getElementText]. *)
Definition getElementText (parentElement : xml) (tagName : string)
  : option string :=
  match getElementsByTagName parentElement tagName with
  | element :: _ => Some (textContent element)
  | [] => None
  end.

(** [extractArgs]: a tracked argument is decoded with [atob]; when that
    throws, the catch block stores a fixed text. *)
Definition extractArgs (eventElement : xml) : list Arg.t :=
  match getElementsByTagName eventElement "args" with
  | [] => []
  | argsElement :: _ =>
      map (fun argEl =>
             let tracked := attr_is_true argEl "tracked" in
             let decodedValue :=
               if tracked then
                 match atob (textContent argEl) with
                 | Some v => Some v
                 | None => Some "Unable to decode content"
                 end
               else None in
             Arg.mk (getAttribute argEl "hashCode") tracked
                    (textContent argEl) decodedValue)
          (getElementsByTagName argsElement "arg")
  end.

(** [extractParentObjectIds]. *)
Definition extractParentObjectIds (eventElement : xml) : list string :=
  match getElementsByTagName eventElement "parentObjectIds" with
  | [] => []
  | parentObjectIdsElement :: _ =>
      map textContent (getElementsByTagName parentObjectIdsElement "id")
  end.

(** The replacement function of the [String(decoded).replace] call: the
    five characters less-than, greater-than, ampersand, double quote and
    apostrophe become HTML entities. *)
Definition escape_char (c : ascii) : string :=
  if (c =? "<")%char then "&lt;"
  else if (c =? ">")%char then "&gt;"
  else if (c =? "&")%char then "&amp;"
  else if (c =? ascii_of_nat 34)%char then "&quot;"
  else if (c =? "'")%char then "&#39;"
  else String c EmptyString.

Fixpoint sanitize (s : string) : string :=
  match s with
  | EmptyString => EmptyString
  | String c s' => (escape_char c ++ sanitize s')%string
  end.

(** The decoding of the text of an [object] or [return] element: nothing
    for an empty text; otherwise [atob], falling back to the raw text when
    it throws, and then the escaping of a non-empty result. *)
Definition decodeContent (encodedContent : string) : option string :=
  if (encodedContent =? "")%string then None
  else
    let decoded :=
      match atob encodedContent with
      | Some v => v
      | None => encodedContent
      end in
    Some (if (decoded =? "")%string then decoded else sanitize decoded).

(** The [objectData] / [returnData] of an event, from its first [object] /
    [return] element. *)
Definition extractContent (eventEl : xml) (tag : string)
  : option Content.t :=
  match querySelector eventEl tag with
  | None => None
  | Some el =>
      let encodedContent := textContent el in
      Some (Content.mk (attr_is_true el "tracked")
                       (or_else (getAttribute el "hashCode") "")
                       encodedContent
                       (decodeContent encodedContent))
  end.

(** [eventEl.getAttribute("objectId") || `event-${index}`]. *)
Definition objectIdOf (eventEl : xml) (index : nat) : string :=
  or_else (getAttribute eventEl "objectId")
          ("event-" ++ string_of_nat index)%string.

(** The sort key [parseInt(a.getAttribute("time")) || 0]. *)
Definition timeKey (eventEl : xml) : Z :=
  parseInt_or_0 (getAttribute eventEl "time").

(** The state of the identifier pre-processing of [extractEvents]. *)
Record dedup : Type := mkDedup {
  allEvents : list xml;
  objectIdCounts : jsobj nat;
  objectIdPositions : jsobj (list nat)
}.

(** One round of the first pass.  [None]: the round throws a [TypeError],
    which happens when the id names a property of [Object.prototype] (the
    lookup is then truthy and the inherited value has no [push]). *)
Definition scan_event (st : option dedup) (ie : nat * xml) : option dedup :=
  match st with
  | None => None
  | Some st =>
      let (i, eventEl) := ie in
      let objectId := objectIdOf eventEl i in
      match obj_get (objectIdCounts st) objectId,
            obj_get (objectIdPositions st) objectId with
      | Some c, Some ps =>
          Some (mkDedup (allEvents st)
                        (obj_set (objectIdCounts st) objectId (S c))
                        (obj_set (objectIdPositions st) objectId (ps ++ [i])))
      | None, _ =>
          if proto_key objectId then None
          else
            Some (mkDedup (allEvents st)
                          (obj_set (objectIdCounts st) objectId 1)
                          (obj_set (objectIdPositions st) objectId [i]))
      | Some _, None => None
      end
  end.

Fixpoint update_nth {A : Type} (n : nat) (f : A -> A) (l : list A) : list A :=
  match l, n with
  | [], _ => []
  | x :: l', O => f x :: l'
  | x :: l', S n' => x :: update_nth n' f l'
  end.

(** One round of the inner renaming loop, for the index [i >= 1] into the
    positions of [duplicateId]. *)
Definition rename_one (duplicateId : string) (st : dedup) (ip : nat * nat)
  : dedup :=
  let (i, pos) := ip in
  let newId := (duplicateId ++ "-" ++ string_of_nat i)%string in
  mkDedup
    (update_nth pos (fun el => setAttribute el "objectId" newId) (allEvents st))
    (obj_set (objectIdCounts st) newId 1)
    (obj_set (objectIdPositions st) newId [pos]).

(** One round of [for (const duplicateId of duplicateIds)]. *)
Definition fix_duplicate (st : option dedup) (duplicateId : string)
  : option dedup :=
  match st with
  | None => None
  | Some st =>
      match obj_get (objectIdPositions st) duplicateId with
      | None => None
      | Some positions =>
          Some (fold_left (rename_one duplicateId)
                          (tl (combine (seq 0 (List.length positions)) positions))
                          st)
      end
  end.

Definition indexed {A : Type} (l : list A) : list (nat * A) :=
  combine (seq 0 (List.length l)) l.

(** The identifier pre-processing: first pass, [duplicateIds], renaming. *)
Definition dedupObjectIds (sorted : list xml) : option dedup :=
  match fold_left scan_event (indexed sorted) (Some (mkDedup sorted [] [])) with
  | None => None
  | Some st =>
      let duplicateIds :=
        filter (fun id => match obj_get (objectIdCounts st) id with
                          | Some c => (1 <? c)%nat
                          | None => false
                          end)
               (obj_keys (objectIdCounts st)) in
      fold_left fix_duplicate duplicateIds (Some st)
  end.

(** The callback of [allEvents.map]. *)
Definition makeEvent (ie : nat * xml) : Event.t :=
  let (index, eventEl) := ie in
  let isMethodEvent :=
    match eventEl with
    | Elem t _ _ => (t =? "method-event")%string
    | Text _ => false
    end in
  let eventType := or_else (getAttribute eventEl "type") "Unknown" in
  Event.mk (objectIdOf eventEl index)
           (or_else (getAttribute eventEl "time") "0")
           eventType
           isMethodEvent
           (eventType =? "Trigger")%string
           ((eventType =? "Creation")%string || (eventType =? "Source")%string)
           (or_else (getElementText eventEl "signature") "")
           (extractArgs eventEl)
           (extractParentObjectIds eventEl)
           (extractContent eventEl "object")
           (extractContent eventEl "return").

(** [extractEvents]: the three kinds of event elements, sorted by time, with
    duplicate identifiers renamed, turned into event objects.  An exception
    in the pre-processing is caught by the function, which then returns
    the empty array. *)
Definition extractEvents (eventsElement : xml) : list Event.t :=
  let sorted :=
    sort_by timeKey
      (getElementsByTagName eventsElement "propagation-event"
       ++ getElementsByTagName eventsElement "method-event"
       ++ getElementsByTagName eventsElement "tag-event") in
  match dedupObjectIds sorted with
  | Some st => map makeEvent (indexed (allEvents st))
  | None => []
  end.

(** *** buildNodes *)

(** [event.isSourceEvent || event.type === 'Creation' || event.type === 'Source']. *)
Definition isSource (event : Event.t) : bool :=
  Event.isSourceEvent event
  || (Event.type event =? "Creation")%string
  || (Event.type event =? "Source")%string.

(** [event.isTriggerEvent || event.type === 'Trigger']. *)
Definition isViolation (event : Event.t) : bool :=
  Event.isTriggerEvent event || (Event.type event =? "Trigger")%string.

Definition httpRequestNode : Node.t :=
  Node.mk "request" "http-request" "HTTP Request" false false None None
          false [] None false None.

Definition routeNode : Node.t :=
  Node.mk "route" "route" "Route" false false None None false [] None false None.

Definition eventNode (event : Event.t) : Node.t :=
  let eventType :=
    if isViolation event then "Violation"
    else if isSource event then "Source"
    else "Propagator" in
  Node.mk (Event.objectId event) "trace-event" eventType
          (isSource event) (isViolation event) (Some event)
          None false [] None false None.

(** [buildNodes]: the request node, the route node, one node per event.
    The argument [requestInfo] and the parsed document only feed the
    display strings, which are left out. *)
Definition buildNodes (events : list Event.t) : list Node.t :=
  httpRequestNode :: routeNode :: map eventNode events.

(** The display fields that [buildNodes] gives to the request node from
    [requestInfo.parameters], the pairs of a name and a value. *)

(** [`${p.name}="${p.value}"`]. *)
Definition paramText (p : string * string) : string :=
  (fst p ++ "=" ++ dq ++ snd p ++ dq)%string.

(** [httpRequestNode.taintedData]. *)
Definition requestTaintedData (trackedParams : list (string * string))
  : string :=
  if (0 <? List.length trackedParams)%nat
  then ("Source: " ++ join ", " (map paramText trackedParams))%string
  else "".

(** [startPos] and [endPos] in the callback of [trackedParams.map] for the
    parameter [param] at index [idx]. *)
Definition requestTaintSpan (trackedParams : list (string * string))
           (idx : nat) (param : string * string) : nat * nat :=
  let prevParamsLength :=
    fold_left (fun len p => len + String.length (paramText p) + 2)
              (firstn idx trackedParams) 0 in
  let startPos := prevParamsLength + String.length (fst param) + 2 in
  let endPos := startPos + String.length (snd param) in
  (startPos, endPos).

(** [httpRequestNode.taintRanges]. *)
Definition requestTaintRanges (trackedParams : list (string * string))
  : list TaintRange.t :=
  if (0 <? List.length trackedParams)%nat
  then
    map (fun ip =>
           let (startPos, endPos) :=
             requestTaintSpan trackedParams (fst ip) (snd ip) in
           TaintRange.mk (Some "tainted")
                         (Some (string_of_nat startPos ++ ":"
                                ++ string_of_nat endPos)%string))
        (indexed trackedParams)
  else [].

(** *** buildEdges *)

(** The lookup tables filled by the first [events.forEach]. *)
Record tables : Type := mkTables {
  eventMap : jsobj bool;
  eventPositions : jsobj nat;
  nodesMissingObjectId : list string;
  baseIdMap : jsobj (list Event.t);
  sourceNodeMap : jsobj string
}.

Definition index_event (tb : tables) (ie : nat * Event.t) : tables :=
  let (index, event) := ie in
  let objectId := Event.objectId event in
  let eventMap' := obj_set (eventMap tb) objectId true in
  let eventPositions' := obj_set (eventPositions tb) objectId index in
  match match_base objectId with
  | None =>
      if startsWith objectId "event-"
      then mkTables eventMap' eventPositions'
                    (nodesMissingObjectId tb ++ [objectId])
                    (baseIdMap tb) (sourceNodeMap tb)
      else mkTables eventMap' eventPositions' (nodesMissingObjectId tb)
                    (baseIdMap tb) (sourceNodeMap tb)
  | Some baseId =>
      let members :=
        match obj_get (baseIdMap tb) baseId with
        | Some l => l
        | None => []
        end in
      mkTables eventMap' eventPositions' (nodesMissingObjectId tb)
               (obj_set (baseIdMap tb) baseId (members ++ [event]))
               (if isSource event
                then obj_set (sourceNodeMap tb) baseId objectId
                else sourceNodeMap tb)
  end.

Definition build_tables (events : list Event.t) : tables :=
  fold_left index_event (indexed events) (mkTables [] [] [] [] []).

(** Whether [eventMap[k]] is truthy: an own entry, or a property inherited
    from [Object.prototype]. *)
Definition eventMap_has (tb : tables) (k : string) : bool :=
  match obj_get (eventMap tb) k with
  | Some b => b
  | None => proto_key k
  end.

(** [eventPositions[e.objectId] === i]. *)
Definition positionIs (tb : tables) (i : nat) (e : Event.t) : bool :=
  match obj_get (eventPositions tb) (Event.objectId e) with
  | Some p => (p =? i)%nat
  | None => false
  end.

(** [for (let i = n - 1; i >= 0; i--)] looking for the event at position
    [i]; the id of the first one found. *)
Fixpoint precedingEventId (events : list Event.t) (tb : tables) (n : nat)
  : option string :=
  match n with
  | O => None
  | S i =>
      match find (positionIs tb i) events with
      | Some prevEvent => Some (Event.objectId prevEvent)
      | None => precedingEventId events tb i
      end
  end.

(** [prevNodeId]: the route unless the backward scan finds an event. *)
Definition prevNodeId (events : list Event.t) (tb : tables)
           (currentEventId : string) : string :=
  match obj_get (eventPositions tb) currentEventId with
  | Some currentPosition =>
      match precedingEventId events tb currentPosition with
      | Some id => id
      | None => "route"
      end
  | None => "route"
  end.

(** [for (let i = ...; i < events.length; i++)], [fuel] rounds from [i]. *)
Fixpoint followingEventId (events : list Event.t) (tb : tables)
         (fuel i : nat) : option string :=
  match fuel with
  | O => None
  | S fuel' =>
      match find (positionIs tb i) events with
      | Some nextEvent => Some (Event.objectId nextEvent)
      | None => followingEventId events tb fuel' (S i)
      end
  end.

Definition nextNodeId (events : list Event.t) (tb : tables)
           (currentEventId : string) : option string :=
  match obj_get (eventPositions tb) currentEventId with
  | Some currentPosition =>
      followingEventId events tb
        (List.length events - S currentPosition) (S currentPosition)
  | None => None
  end.

(** The callback of [event.parentObjectIds.forEach]: the edges pushed for
    one parent id. *)
Definition parentEdges (tb : tables) (event : Event.t) (parentId : string)
  : list Edge.t :=
  let regular :=
    if (parentId =? "route")%string || (parentId =? "request")%string
       || eventMap_has tb parentId
    then [Edge.mk parentId (Event.objectId event)]
    else [] in
  match match_base parentId with
  | Some parentBaseId =>
      let hasSource :=
        match obj_get (sourceNodeMap tb) parentBaseId with
        | Some s => negb (s =? "")%string
        | None => false
        end in
      let severalMembers :=
        match obj_get (baseIdMap tb) parentBaseId with
        | Some l => (1 <? List.length l)%nat
        | None => false
        end in
      if hasSource && severalMembers
         && eventMap_has tb (parentBaseId ++ "-group")%string
      then
        if negb (isSource event
                 && startsWith (Event.objectId event) parentBaseId)
        then [Edge.mk (parentBaseId ++ "-group")%string (Event.objectId event)]
        else regular
      else regular
  | None => regular
  end.

(** The variables updated by the loop over [sortedEvents].  An entry of
    [nodesWithoutParents] is the pair of [id] and [previousId]. *)
Record progress : Type := mkProgress {
  edges : list Edge.t;
  previousEventId : string;
  nodesWithoutParents : list (string * string)
}.

Definition mem (k : string) (l : list string) : bool :=
  existsb (String.eqb k) l.

Fixpoint findIndex {A : Type} (p : A -> bool) (l : list A) : option nat :=
  match l with
  | [] => None
  | x :: l' =>
      if p x then Some O
      else match findIndex p l' with Some i => Some (S i) | None => None end
  end.

(** The closest source event before the first event named [currentEventId]
    in [sortedEvents]; the route when there is none. *)
Definition bestSourceId (sortedEvents : list Event.t)
           (sourceNodes : list string) (currentEventId : string) : string :=
  match findIndex (fun e => (Event.objectId e =? currentEventId)%string)
                  sortedEvents with
  | Some sourceIndex =>
      match find (fun e => mem (Event.objectId e) sourceNodes)
                 (rev (firstn sourceIndex sortedEvents)) with
      | Some e => Event.objectId e
      | None => "route"
      end
  | None => "route"
  end.

(** The callback of [sortedEvents.forEach]. *)
Definition processEvent (events : list Event.t) (tb : tables)
           (sortedEvents : list Event.t) (sourceNodes : list string)
           (st : progress) (event : Event.t) : progress :=
  let currentEventId := Event.objectId event in
  if isViolation event then
    mkProgress
      (edges st ++ [Edge.mk (prevNodeId events tb currentEventId) currentEventId])
      currentEventId
      (nodesWithoutParents st)
  else
    match Event.parentObjectIds event with
    | _ :: _ =>
        mkProgress
          (edges st ++ flat_map (parentEdges tb event) (Event.parentObjectIds event))
          currentEventId
          (nodesWithoutParents st)
    | [] =>
        if isSource event then
          mkProgress (edges st ++ [Edge.mk "route" currentEventId])
                     currentEventId (nodesWithoutParents st)
        else if mem currentEventId (nodesMissingObjectId tb) then
          mkProgress
            (edges st
             ++ [Edge.mk (prevNodeId events tb currentEventId) currentEventId]
             ++ match nextNodeId events tb currentEventId with
                | Some next => [Edge.mk currentEventId next]
                | None => []
                end)
            currentEventId (nodesWithoutParents st)
        else if (0 <? List.length sourceNodes)%nat
                && negb (mem currentEventId sourceNodes) then
          mkProgress (edges st) currentEventId
            (nodesWithoutParents st
             ++ [(currentEventId,
                  bestSourceId sortedEvents sourceNodes currentEventId)])
        else
          mkProgress (edges st) currentEventId
            (nodesWithoutParents st ++ [(currentEventId, previousEventId st)])
    end.

Definition edge853_951 : Edge.t := Edge.mk "853-group" "951-group".

(** The callback of the last [events.forEach]: the hard-wired edge between
    the groups 853 and 951. *)
Definition specialEdge (edges : list Edge.t) (event : Event.t) : list Edge.t :=
  if includes (Event.objectId event) "951"
     && existsb (fun id => includes id "853") (Event.parentObjectIds event)
  then
    if existsb (Edge.eqb edge853_951) edges then edges
    else edges ++ [edge853_951]
  else edges.

(** [buildEdges]. *)
Definition buildEdges (events : list Event.t) : list Edge.t :=
  let tb := build_tables events in
  let sortedEvents :=
    sort_by (fun e => parseInt_or_0 (Some (Event.time e))) events in
  let sourceNodes := map Event.objectId (filter isSource sortedEvents) in
  let st :=
    fold_left (processEvent events tb sortedEvents sourceNodes) sortedEvents
              (mkProgress [Edge.mk "request" "route"] "route" []) in
  let edges1 :=
    edges st
    ++ map (fun n => Edge.mk (snd n) (fst n)) (nodesWithoutParents st) in
  fold_left specialEdge events edges1.

(** *** extractTraceData and parseXmlContent *)

Definition extractPairs (requestElement : xml) (container item : string)
  : list (string * string) :=
  match getElementsByTagName requestElement container with
  | [] => []
  | containerElement :: _ =>
      map (fun el => (or_else (getAttribute el "name") "",
                      or_else (getAttribute el "value") ""))
          (getElementsByTagName containerElement item)
  end.

(** [extractHeaders]. *)
Definition extractHeaders (requestElement : xml) : list (string * string) :=
  extractPairs requestElement "headers" "h".

(** [extractParameters]. *)
Definition extractParameters (requestElement : xml) : list (string * string) :=
  extractPairs requestElement "parameters" "p".

(** The value returned by the catch block of [extractTraceData]. *)
Definition errorTraceData (message : string) : TraceData.t :=
  TraceData.mk
    (VulnerabilityInfo.mk "error" "error" "Error" "error"
                          ("Error: " ++ message)%string "#")
    (RequestInfo.mk "GET" "http" None None "/" None [] [])
    []
    [Node.mk "error" "http-request" ("Error: " ++ message)%string
             false false None None false [] None false None]
    [].

(** [extractTraceData]: every [throw] of the body is caught by the catch
    block of the function itself. *)
Definition extractTraceData (xmlDoc : xml) : TraceData.t :=
  match doc_getElementsByTagName xmlDoc "finding" with
  | [] => errorTraceData "No finding element found in XML"
  | findingElement :: _ =>
      let ruleId := or_else (getAttribute findingElement "ruleId") "unknown" in
      match getElementsByTagName findingElement "request" with
      | [] => errorTraceData "No request element found in XML"
      | requestElement :: _ =>
          let uri := or_else (getAttribute requestElement "uri") "/" in
          let title :=
            or_else (getAttribute findingElement "vulnerability-title")
                    (ruleId ++ " in " ++ uri)%string in
          let vulnerabilityInfo :=
            VulnerabilityInfo.mk
              (or_else (getAttribute findingElement "uuid") "unknown")
              ruleId
              (or_else (getAttribute findingElement "application-name") "unknown")
              (or_else (getAttribute findingElement "application-id") "unknown")
              title
              (or_else (getAttribute findingElement "link") "#") in
          let requestInfo :=
            RequestInfo.mk
              (or_else (getAttribute requestElement "method") "GET")
              (or_else (getAttribute requestElement "protocol") "http")
              (Some (or_else (getAttribute requestElement "version") "1.1"))
              (Some (or_else (getAttribute requestElement "port") "80"))
              uri
              (Some (or_else (getAttribute requestElement "qs") ""))
              (extractHeaders requestElement)
              (extractParameters requestElement) in
          match getElementsByTagName findingElement "events" with
          | [] => errorTraceData "No events element found in XML"
          | eventsElement :: _ =>
              let events := extractEvents eventsElement in
              TraceData.mk vulnerabilityInfo requestInfo events
                           (buildNodes events) (buildEdges events)
          end
      end
  end.

(** [parseXmlContent], from the document built by [DOMParser]: the only
    [throw] that leaves it is the one for a [parsererror] element. *)
Definition parseXmlContent (xmlDoc : xml) : outcome TraceData.t :=
  match doc_getElementsByTagName xmlDoc "parsererror" with
  | _ :: _ => Thrown "Error parsing XML content"
  | [] => Returned (extractTraceData xmlDoc)
  end.

End TraceParser.

(** ** The highlighting of tainted ranges

    [applyTagRangesToTooltip] ([js/graph-renderer.js]) and
    [applyTaintRanges] ([js/app.js]) contain the same two loops: the first
    fills [highlightMap] from the range texts, the second walks over the
    characters of the content and opens and closes [span] elements.  They
    differ in the opening tag and in what is appended for a character. *)
Module Highlight.
Import Js.

(** [highlightMap]: the tag stored under a position, if any. *)
Definition highlightMap : Type := nat -> option string.

(** [for (let i = start; i < end; i++) highlightMap[i] = tag]. *)
Definition mark (tag : string) (start stop : Z) (m : highlightMap)
  : highlightMap :=
  fun i =>
    if (start <=? Z.of_nat i)%Z && (Z.of_nat i <? stop)%Z then Some tag
    else m i.

(** One range text [start:end], for a content of [len] characters: a text
    whose numbers do not parse, that starts below zero or that ends beyond
    the content is skipped. *)
Definition markSingle (len : nat) (tag : string) (m : highlightMap)
           (singleRange : string) : highlightMap :=
  match map parseInt10 (split ":" singleRange) with
  | Some start :: Some stop :: _ =>
      if (start <? 0)%Z || (Z.of_nat len <? stop)%Z then m
      else mark tag start stop m
  | _ => m
  end.

(** The callback of [taintRanges.forEach]. *)
Definition markRange (len : nat) (m : highlightMap) (range : TaintRange.t)
  : highlightMap :=
  match TaintRange.range range with
  | None => m
  | Some r =>
      if (r =? "")%string then m
      else
        let tag := or_else (TaintRange.tag range) "tainted" in
        if includes r ","
        then fold_left (markSingle len tag) (split "," r) m
        else markSingle len tag m r
  end.

(** The variables of the second loop. *)
Record cursor : Type := mkCursor {
  result : string;
  currentTag : option string;
  inHighlight : bool
}.

(** [tag !== currentTag]. *)
Definition differs (tag : string) (currentTag : option string) : bool :=
  match currentTag with
  | Some t => negb (t =? tag)%string
  | None => true
  end.

(** One round of the second loop, for the character [char] at index [i]. *)
Definition step (openTag : string -> string) (emit : ascii -> string)
           (m : highlightMap) (st : cursor) (ic : nat * ascii) : cursor :=
  let (i, char) := ic in
  let st1 :=
    match m i with
    | Some tag =>
        if negb (inHighlight st) || differs tag (currentTag st)
        then
          mkCursor ((if inHighlight st then result st ++ "</span>"
                     else result st) ++ openTag tag)%string
                   (Some tag) true
        else st
    | None =>
        if inHighlight st
        then mkCursor (result st ++ "</span>")%string None false
        else st
    end in
  mkCursor (result st1 ++ emit char)%string (currentTag st1) (inHighlight st1).

(** Both loops and the closing of a highlight that is still open. *)
Definition highlight (openTag : string -> string) (emit : ascii -> string)
           (content : string) (ranges : list TaintRange.t) : string :=
  let contentChars := list_ascii_of_string content in
  let highlightMap :=
    fold_left (markRange (List.length contentChars)) ranges (fun _ => None) in
  let st :=
    fold_left (step openTag emit highlightMap)
              (combine (seq 0 (List.length contentChars)) contentChars)
              (mkCursor "" None false) in
  if inHighlight st then (result st ++ "</span>")%string else result st.

End Highlight.

(** ** GraphRenderer ([js/graph-renderer.js]) *)
Module GraphRenderer.
Import Js.

(** [getDisplayType]; [None] is [undefined]. *)
Definition getDisplayType (type : option string) : string :=
  match type with
  | None => "Unknown"
  | Some type =>
      if (type =? "")%string then "Unknown"
      else if (type =? "Propagator")%string || (type =? "P2O")%string
              || (type =? "O2P")%string || (type =? "P2P")%string
              || (type =? "O2R")%string || (type =? "P2R")%string
      then "Data Flow"
      else if (type =? "Creation")%string || (type =? "Source")%string
      then "Source"
      else if (type =? "Trigger")%string then "Violation"
      else if (type =? "http-request")%string then "HTTP Request"
      else if (type =? "route")%string then "Route"
      else type
  end.

(** [escapeHtml]: five replacements one after the other, the ampersand
    first. *)
Definition escapeHtml (unsafe : option string) : string :=
  match unsafe with
  | None => ""
  | Some s =>
      replace_char "'" "&#039;"
        (replace_char (ascii_of_nat 34) "&quot;"
           (replace_char ">" "&gt;"
              (replace_char "<" "&lt;"
                 (replace_char "&" "&amp;" s))))
  end.

(** The opening tag of a highlight in a tooltip. *)
Definition tooltipSpan (tag : string) : string :=
  ("<span style=" ++ dq
   ++ "color: #ff6b61; background-color: rgba(231, 76, 60, 0.2); font-weight: bold; padding: 0px 1px; border-radius: 2px;"
   ++ dq ++ ">")%string.

(** [applyTagRangesToTooltip]: the characters are appended as they are. *)
Definition applyTagRangesToTooltip (content : string)
           (tagRanges : list TaintRange.t) : string :=
  if (content =? "")%string || (List.length tagRanges =? 0)%nat then content
  else Highlight.highlight tooltipSpan (fun char => String char EmptyString)
                           content tagRanges.

(** *** groupSimilarNodes *)

(** An entry of [baseIdGroups]. *)
Record group : Type := mkGroup {
  sources : list Node.t;
  others : list Node.t
}.

(** An entry of [edgesToUpdate]; a removal carries no new end points. *)
Record update : Type := mkUpdate {
  oldSource : string;
  oldTarget : string;
  remove : bool;
  newSource : option string;
  newTarget : option string
}.

(** The four work lists of step 2. *)
Record changes : Type := mkChanges {
  nodesToRemove : list string;
  nodesToAdd : list Node.t;
  edgesToUpdate : list update;
  newEdgesToAdd : list Edge.t
}.

(** [node.isSourceEvent || node.type === 'Creation' || node.type === 'Source']. *)
Definition isSourceNode (node : Node.t) : bool :=
  Node.isSourceEvent node
  || (Node.type node =? "Creation")%string
  || (Node.type node =? "Source")%string.

(** The node after [node.baseId = baseId; node.originalNode = true]. *)
Definition tagged (baseId : string) (node : Node.t) : Node.t :=
  Node.mk (Node.id node) (Node.type node) (Node.label node)
          (Node.isSourceEvent node) (Node.isTriggerEvent node)
          (Node.details node) (Node.category node)
          (Node.isCollapsedGroup node) (Node.objectIds node)
          (Some baseId) true (Node.y node).

(** Step 1 on one node, as seen in the node list. *)
Definition tagNode (node : Node.t) : Node.t :=
  match match_base (Node.id node) with
  | Some baseId => tagged baseId node
  | None => node
  end.

(** Step 1 on one node, as seen in [baseIdGroups]. *)
Definition classify (baseIdGroups : jsobj group) (node : Node.t)
  : jsobj group :=
  match match_base (Node.id node) with
  | Some baseId =>
      let g :=
        match obj_get baseIdGroups baseId with
        | Some g => g
        | None => mkGroup [] []
        end in
      obj_set baseIdGroups baseId
        (if isSourceNode node
         then mkGroup (sources g ++ [tagged baseId node]) (others g)
         else mkGroup (sources g) (others g ++ [tagged baseId node]))
  | None => baseIdGroups
  end.

Definition hasId (l : list Node.t) (k : string) : bool :=
  existsb (fun n => (Node.id n =? k)%string) l.

(** [base === baseId] for the result [base] of an optional match. *)
Definition base_is (base : option string) (baseId : string) : bool :=
  match base with
  | Some b => (b =? baseId)%string
  | None => false
  end.

(** The callback of [this.data.edges.forEach] for one collapsed group. *)
Definition edgeUpdates (baseId : string) (sourceNodes otherNodes : list Node.t)
           (edge : Edge.t) : list update :=
  let edgeSourceBase := match_base (Edge.source edge) in
  let edgeTargetBase := match_base (Edge.target edge) in
  if hasId sourceNodes (Edge.source edge) && hasId otherNodes (Edge.target edge)
  then [mkUpdate (Edge.source edge) (Edge.target edge) true None None]
  else
    (if base_is edgeSourceBase baseId
        && hasId otherNodes (Edge.source edge)
        && negb (hasId otherNodes (Edge.target edge))
     then [mkUpdate (Edge.source edge) (Edge.target edge) false
                    (Some (baseId ++ "-group")%string) (Some (Edge.target edge))]
     else [])
    ++
    (if base_is edgeTargetBase baseId
        && hasId otherNodes (Edge.target edge)
        && negb (hasId otherNodes (Edge.source edge))
        && negb (hasId sourceNodes (Edge.source edge))
     then [mkUpdate (Edge.source edge) (Edge.target edge) false
                    (Some (Edge.source edge)) (Some (baseId ++ "-group")%string)]
     else []).

(** The representative of the collapsed members [otherNodes], whose first
    is [first]. *)
Definition representativeNode (baseId : string) (first : Node.t)
           (otherNodes : list Node.t) : Node.t :=
  Node.mk (baseId ++ "-group")%string (Node.type first) (Node.label first)
          false (existsb Node.isTriggerEvent otherNodes)
          (Node.details first) (Node.category first)
          true (map Node.id otherNodes) None false None.

(** The callback of [Object.keys(baseIdGroups).forEach]. *)
Definition collapseGroup (baseIdGroups : jsobj group) (edges : list Edge.t)
           (ch : changes) (baseId : string) : changes :=
  match obj_get baseIdGroups baseId with
  | None => ch
  | Some g =>
      match others g with
      | first :: _ :: _ =>
          let otherNodes := others g in
          let sourceNodes := sources g in
          mkChanges
            (nodesToRemove ch ++ map Node.id otherNodes)
            (nodesToAdd ch ++ [representativeNode baseId first otherNodes])
            (edgesToUpdate ch
             ++ flat_map (edgeUpdates baseId sourceNodes otherNodes) edges)
            (newEdgesToAdd ch
             ++ map (fun s => Edge.mk (Node.id s) (baseId ++ "-group")%string)
                    sourceNodes)
      | _ => ch
      end
  end.

Definition baseIdGroupsOf (nodes : list Node.t) : jsobj group :=
  fold_left classify nodes [].

Definition changesOf (nodes : list Node.t) (edges : list Edge.t) : changes :=
  let baseIdGroups := baseIdGroupsOf nodes in
  fold_left (collapseGroup baseIdGroups edges) (obj_keys baseIdGroups)
            (mkChanges [] [] [] []).

(** [edgesToUpdate.find(u => u.oldSource === edge.source &&
    u.oldTarget === edge.target)]. *)
Definition updateInfo (edgesToUpdate : list update) (edge : Edge.t)
  : option update :=
  find (fun u => (oldSource u =? Edge.source edge)%string
                 && (oldTarget u =? Edge.target edge)%string)
       edgesToUpdate.

Definition keepEdge (edgesToUpdate : list update) (edge : Edge.t) : bool :=
  match updateInfo edgesToUpdate edge with
  | Some u => negb (remove u)
  | None => true
  end.

Definition applyUpdate (edgesToUpdate : list update) (edge : Edge.t) : Edge.t :=
  match updateInfo edgesToUpdate edge with
  | Some u =>
      match newSource u, newTarget u with
      | Some s, Some t =>
          if negb (s =? "")%string && negb (t =? "")%string
          then Edge.mk s t else edge
      | _, _ => edge
      end
  | None => edge
  end.

(** The key [`${edge.source}->${edge.target}`] of the duplicate filter. *)
Definition edgeKey (edge : Edge.t) : string :=
  (Edge.source edge ++ "->" ++ Edge.target edge)%string.

(** The duplicate filter over [updatedEdges]: [seen] are the keys of the
    [Map], [acc] is [uniqueEdges]. *)
Fixpoint uniqueFrom (seen : list string) (acc : list Edge.t)
         (l : list Edge.t) : list Edge.t :=
  match l with
  | [] => acc
  | edge :: l' =>
      if TraceParser.mem (edgeKey edge) seen then uniqueFrom seen acc l'
      else uniqueFrom (edgeKey edge :: seen) (acc ++ [edge]) l'
  end.

Definition newNodesOf (nodes : list Node.t) (ch : changes) : list Node.t :=
  filter (fun node => negb (TraceParser.mem (Node.id node) (nodesToRemove ch)))
         (map tagNode nodes)
  ++ nodesToAdd ch.

Definition uniqueEdgesOf (edges : list Edge.t) (ch : changes) : list Edge.t :=
  uniqueFrom [] []
    (map (applyUpdate (edgesToUpdate ch))
         (filter (keepEdge (edgesToUpdate ch)) edges)
     ++ newEdgesToAdd ch).

(** The last block of the function: the edge between the groups 853 and
    951 is pushed when both group nodes exist and are not yet connected. *)
Definition specialFix (newNodes : list Node.t) (uniqueEdges : list Edge.t)
  : list Edge.t :=
  if hasId newNodes "853-group" && hasId newNodes "951-group"
     && negb (existsb (Edge.eqb TraceParser.edge853_951) uniqueEdges)
  then uniqueEdges ++ [TraceParser.edge853_951]
  else uniqueEdges.

(** [groupSimilarNodes(nodes)] with [this.data.edges = edges]: the new
    values of [this.data.nodes] and [this.data.edges]. *)
Definition groupSimilarNodes (nodes : list Node.t) (edges : list Edge.t)
  : list Node.t * list Edge.t :=
  let ch := changesOf nodes edges in
  let newNodes := newNodesOf nodes ch in
  (newNodes, specialFix newNodes (uniqueEdgesOf edges ch)).

(** *** The corrective pass of createDagLayout (step 4)

    Coordinates are modelled by integers; a node without position has
    [y = None]. *)

(** [parentMap.get(id)], the empty list standing for [undefined] as well. *)
Definition parentsOf (links : list Edge.t) (id : string) : list string :=
  map Edge.source (filter (fun l => (Edge.target l =? id)%string) links).

(** The loop computing [maxParentY]. *)
Definition maxParentY (nodes : list Node.t) (parents : list string) : Z :=
  fold_left
    (fun m parentId =>
       match find (fun n => (Node.id n =? parentId)%string) nodes with
       | Some parentNode =>
           match Node.y parentNode with
           | Some py => if (m <? py)%Z then py else m
           | None => m
           end
       | None => m
       end)
    parents 0%Z.

Definition setY (v : Z) (node : Node.t) : Node.t :=
  Node.mk (Node.id node) (Node.type node) (Node.label node)
          (Node.isSourceEvent node) (Node.isTriggerEvent node)
          (Node.details node) (Node.category node)
          (Node.isCollapsedGroup node) (Node.objectIds node)
          (Node.baseId node) (Node.originalNode node) (Some v).

(** The callback of [nodes.forEach] for the node at index [i]; the nodes
    are shared objects, so the new [y] is seen by the later rounds. *)
Definition adjustNode (links : list Edge.t) (nodes : list Node.t) (i : nat)
  : list Node.t :=
  match nth_error nodes i with
  | None => nodes
  | Some node =>
      if (Node.id node =? "request")%string || (Node.id node =? "route")%string
      then nodes
      else
        match parentsOf links (Node.id node) with
        | [] => nodes
        | parents =>
            let m := maxParentY nodes parents in
            match Node.y node with
            | Some ny =>
                if (0 <? m)%Z && (ny <=? m + 50)%Z
                then TraceParser.update_nth i (setY (m + 80)%Z) nodes
                else nodes
            | None => nodes
            end
        end
  end.

Definition correctivePass (nodes : list Node.t) (links : list Edge.t)
  : list Node.t :=
  fold_left (adjustNode links) (seq 0 (List.length nodes)) nodes.

(** The position of the node named [k]: the first node with that id. *)
Definition yOf (nodes : list Node.t) (k : string) : option Z :=
  match find (fun n => (Node.id n =? k)%string) nodes with
  | Some n => Node.y n
  | None => None
  end.

End GraphRenderer.

(** ** The application ([js/app.js]) *)
Module App.
Import Js.

(** [getDisplayType]. *)
Definition getDisplayType (type : option string) : string :=
  match type with
  | None => "Unknown"
  | Some type =>
      if (type =? "")%string then "Unknown"
      else if (type =? "Propagator")%string || (type =? "P2O")%string
              || (type =? "O2P")%string || (type =? "P2P")%string
              || (type =? "O2R")%string || (type =? "P2R")%string
      then "Data Flow"
      else if (type =? "Creation")%string || (type =? "Source")%string
      then "Source"
      else if (type =? "Trigger")%string then "Violation"
      else if (type =? "http-request")%string then "HTTP Request"
      else type
  end.

(** [escapeHtml]. *)
Definition escapeHtml (unsafe : option string) : string :=
  match unsafe with
  | None => ""
  | Some s =>
      replace_char "'" "&#039;"
        (replace_char (ascii_of_nat 34) "&quot;"
           (replace_char ">" "&gt;"
              (replace_char "<" "&lt;"
                 (replace_char "&" "&amp;" s))))
  end.

(** The opening tag of a highlight in the side panel. *)
Definition taintSpan (tag : string) : string :=
  ("<span class=" ++ dq ++ "taint-highlight taint-" ++ tag ++ dq ++ ">")%string.

(** The [switch] that escapes one character. *)
Definition escapeOne (char : ascii) : string :=
  if (char =? "<")%char then "&lt;"
  else if (char =? ">")%char then "&gt;"
  else if (char =? "&")%char then "&amp;"
  else if (char =? ascii_of_nat 34)%char then "&quot;"
  else if (char =? "'")%char then "&#039;"
  else String char EmptyString.

(** [mayHaveEntities]. *)
Definition mayHaveEntities (content : string) : bool :=
  negb (content =? "")%string
  && (includes content "&lt;" || includes content "&gt;"
      || includes content "&amp;" || includes content "&quot;"
      || includes content "&#").

(** [applyTaintRanges(content, taintRanges, truncate, skipEscaping)]; the
    function overwrites [truncate] with [false]. *)
Definition applyTaintRanges (content : string)
           (taintRanges : list TaintRange.t) (skipEscaping : bool) : string :=
  let shouldSkipEscaping := skipEscaping || mayHaveEntities content in
  if (content =? "")%string || (List.length taintRanges =? 0)%nat
  then if shouldSkipEscaping then content else escapeHtml (Some content)
  else
    Highlight.highlight taintSpan
      (if shouldSkipEscaping then (fun char => String char EmptyString)
       else escapeOne)
      content taintRanges.

End App.

(** ** The node count test ([test-node-count.js]) *)
Module NodeCountTest.
Import Dom.

(** [countXmlEvents]. *)
Definition countXmlEvents (xmlDoc : xml) : Z :=
  (Z.of_nat (List.length (doc_getElementsByTagName xmlDoc "propagation-event"))
   + Z.of_nat (List.length (doc_getElementsByTagName xmlDoc "method-event"))
   + Z.of_nat (List.length (doc_getElementsByTagName xmlDoc "tag-event")))%Z.

(** [traceData.nodes.length - 2]. *)
Definition graphNodeCount (traceData : TraceData.t) : Z :=
  (Z.of_nat (List.length (TraceData.nodes traceData)) - 2)%Z.

(** [runNodeCountTest] on the document that [DOMParser] builds: whether
    the test passes; [None] when [parseXmlContent] throws, which the test
    reports as an error. *)
Definition runNodeCountTest (xmlDoc : xml) : option bool :=
  match TraceParser.parseXmlContent xmlDoc with
  | Returned traceData =>
      Some (countXmlEvents xmlDoc =? graphNodeCount traceData)%Z
  | Thrown _ => None
  end.

End NodeCountTest.

(** ** Concrete traces used by the examples *)
Module Samples.
Import Dom.

(** A [propagation-event] element with the given id (none when empty),
    type and parent ids, and no [time] attribute. *)
Definition ev (id ty : string) (parents : list string) : xml :=
  Elem "propagation-event"
       ((if (id =? "")%string then [] else [("objectId", id)]) ++ [("type", ty)])
       match parents with
       | [] => []
       | _ => [Elem "parentObjectIds" []
                    (map (fun p => Elem "id" [] [Text p]) parents)]
       end.

Definition eventsOf (l : list xml) : xml := Elem "events" [] l.

(** A well-formed trace document around the given event elements. *)
Definition trace (l : list xml) : xml :=
  Elem "finding" [("ruleId", "sql-injection")]
       [Elem "request" [("method", "GET"); ("uri", "/search")] []; eventsOf l].

(** Ids 42, 42, 42-1. *)
Definition ids_42_42_42d1 : xml :=
  eventsOf [ev "42" "P2O" []; ev "42" "P2O" []; ev "42-1" "P2O" []].

(** Ids 42, 42. *)
Definition ids_42_42 : xml :=
  eventsOf [ev "42" "P2O" []; ev "42" "P2O" []].

(** Ids 42, 42, 42-1, 42-1. *)
Definition ids_42_42_42d1_42d1 : xml :=
  eventsOf [ev "42" "P2O" []; ev "42" "P2O" [];
            ev "42-1" "P2O" []; ev "42-1" "P2O" []].

(** A document whose root is no [finding] element. *)
Definition noFinding : xml := Elem "report" [] [].

(** A [finding] without [events]. *)
Definition noEvents : xml :=
  Elem "finding" [("ruleId", "xss")] [Elem "request" [("uri", "/")] []].

(** An event whose [object], [return] and tracked [arg] payloads are no
    Base64: the texts are [<b>], [a&b] and [not base64!]. *)
Definition undecodable : xml :=
  Elem "propagation-event" [("objectId", "1"); ("type", "P2O")]
       [Elem "args" [] [Elem "arg" [("tracked", "true"); ("hashCode", "h1")]
                             [Text "not base64!"];
                        Elem "arg" [("tracked", "false")] [Text "%%%"]];
        Elem "object" [("tracked", "true")] [Text "<b>"];
        Elem "return" [("tracked", "true")] [Text "a&b"]].

(** One propagator whose only parent id names no node. *)
Definition orphan : xml := trace [ev "5" "P2O" ["999"]].


(** An event of object 951 with a parent of object 853. *)
Definition link853_951 : xml := trace [ev "951" "P2O" ["853"]].

(** One source and three propagators of object 7 (the ids become 7, 7-1,
    7-2 and 7-3), each propagator with the source as its parent. *)
Definition object7 : xml :=
  trace [ev "7" "Creation" []; ev "7" "P2O" ["7"]; ev "7" "P2O" ["7"];
         ev "7" "P2O" ["7"]].

(** Event 9, two events of object 7 with parent 9, event 8 with parent
    7-1. *)
Definition chain9_7_8 : xml :=
  trace [ev "9" "P2O" []; ev "7" "P2O" ["9"]; ev "7" "P2O" ["9"];
         ev "8" "P2O" ["7-1"]].

(** A source 1, two events of object 5 with parent 1, and two events of
    object 9 with parent 5-1: two collapsed groups, one feeding the
    other. *)
Definition chainedGroups : xml :=
  trace [ev "1" "Creation" []; ev "5" "P2O" ["1"]; ev "5" "P2O" ["1"];
         ev "9" "P2O" ["5-1"]; ev "9" "P2O" ["5-1"]].

Definition eventsIn (doc : xml) : list Event.t :=
  TraceData.events (TraceParser.extractTraceData doc).

(** The graph handed to the layout for a document: the nodes and edges of
    the parser after the grouping pass. *)
Definition graphOf (doc : xml) : list Node.t * list Edge.t :=
  GraphRenderer.groupSimilarNodes
    (TraceData.nodes (TraceParser.extractTraceData doc))
    (TraceData.edges (TraceParser.extractTraceData doc)).

(** The positions that steps 1 to 3 of [createDagLayout] give to the nodes
    of [chain9_7_8] (top margin 180): the request at 230, the route at 330,
    and in the data-flow band, ordered by object number, the main-flow
    nodes 7-group at 530 and 9 at 570, then the end point 8 at 610. *)
Definition placement9_7_8 : list (string * Z) :=
  [("request", 230%Z); ("route", 330%Z); ("9", 570%Z); ("8", 610%Z);
   ("7-group", 530%Z)].

Definition place (table : list (string * Z)) (nodes : list Node.t)
  : list Node.t :=
  map (fun n =>
         match Js.obj_get table (Node.id n) with
         | Some v => GraphRenderer.setY v n
         | None => n
         end) nodes.

End Samples.

(** ** Vocabulary of the statements *)
Module Vocabulary.
Import Js Dom TraceParser GraphRenderer.

(** A document that lacks a required element: no finding element, or no
    request or no events element below the first finding element. *)
Definition lacksStructure (xmlDoc : xml) : Prop :=
  match doc_getElementsByTagName xmlDoc "finding" with
  | [] => True
  | findingElement :: _ =>
      getElementsByTagName findingElement "request" = []
      \/ getElementsByTagName findingElement "events" = []
  end.



(** The nodes of object [baseId] that are no source nodes, and those that
    are, in the order of the node list. *)
Definition membersOf (nodes : list Node.t) (baseId : string) : list Node.t :=
  filter (fun n => base_is (match_base (Node.id n)) baseId
                   && negb (isSourceNode n)) nodes.

Definition sourcesOf (nodes : list Node.t) (baseId : string) : list Node.t :=
  filter (fun n => base_is (match_base (Node.id n)) baseId
                   && isSourceNode n) nodes.

(** Strings made of decimal digits and hyphens only. *)
Fixpoint plain (s : string) : bool :=
  match s with
  | EmptyString => true
  | String c s' => (is_digit c || (c =? "-")%char) && plain s'
  end.

(** [baseIdGroups[b]], or the fresh group created for a new key. *)
Definition groupAt (o : jsobj group) (b : string) : group :=
  match obj_get o b with
  | Some g => g
  | None => mkGroup [] []
  end.

(** Strings in which the character [ch] does not occur. *)
Fixpoint lacks (ch : ascii) (s : string) : bool :=
  match s with
  | EmptyString => true
  | String c s' => negb (c =? ch)%char && lacks ch s'
  end.

(** The number of nodes named [k] in a list. *)
Definition countId (k : string) (l : list Node.t) : nat :=
  List.length (filter (fun n => (Node.id n =? k)%string) l).

(** Where an edge of the main loop of [buildEdges] comes from: it is the
    edge from the request to the route; or it enters an event by the rule
    of that event, from the preceding node when the event is a trigger; or
    it leaves an event that is no trigger towards the event that follows
    it. *)
Definition explained (events : list Event.t) (tb : tables) (e : Edge.t)
  : Prop :=
  e = Edge.mk "request" "route"
  \/ (exists ev, In ev events
                 /\ Edge.target e = Event.objectId ev
                 /\ (isViolation ev = true ->
                     Edge.source e = prevNodeId events tb (Event.objectId ev)))
  \/ (exists ev, In ev events
                 /\ isViolation ev = false
                 /\ Edge.source e = Event.objectId ev
                 /\ nextNodeId events tb (Event.objectId ev)
                    = Some (Edge.target e)).


(** Event lists as the parser returns them when the identifiers are
    unique: no id is repeated and none is [__proto__]. *)
Definition uniqueIds (events : list Event.t) : Prop :=
  NoDup (map Event.objectId events)
  /\ Forall (fun e => Event.objectId e <> "__proto__") events.

(** *** The renaming rule of the identifier pre-processing *)

(** The ids of the event elements before the renaming: the attribute, or
    the id made from the index. *)
Definition idsFrom (n : nat) (l : list xml) : list string :=
  map (fun ie => objectIdOf (snd ie) (fst ie))
      (combine (seq n (List.length l)) l).

Definition rawIds (l : list xml) : list string := idsFrom 0 l.

(** The number of occurrences of [d] in [ids]. *)
Definition occurrences (d : string) (ids : list string) : nat :=
  List.length (filter (String.eqb d) ids).

(** The indices, counted from [n], at which [d] occurs in [ids]. *)
Fixpoint indicesFrom (n : nat) (d : string) (ids : list string) : list nat :=
  match ids with
  | [] => []
  | x :: r =>
      if (x =? d)%string then n :: indicesFrom (S n) d r
      else indicesFrom (S n) d r
  end.

(** The id that the renaming rule gives to the event at index [i]: its own
    id for a first occurrence, the id followed by a hyphen and the number
    of earlier occurrences otherwise. *)
Definition renamedId (ids : list string) (i : nat) : string :=
  match nth_error ids i with
  | Some d =>
      match occurrences d (firstn i ids) with
      | O => d
      | S k => (d ++ "-" ++ string_of_nat (S k))%string
      end
  | None => ""
  end.

(** No id made by the renaming rule is already in use. *)
Definition freshRenames (ids : list string) : Prop :=
  forall d k, 1 <= k -> k < occurrences d ids ->
              ~ In (d ++ "-" ++ string_of_nat k)%string ids.

(** The entry of a dictionary of lists after the elements [l] have been
    pushed under the key. *)
Definition extend {A : Type} (o : option (list A)) (l : list A)
  : option (list A) :=
  match o, l with
  | None, [] => None
  | None, _ => Some l
  | Some l0, _ => Some (l0 ++ l)
  end.

(** The two dictionaries of the pre-processing agree. *)
Definition consistent (st : dedup) : Prop :=
  forall d, obj_get (objectIdCounts st) d
            = option_map (@List.length nat) (obj_get (objectIdPositions st) d).

(** The current id of the element at index [i]. *)
Definition currentId (els : list xml) (i : nat) : option string :=
  option_map (fun el => objectIdOf el i) (nth_error els i).

Definition isElem (x : xml) : bool :=
  match x with
  | Elem _ _ _ => true
  | Text _ => false
  end.

(** The state of the renaming loop once the ids in [done] have been
    processed: every element is an element node, the recorded positions of
    the original ids are untouched, and the ids of the events named by a
    processed id follow the renaming rule, the others being unchanged. *)
Definition renamingInv (ids0 done : list string) (st : dedup) : Prop :=
  Forall (fun el => isElem el = true) (allEvents st)
  /\ (forall d, In d ids0 ->
                obj_get (objectIdPositions st) d = Some (indicesFrom 0 d ids0))
  /\ (forall i d, nth_error ids0 i = Some d ->
                  currentId (allEvents st) i
                  = Some (if mem d done then renamedId ids0 i else d)).


(** The event elements that [extractEvents] collects, in the order that
    its sort gives them. *)
Definition sortedElements (eventsElement : xml) : list xml :=
  sort_by timeKey
    (getElementsByTagName eventsElement "propagation-event"
     ++ getElementsByTagName eventsElement "method-event"
     ++ getElementsByTagName eventsElement "tag-event").

(** [s.endsWith(suffix)]. *)
Fixpoint endsWith (s suffix : string) : bool :=
  (s =? suffix)%string
  || match s with
     | EmptyString => false
     | String _ s' => endsWith s' suffix
     end.

(** Ids that have the form of the id of a collapsed group. *)
Definition isGroupId (k : string) : bool := endsWith k "-group".

(** What the second loop of the highlighting appends for the characters
    [chars] themselves. *)
Definition emitted (emit : ascii -> string) (chars : list ascii) : string :=
  fold_right (fun c acc => (emit c ++ acc)%string) "" chars.

(** The range text [start:end]. *)
Definition rangeText (start stop : nat) : string :=
  (string_of_nat start ++ ":" ++ string_of_nat stop)%string.

End Vocabulary.

(** * Properties *)

Import Js Dom TraceParser Vocabulary.

(** ** Sanity checks of the built-ins *)

Example atob_hello : atob "aGVsbG8=" = Some "hello".
Proof. reflexivity. Qed.

Example atob_rejects_markup : atob "<b>" = None.
Proof. reflexivity. Qed.

Example obj_keys_order :
  obj_keys [("b", 1); ("42", 2); ("a-1", 3); ("7", 4); ("007", 5)]
  = ["7"; "42"; "b"; "a-1"; "007"].
Proof. reflexivity. Qed.

Example match_base_cases :
  (match_base "42", match_base "42-1", match_base "42-",
   match_base "event-3", match_base "7-group", match_base "")
  = (Some "42", Some "42", None, None, None, None).
Proof. reflexivity. Qed.

Example parseInt_cases :
  (parseInt " 12ab", parseInt "-7", parseInt "x", parseInt "0x1f", parseInt "")
  = (Some 12%Z, Some (-7)%Z, None, Some 31%Z, None).
Proof. reflexivity. Qed.

(** ** The parser: structural errors *)

Section StructuralErrors.

Lemma extractTraceData_lacking (xmlDoc : xml) :
  lacksStructure xmlDoc ->
  exists message, extractTraceData xmlDoc = errorTraceData message.
Proof.
  unfold lacksStructure, extractTraceData.
  destruct (doc_getElementsByTagName xmlDoc "finding") as [|f fs].
  - intros _. eexists. reflexivity.
  - destruct (getElementsByTagName f "request") as [|r rs].
    + intros _. eexists. reflexivity.
    + intros [H|H]; [discriminate|]. rewrite H. eexists. reflexivity.
Qed.

(** C3 (as amended): when the finding element, or the request or events
    element below it, is absent, the parse does not fail: [extractTraceData]
    catches its own error and returns a placeholder trace with no event, no
    edge and the single node "error"; nothing is thrown to the caller. *)
Theorem missing_structure_yields_placeholder (xmlDoc : xml) :
  lacksStructure xmlDoc ->
  doc_getElementsByTagName xmlDoc "parsererror" = [] ->
  exists message,
    parseXmlContent xmlDoc = Returned (errorTraceData message)
    /\ TraceData.events (errorTraceData message) = []
    /\ map Node.id (TraceData.nodes (errorTraceData message)) = ["error"]
    /\ TraceData.edges (errorTraceData message) = []
    /\ VulnerabilityInfo.title (TraceData.vulnerabilityInfo (errorTraceData message))
       = ("Error: " ++ message)%string.
Proof.
  intros Hl Hp. destruct (extractTraceData_lacking xmlDoc Hl) as [m Hm].
  exists m. unfold parseXmlContent. rewrite Hp, Hm. repeat split.
Qed.

Lemma missing_structure_yields_placeholder_witness :
  lacksStructure Samples.noEvents
  /\ exists message,
       parseXmlContent Samples.noEvents = Returned (errorTraceData message)
       /\ TraceData.events (errorTraceData message) = []
       /\ map Node.id (TraceData.nodes (errorTraceData message)) = ["error"]
       /\ TraceData.edges (errorTraceData message) = []
       /\ VulnerabilityInfo.title (TraceData.vulnerabilityInfo (errorTraceData message))
          = ("Error: " ++ message)%string.
Proof.
  split.
  - right. reflexivity.
  - apply (missing_structure_yields_placeholder Samples.noEvents).
    + right. reflexivity.
    + reflexivity.
Defined.

(** C3 (as stated) fails: a document without finding element is parsed
    without any error being thrown, and a node collection is returned. *)
Lemma missing_finding_not_thrown :
  lacksStructure Samples.noFinding
  /\ (forall message, parseXmlContent Samples.noFinding <> Thrown message)
  /\ exists t, parseXmlContent Samples.noFinding = Returned t
               /\ TraceData.nodes t <> [].
Proof.
  split; [exact I|]. split.
  - intros m H. discriminate H.
  - eexists. split; [reflexivity|]. discriminate.
Qed.

End StructuralErrors.

(** ** The parser: payload decoding *)

Section Decoding.

Lemma atob_empty : atob "" = Some "".
Proof. reflexivity. Qed.





Lemma length_insert_by {A : Type} (key : A -> Z) (x : A) (l : list A) :
  List.length (insert_by key x l) = S (List.length l).
Proof.
  induction l as [|y l IH]; simpl; [reflexivity|].
  destruct (key x <=? key y)%Z; simpl; [reflexivity|]. now rewrite IH.
Qed.

Lemma length_sort_by {A : Type} (key : A -> Z) (l : list A) :
  List.length (sort_by key l) = List.length l.
Proof.
  induction l as [|x l IH]; simpl; [reflexivity|].
  now rewrite length_insert_by, IH.
Qed.

Lemma length_update_nth {A : Type} (f : A -> A) (l : list A) (n : nat) :
  List.length (update_nth n f l) = List.length l.
Proof.
  revert n. induction l as [|x l IH]; intros [|n]; simpl; auto.
Qed.

Lemma nth_error_update_nth {A : Type} (f : A -> A) (l : list A) (pos i : nat) :
  nth_error (update_nth pos f l) i
  = if (i =? pos)%nat then option_map f (nth_error l i) else nth_error l i.
Proof.
  revert pos i. induction l as [|x l IH]; intros pos i.
  - destruct pos, i; simpl; try reflexivity. now destruct (i =? pos)%nat.
  - destruct pos as [|pos], i as [|i]; simpl; try reflexivity. apply IH.
Qed.

Lemma length_indexed {A : Type} (l : list A) :
  List.length (indexed l) = List.length l.
Proof.
  unfold indexed. rewrite length_combine, length_seq. apply Nat.min_id.
Qed.

(** The pre-processing of the identifiers keeps the number of elements. *)
Lemma scan_events_allEvents (l : list (nat * xml)) (st : option dedup) (st' : dedup) :
  fold_left scan_event l st = Some st' ->
  exists st0, st = Some st0 /\ allEvents st' = allEvents st0.
Proof.
  revert st. induction l as [|[i el] l IH]; simpl; intros st H.
  - exists st'. split; [exact H|reflexivity].
  - apply IH in H as [st1 [H1 H2]]. destruct st as [st0|]; [|discriminate H1].
    exists st0. split; [reflexivity|]. rewrite H2. simpl in H1.
    destruct (obj_get (objectIdCounts st0) (objectIdOf el i)) as [c|].
    + destruct (obj_get (objectIdPositions st0) (objectIdOf el i)); [|discriminate H1].
      injection H1 as <-. reflexivity.
    + destruct (proto_key (objectIdOf el i)); [discriminate H1|].
      injection H1 as <-. reflexivity.
Qed.

Lemma rename_length (d : string) (l : list (nat * nat)) (st : dedup) :
  List.length (allEvents (fold_left (rename_one d) l st)) = List.length (allEvents st).
Proof.
  revert st. induction l as [|[i pos] l IH]; simpl; intros st; [reflexivity|].
  rewrite IH. simpl. apply length_update_nth.
Qed.

Lemma fix_duplicates_length (ds : list string) (st : option dedup) (st' : dedup) :
  fold_left fix_duplicate ds st = Some st' ->
  exists st0, st = Some st0 /\ List.length (allEvents st') = List.length (allEvents st0).
Proof.
  revert st. induction ds as [|d ds IH]; simpl; intros st H.
  - exists st'. split; [exact H|reflexivity].
  - apply IH in H as [st1 [H1 H2]]. destruct st as [st0|]; [|discriminate H1].
    exists st0. split; [reflexivity|]. rewrite H2. simpl in H1.
    destruct (obj_get (objectIdPositions st0) d) as [ps|]; [|discriminate H1].
    injection H1 as <-. apply rename_length.
Qed.

Lemma dedupObjectIds_length (sorted : list xml) (st : dedup) :
  dedupObjectIds sorted = Some st ->
  List.length (allEvents st) = List.length sorted.
Proof.
  unfold dedupObjectIds.
  destruct (fold_left scan_event (indexed sorted) (Some (mkDedup sorted [] [])))
    as [st1|] eqn:E1; [|discriminate].
  intros H. apply fix_duplicates_length in H as [st0 [H0 H1]].
  injection H0 as <-. rewrite H1.
  apply scan_events_allEvents in E1 as [st2 [H2 H3]].
  injection H2 as <-. rewrite H3. reflexivity.
Qed.

Lemma extractEvents_made (eventsElement : xml) (event : Event.t) :
  In event (extractEvents eventsElement) ->
  exists index eventEl, event = makeEvent (index, eventEl).
Proof.
  unfold extractEvents. destruct (dedupObjectIds _) as [st|]; [|intros []].
  intros H. apply in_map_iff in H as [[i el] [<- _]]. now exists i, el.
Qed.




End Decoding.

(** ** The parser: identifier pre-processing *)

Section Identifiers.

(** The scenario of the specification: two events with id 42. *)
Example dedup_42_42 :
  map Event.objectId (extractEvents Samples.ids_42_42) = ["42"; "42-1"].
Proof. reflexivity. Qed.

(** An id that names a property of [Object.prototype] makes the first pass
    throw; [extractEvents] then returns no event at all. *)
Example dedup_prototype_key :
  extractEvents (Samples.eventsOf [Samples.ev "toString" "P2O" []]) = [].
Proof. reflexivity. Qed.

(** C1 (violated by the code): for the ids 42, 42, 42-1 the renaming turns
    the second 42 into 42-1 without looking at the ids already in use, so
    two events of the returned list share the id 42-1. *)
Theorem dedup_leaves_collision :
  map Event.objectId (extractEvents Samples.ids_42_42_42d1)
  = ["42"; "42-1"; "42-1"]
  /\ ~ NoDup (map Event.objectId (extractEvents Samples.ids_42_42_42d1)).
Proof.
  split; [reflexivity|].
  change (map Event.objectId (extractEvents Samples.ids_42_42_42d1))
    with ["42"; "42-1"; "42-1"].
  intros H. inversion H as [|x l _ H1]. inversion H1 as [|y l' Hn _].
  apply Hn. left. reflexivity.
Qed.

(** C2 (violated by the code): for the ids 42, 42, 42-1, 42-1 the id 42-1
    occurs twice, but its second occurrence is not renamed to 42-1-1: the
    renaming of the second 42 has overwritten the recorded positions of
    42-1 before that id is processed. *)
Theorem dedup_skips_clobbered_id :
  map Event.objectId (extractEvents Samples.ids_42_42_42d1_42d1)
  = ["42"; "42-1"; "42-1"; "42-1"].
Proof. reflexivity. Qed.

End Identifiers.

(** ** Objects used as dictionaries *)

Section Objects.
Context {V : Type}.

Lemma obj_get_put_eq (o : jsobj V) (k : string) (v : V) :
  obj_get (obj_put o k v) k = Some v.
Proof.
  induction o as [|[k' v'] o IH]; simpl.
  - now rewrite String.eqb_refl.
  - destruct (String.eqb_spec k' k) as [->|Hne]; simpl.
    + now rewrite String.eqb_refl.
    + destruct (String.eqb_spec k' k); [contradiction|exact IH].
Qed.

Lemma obj_get_put_ne (o : jsobj V) (k k' : string) (v : V) :
  k <> k' -> obj_get (obj_put o k v) k' = obj_get o k'.
Proof.
  intros Hne. induction o as [|[k0 v0] o IH]; simpl.
  - destruct (String.eqb_spec k k'); [contradiction|reflexivity].
  - destruct (String.eqb_spec k0 k) as [->|Hk]; simpl.
    + destruct (String.eqb_spec k k'); [contradiction|reflexivity].
    + destruct (String.eqb_spec k0 k'); [reflexivity|exact IH].
Qed.

Lemma obj_get_set_ne (o : jsobj V) (k k' : string) (v : V) :
  k <> k' -> obj_get (obj_set o k v) k' = obj_get o k'.
Proof.
  intros Hne. unfold obj_set. destruct (k =? "__proto__")%string; [reflexivity|].
  now apply obj_get_put_ne.
Qed.

Lemma obj_get_set_eq (o : jsobj V) (k : string) (v : V) :
  k <> "__proto__" -> obj_get (obj_set o k v) k = Some v.
Proof.
  intros Hne. unfold obj_set.
  destruct (String.eqb_spec k "__proto__"); [contradiction|].
  apply obj_get_put_eq.
Qed.

End Objects.

(** ** The graph builder: edges *)

Section Edges.

Lemma Edge_eqb_eq (a b : Edge.t) : Edge.eqb a b = true <-> a = b.
Proof.
  destruct a as [s t], b as [s' t']. unfold Edge.eqb. simpl.
  rewrite andb_true_iff, !String.eqb_eq. split.
  - intros [-> ->]. reflexivity.
  - intros H. injection H as -> ->. split; reflexivity.
Qed.

Lemma existsb_Edge_eqb (e : Edge.t) (l : list Edge.t) :
  existsb (Edge.eqb e) l = true <-> In e l.
Proof.
  rewrite existsb_exists. split.
  - intros [x [Hx He]]. apply Edge_eqb_eq in He. now subst.
  - intros H. exists e. split; [exact H|]. now apply Edge_eqb_eq.
Qed.

Lemma mem_In (k : string) (l : list string) : mem k l = true <-> In k l.
Proof.
  unfold mem. rewrite existsb_exists. split.
  - intros [x [Hx He]]. apply String.eqb_eq in He. now subst.
  - intros H. exists k. split; [exact H|apply String.eqb_refl].
Qed.

Lemma In_insert_by {A : Type} (key : A -> Z) (x y : A) (l : list A) :
  In y (insert_by key x l) <-> y = x \/ In y l.
Proof.
  induction l as [|z l IH]; simpl.
  - split; intros [H|H]; auto; try contradiction.
  - destruct (key x <=? key z)%Z; simpl; [|rewrite IH]; intuition.
Qed.

Lemma In_sort_by {A : Type} (key : A -> Z) (y : A) (l : list A) :
  In y (sort_by key l) <-> In y l.
Proof.
  induction l as [|x l IH]; simpl; [reflexivity|].
  rewrite In_insert_by, IH. intuition.
Qed.

(** *** The hard-wired edge between the groups 853 and 951 *)

Lemma specialEdge_mono (edges : list Edge.t) (event : Event.t) (e : Edge.t) :
  In e edges -> In e (specialEdge edges event).
Proof.
  intros H. unfold specialEdge.
  destruct (_ && _); [|exact H].
  destruct (existsb _ _); [exact H|]. apply in_or_app. now left.
Qed.

Lemma fold_specialEdge_mono (events : list Event.t) (edges : list Edge.t) (e : Edge.t) :
  In e edges -> In e (fold_left specialEdge events edges).
Proof.
  revert edges. induction events as [|ev events IH]; simpl; intros edges H.
  - exact H.
  - apply IH. now apply specialEdge_mono.
Qed.

Lemma specialEdge_adds (edges : list Edge.t) (event : Event.t) :
  includes (Event.objectId event) "951" = true ->
  existsb (fun id => includes id "853") (Event.parentObjectIds event) = true ->
  In edge853_951 (specialEdge edges event).
Proof.
  intros H1 H2. unfold specialEdge. rewrite H1, H2. simpl.
  destruct (existsb (Edge.eqb edge853_951) edges) eqn:E.
  - now apply existsb_Edge_eqb.
  - apply in_or_app. right. now left.
Qed.

Lemma fold_specialEdge_adds (events : list Event.t) (edges : list Edge.t)
      (event : Event.t) :
  In event events ->
  includes (Event.objectId event) "951" = true ->
  existsb (fun id => includes id "853") (Event.parentObjectIds event) = true ->
  In edge853_951 (fold_left specialEdge events edges).
Proof.
  revert edges. induction events as [|ev events IH]; simpl; intros edges Hin H1 H2.
  - contradiction.
  - destruct Hin as [->|Hin].
    + apply fold_specialEdge_mono. now apply specialEdge_adds.
    + now apply IH.
Qed.

End Edges.

Section SpecialEdge.
Import GraphRenderer.

(** C10: as soon as some event whose id contains 951 lists a parent id
    containing 853, [buildEdges] returns the edge from 853-group to
    951-group, whatever the nodes are; for the one-event trace
    [Samples.link853_951] neither end point of that edge is the id of a
    returned node.  In the grouping pass the edge is new only when both
    group nodes are among the new nodes. *)
Theorem special_edge_is_unconditional :
  (forall events event p,
      In event events ->
      includes (Event.objectId event) "951" = true ->
      In p (Event.parentObjectIds event) ->
      includes p "853" = true ->
      In edge853_951 (buildEdges events))
  /\ (let events := Samples.eventsIn Samples.link853_951 in
      In edge853_951 (buildEdges events)
      /\ ~ In "853-group" (map Node.id (buildNodes events))
      /\ ~ In "951-group" (map Node.id (buildNodes events)))
  /\ (forall nodes edges,
        In edge853_951 (snd (groupSimilarNodes nodes edges)) ->
        In edge853_951 (uniqueEdgesOf edges (changesOf nodes edges))
        \/ (hasId (fst (groupSimilarNodes nodes edges)) "853-group" = true
            /\ hasId (fst (groupSimilarNodes nodes edges)) "951-group" = true)).
Proof.
  split; [|split].
  - intros events event p Hin H951 Hp H853. unfold buildEdges.
    apply (fold_specialEdge_adds _ _ event Hin H951).
    apply existsb_exists. exists p. split; assumption.
  - vm_compute. split; [right; left; reflexivity|].
    split; intros H; repeat (destruct H as [H|H]; [discriminate H|]); exact H.
  - intros nodes edges. unfold groupSimilarNodes, specialFix. simpl.
    destruct (hasId _ "853-group"); simpl; [|now left].
    destruct (hasId _ "951-group"); simpl; [|now left].
    intros _. right. split; reflexivity.
Qed.

Lemma special_edge_is_unconditional_witness :
  In edge853_951
     (buildEdges [Event.mk "951" "0" "P2O" false false false "" [] ["853-1"] None None]).
Proof.
  apply (proj1 special_edge_is_unconditional _
               (Event.mk "951" "0" "P2O" false false false "" [] ["853-1"] None None)
               "853-1").
  - left. reflexivity.
  - reflexivity.
  - left. reflexivity.
  - reflexivity.
Defined.

End SpecialEdge.

(** ** The graph builder: incoming edges *)

Section Connectivity.

Lemma processEvent_edges_mono events tb sorted srcs st event (e : Edge.t) :
  In e (edges st) -> In e (edges (processEvent events tb sorted srcs st event)).
Proof.
  intros H. unfold processEvent.
  destruct (isViolation event); simpl; [apply in_or_app; now left|].
  destruct (Event.parentObjectIds event); simpl.
  - destruct (isSource event); simpl; [apply in_or_app; now left|].
    destruct (mem _ _); simpl; [apply in_or_app; now left|].
    destruct (_ && _); simpl; exact H.
  - apply in_or_app; now left.
Qed.




(** Every edge pushed for a parent id points to the event. *)
Lemma parentEdges_target tb event parentId (e : Edge.t) :
  In e (parentEdges tb event parentId) -> Edge.target e = Event.objectId event.
Proof.
  unfold parentEdges. cbv zeta.
  destruct (match_base parentId) as [b|];
    repeat match goal with
           | |- context [if ?c then _ else _] => destruct c
           end;
    simpl; intros H; repeat (destruct H as [H|H]); subst; simpl;
    try reflexivity; try contradiction.
Qed.




(** *** The lookup table [eventMap] *)

Lemma eventMap_index_event tb ie :
  eventMap (index_event tb ie)
  = obj_set (eventMap tb) (Event.objectId (snd ie)) true.
Proof.
  destruct ie as [i ev]. unfold index_event. simpl.
  destruct (match_base _); [reflexivity|].
  destruct (startsWith _ _); reflexivity.
Qed.

Lemma eventMap_no_proto l tb :
  obj_get (eventMap tb) "__proto__" = None ->
  obj_get (eventMap (fold_left index_event l tb)) "__proto__" = None.
Proof.
  revert tb. induction l as [|ie l IH]; simpl; intros tb H; [exact H|].
  apply IH. rewrite eventMap_index_event. unfold obj_set.
  destruct (String.eqb_spec (Event.objectId (snd ie)) "__proto__") as [E|E]; [exact H|].
  rewrite obj_get_put_ne; [exact H|exact E].
Qed.





End Connectivity.

Section ConnectivityClaim.
Import GraphRenderer.





End ConnectivityClaim.

(** ** Identifiers of the form digits, or digits-digits *)

Section BaseIds.

Lemma span_digits_spec (s d r : string) :
  span_digits s = (d, r) -> s = (d ++ r)%string /\ all_digits d = true.
Proof.
  revert d r. induction s as [|c s IH]; simpl; intros d r H.
  - injection H as <- <-. split; reflexivity.
  - destruct (is_digit c) eqn:Ec.
    + destruct (span_digits s) as [d0 r0]. injection H as <- <-.
      destruct (IH d0 r0 eq_refl) as [-> Hd]. simpl. rewrite Ec, Hd.
      split; reflexivity.
    + injection H as <- <-. split; reflexivity.
Qed.

Lemma match_base_spec (s d : string) :
  match_base s = Some d ->
  d <> "" /\ all_digits d = true
  /\ (s = d \/ exists r, r <> "" /\ all_digits r = true /\ s = (d ++ "-" ++ r)%string).
Proof.
  unfold match_base. destruct (span_digits s) as [d0 r0] eqn:E.
  apply span_digits_spec in E as [-> Hd].
  destruct d0 as [|c d0]; [discriminate|].
  destruct r0 as [|c' r'].
  - intros H. injection H as <-. split; [discriminate|]. split; [exact Hd|].
    left. clear. generalize (String c d0). intros s.
    induction s; simpl; [reflexivity|]. now rewrite IHs.
  - destruct (Ascii.eqb_spec c' "-"%char) as [->|]; simpl; [|discriminate].
    destruct (String.eqb_spec r' "") as [->|Hr]; simpl; [discriminate|].
    destruct (all_digits r') eqn:Er; [|discriminate].
    intros H. injection H as <-. split; [discriminate|]. split; [exact Hd|].
    right. exists r'. repeat split; assumption.
Qed.

Lemma all_digits_plain (s : string) : all_digits s = true -> plain s = true.
Proof.
  induction s as [|c s IH]; simpl; [reflexivity|].
  intros H. apply andb_true_iff in H as [-> H]. simpl. now apply IH.
Qed.

Lemma plain_app (a b : string) :
  plain (a ++ b) = plain a && plain b.
Proof.
  induction a as [|c a IH]; simpl; [reflexivity|].
  rewrite IH. now rewrite andb_assoc.
Qed.

Lemma match_base_plain (s d : string) : match_base s = Some d -> plain s = true.
Proof.
  intros H. apply match_base_spec in H as [_ [Hd [->|[r [_ [Hr ->]]]]]].
  - now apply all_digits_plain.
  - rewrite !plain_app, (all_digits_plain _ Hd), (all_digits_plain _ Hr).
    reflexivity.
Qed.

Lemma group_id_not_plain (b : string) : plain (b ++ "-group") = false.
Proof. rewrite plain_app. simpl. apply andb_false_r. Qed.

Lemma match_base_group_id (b : string) : match_base (b ++ "-group") = None.
Proof.
  destruct (match_base (b ++ "-group")) as [d|] eqn:E; [|reflexivity].
  apply match_base_plain in E. rewrite group_id_not_plain in E. discriminate.
Qed.

Lemma match_base_not_proto (s d : string) :
  match_base s = Some d -> d <> "__proto__".
Proof.
  intros H. apply match_base_spec in H as [_ [Hd _]].
  intros ->. discriminate Hd.
Qed.

Lemma append_group_inj (a b : string) :
  (a ++ "-group")%string = (b ++ "-group")%string -> a = b.
Proof.
  revert b. induction a as [|c a IH]; intros [|c' b]; simpl; intros H.
  - reflexivity.
  - exfalso. injection H as Hc H. subst c'.
    destruct b as [|c2 b]; simpl in H; [discriminate H|].
    injection H as Hc H. subst c2.
    destruct b as [|c3 b]; simpl in H; [discriminate H|].
    injection H as Hc H. subst c3.
    destruct b as [|c4 b]; simpl in H; [discriminate H|].
    injection H as Hc H. subst c4.
    destruct b as [|c5 b]; simpl in H; [discriminate H|].
    injection H as Hc H. subst c5.
    destruct b as [|c6 b]; simpl in H; [discriminate H|].
    injection H as Hc H. subst c6.
    destruct b as [|c7 b]; simpl in H; discriminate H.
  - exfalso. injection H as Hc H. subst c.
    destruct a as [|c2 a]; simpl in H; [discriminate H|].
    injection H as Hc H. subst c2.
    destruct a as [|c3 a]; simpl in H; [discriminate H|].
    injection H as Hc H. subst c3.
    destruct a as [|c4 a]; simpl in H; [discriminate H|].
    injection H as Hc H. subst c4.
    destruct a as [|c5 a]; simpl in H; [discriminate H|].
    injection H as Hc H. subst c5.
    destruct a as [|c6 a]; simpl in H; [discriminate H|].
    injection H as Hc H. subst c6.
    destruct a as [|c7 a]; simpl in H; discriminate H.
  - injection H as -> H. f_equal. now apply IH.
Qed.

End BaseIds.

(** ** The grouping pass: duplicate edges *)

Section EdgeDedup.
Import GraphRenderer.

Lemma NoDup_snoc {A : Type} (l : list A) (x : A) :
  NoDup l -> ~ In x l -> NoDup (l ++ [x]).
Proof.
  induction l as [|y l IH]; simpl; intros Hn Hx.
  - constructor; [intros []|constructor].
  - inversion Hn as [|? ? Hy Hl]; subst. constructor.
    + intros H. apply in_app_or in H as [H|[H|[]]]; [contradiction|].
      apply Hx. left. symmetry. exact H.
    + apply IH; [exact Hl|]. intros H. apply Hx. now right.
Qed.

Lemma uniqueFrom_NoDup (l : list Edge.t) (seen : list string) (acc : list Edge.t) :
  NoDup acc ->
  (forall e, In e acc -> In (edgeKey e) seen) ->
  NoDup (uniqueFrom seen acc l).
Proof.
  revert seen acc. induction l as [|edge l IH]; simpl; intros seen acc Hn Hs.
  - exact Hn.
  - destruct (mem (edgeKey edge) seen) eqn:E.
    + now apply IH.
    + apply IH.
      * apply NoDup_snoc; [exact Hn|]. intros H. apply Hs in H.
        apply mem_In in H. rewrite H in E. discriminate.
      * intros e H. apply in_app_or in H as [H|[<-|[]]].
        -- right. now apply Hs.
        -- left. reflexivity.
Qed.

Lemma uniqueEdgesOf_NoDup (edges : list Edge.t) (ch : changes) :
  NoDup (uniqueEdgesOf edges ch).
Proof.
  unfold uniqueEdgesOf. apply uniqueFrom_NoDup; [constructor|intros e []].
Qed.

Lemma specialFix_NoDup (newNodes : list Node.t) (uniqueEdges : list Edge.t) :
  NoDup uniqueEdges -> NoDup (specialFix newNodes uniqueEdges).
Proof.
  intros Hn. unfold specialFix.
  destruct (hasId newNodes "853-group" && hasId newNodes "951-group"); simpl;
    [|exact Hn].
  destruct (existsb (Edge.eqb edge853_951) uniqueEdges) eqn:E; simpl; [exact Hn|].
  apply NoDup_snoc; [exact Hn|]. intros H.
  apply existsb_Edge_eqb in H. rewrite H in E. discriminate.
Qed.

(** C6: whatever the node and edge lists produced by [buildNodes] and
    [buildEdges] are, the edge list that [groupSimilarNodes], the last step
    of graph building, hands to the layout has no pair (source, target)
    twice; in particular this holds for the graph built from any list of
    events. *)
Theorem built_graph_has_no_duplicate_edge :
  (forall nodes edges, NoDup (snd (groupSimilarNodes nodes edges)))
  /\ (forall events,
        NoDup (snd (groupSimilarNodes (buildNodes events) (buildEdges events)))).
Proof.
  assert (H : forall nodes edges, NoDup (snd (groupSimilarNodes nodes edges))).
  { intros nodes edges. unfold groupSimilarNodes. simpl.
    apply specialFix_NoDup, uniqueEdgesOf_NoDup. }
  split; [exact H|]. intros events. apply H.
Qed.

(** The list returned by [buildEdges] itself may hold a pair twice: an
    event without id followed by a trigger is linked to it once by its own
    rule and once by the rule of the trigger. *)
Example buildEdges_may_repeat_a_pair :
  let events :=
    Samples.eventsIn (Samples.trace [Samples.ev "" "P2O" []; Samples.ev "9" "Trigger" []]) in
  buildEdges events
  = [Edge.mk "request" "route"; Edge.mk "route" "event-0";
     Edge.mk "event-0" "9"; Edge.mk "event-0" "9"]
  /\ snd (groupSimilarNodes (buildNodes events) (buildEdges events))
     = [Edge.mk "request" "route"; Edge.mk "route" "event-0"; Edge.mk "event-0" "9"].
Proof. split; reflexivity. Qed.

End EdgeDedup.

(** ** The grouping pass: collapsed groups *)

Section Grouping.
Import GraphRenderer.

Lemma base_is_true (o : option string) (b : string) :
  base_is o b = true <-> o = Some b.
Proof.
  destruct o as [d|]; simpl.
  - rewrite String.eqb_eq. split; [intros ->; reflexivity|intros H; now injection H].
  - split; discriminate.
Qed.

(** *** Step 1: [baseIdGroups] holds, for every object, its source nodes and
    its other nodes in the order of the node list *)

Lemma classify_same (o : jsobj group) (node : Node.t) (b : string) :
  match_base (Node.id node) = Some b ->
  obj_get (classify o node) b
  = Some (if isSourceNode node
          then mkGroup (sources (groupAt o b) ++ [tagged b node]) (others (groupAt o b))
          else mkGroup (sources (groupAt o b)) (others (groupAt o b) ++ [tagged b node])).
Proof.
  intros H. unfold classify, groupAt. rewrite H.
  rewrite obj_get_set_eq; [reflexivity|]. now apply (match_base_not_proto _ _ H).
Qed.

Lemma classify_other (o : jsobj group) (node : Node.t) (b : string) :
  match_base (Node.id node) <> Some b ->
  obj_get (classify o node) b = obj_get o b.
Proof.
  intros H. unfold classify.
  destruct (match_base (Node.id node)) as [d|]; [|reflexivity].
  apply obj_get_set_ne. intros ->. now apply H.
Qed.

Lemma fold_classify_get (nodes : list Node.t) (o : jsobj group) (b : string) :
  obj_get o b <> None
  \/ (exists n, In n nodes /\ match_base (Node.id n) = Some b) ->
  obj_get (fold_left classify nodes o) b
  = Some (mkGroup
            (sources (groupAt o b) ++ map (tagged b) (sourcesOf nodes b))
            (others (groupAt o b) ++ map (tagged b) (membersOf nodes b))).
Proof.
  revert o. induction nodes as [|n nodes IH]; intros o H.
  - simpl. destruct H as [H|[n [[] _]]].
    unfold groupAt. destruct (obj_get o b) as [g|]; [|contradiction].
    rewrite !app_nil_r. now destruct g.
  - simpl fold_left. unfold sourcesOf, membersOf. simpl filter.
    fold (sourcesOf nodes b). fold (membersOf nodes b).
    destruct (base_is (match_base (Node.id n)) b) eqn:Eb.
    + apply base_is_true in Eb.
      rewrite IH by (left; rewrite (classify_same _ _ _ Eb); discriminate).
      unfold groupAt at 1 2. rewrite (classify_same _ _ _ Eb).
      destruct (isSourceNode n); simpl; now rewrite <- !app_assoc.
    + assert (Hn : match_base (Node.id n) <> Some b).
      { intros E. apply base_is_true in E. rewrite E in Eb. discriminate. }
      simpl. rewrite IH.
      * unfold groupAt. now rewrite (classify_other _ _ _ Hn).
      * rewrite (classify_other _ _ _ Hn).
        destruct H as [H|[n' [[<-|Hin] Hb]]]; [now left|contradiction|].
        right. now exists n'.
Qed.

Lemma baseIdGroupsOf_get (nodes : list Node.t) (b : string) (n : Node.t) :
  In n nodes -> match_base (Node.id n) = Some b ->
  obj_get (baseIdGroupsOf nodes) b
  = Some (mkGroup (map (tagged b) (sourcesOf nodes b))
                  (map (tagged b) (membersOf nodes b))).
Proof.
  intros Hin Hb. unfold baseIdGroupsOf.
  rewrite fold_classify_get by (right; now exists n). reflexivity.
Qed.

(** *** The keys of an object *)

Lemma obj_get_In_keys {V : Type} (o : jsobj V) (k : string) (v : V) :
  obj_get o k = Some v -> In k (map fst o).
Proof.
  induction o as [|[k' v'] o IH]; simpl; [discriminate|].
  destruct (String.eqb_spec k' k) as [->|]; [now left|]. intros H. right. now apply IH.
Qed.

Lemma obj_keys_In {V : Type} (o : jsobj V) (k : string) :
  In k (obj_keys o) <-> In k (map fst o).
Proof.
  unfold obj_keys. rewrite in_app_iff, In_sort_by, !filter_In.
  destruct (array_index k); intuition discriminate.
Qed.

Lemma In_keys_put {V : Type} (o : jsobj V) (k x : string) (v : V) :
  In x (map fst (obj_put o k v)) -> x = k \/ In x (map fst o).
Proof.
  induction o as [|[k' v'] o IH]; simpl.
  - intros [<-|[]]. now left.
  - destruct (String.eqb_spec k' k) as [->|]; simpl; intros [<-|H]; auto.
    destruct (IH H); auto.
Qed.

Lemma NoDup_keys_put {V : Type} (o : jsobj V) (k : string) (v : V) :
  NoDup (map fst o) -> NoDup (map fst (obj_put o k v)).
Proof.
  induction o as [|[k' v'] o IH]; simpl; intros Hn.
  - constructor; [intros []|constructor].
  - inversion Hn as [|? ? Hk Ho]; subst.
    destruct (String.eqb_spec k' k) as [->|Hne]; simpl.
    + constructor; assumption.
    + constructor; [|now apply IH].
      intros H. apply In_keys_put in H as [H|H]; [contradiction|contradiction].
Qed.

Lemma NoDup_keys_set {V : Type} (o : jsobj V) (k : string) (v : V) :
  NoDup (map fst o) -> NoDup (map fst (obj_set o k v)).
Proof.
  intros H. unfold obj_set. destruct (k =? "__proto__")%string; [exact H|].
  now apply NoDup_keys_put.
Qed.

Lemma NoDup_insert_by {A : Type} (key : A -> Z) (x : A) (l : list A) :
  NoDup l -> ~ In x l -> NoDup (insert_by key x l).
Proof.
  induction l as [|y l IH]; simpl; intros Hn Hx.
  - constructor; [intros []|constructor].
  - destruct (key x <=? key y)%Z.
    + constructor; assumption.
    + inversion Hn as [|? ? Hy Hl]; subst. constructor.
      * rewrite In_insert_by. intros [->|H]; [apply Hx; now left|contradiction].
      * apply IH; [exact Hl|]. intros H. apply Hx. now right.
Qed.

Lemma NoDup_sort_by {A : Type} (key : A -> Z) (l : list A) :
  NoDup l -> NoDup (sort_by key l).
Proof.
  induction l as [|x l IH]; simpl; intros Hn; [constructor|].
  inversion Hn as [|? ? Hx Hl]; subst.
  apply NoDup_insert_by; [now apply IH|]. now rewrite In_sort_by.
Qed.

Lemma NoDup_obj_keys {V : Type} (o : jsobj V) :
  NoDup (map fst o) -> NoDup (obj_keys o).
Proof.
  intros Hn. unfold obj_keys. apply NoDup_app.
  - apply NoDup_sort_by. now apply NoDup_filter.
  - now apply NoDup_filter.
  - intros k. rewrite In_sort_by, !filter_In. intros [_ H1] [_ H2].
    destruct (array_index k); discriminate.
Qed.

Lemma NoDup_baseIdGroups_keys (nodes : list Node.t) :
  NoDup (obj_keys (baseIdGroupsOf nodes)).
Proof.
  apply NoDup_obj_keys. unfold baseIdGroupsOf.
  assert (H : forall o : jsobj group,
             NoDup (map fst o) -> NoDup (map fst (fold_left classify nodes o))).
  { induction nodes as [|n nodes IH]; simpl; intros o Ho; [exact Ho|].
    apply IH. unfold classify. destruct (match_base (Node.id n)); [|exact Ho].
    now apply NoDup_keys_set. }
  apply H. constructor.
Qed.


(** *** Step 2: the work lists only grow, and the round of a collapsed
    group adds its representative, its members and its source edges *)

Lemma collapseGroup_mono (G : jsobj group) (edges : list Edge.t)
      (ch : changes) (b : string) :
  incl (nodesToRemove ch) (nodesToRemove (collapseGroup G edges ch b))
  /\ incl (nodesToAdd ch) (nodesToAdd (collapseGroup G edges ch b))
  /\ incl (newEdgesToAdd ch) (newEdgesToAdd (collapseGroup G edges ch b)).
Proof.
  unfold collapseGroup. destruct (obj_get G b) as [g|].
  - destruct (others g) as [|first [|second rest]]; simpl;
      repeat split; try apply incl_refl; apply incl_appl, incl_refl.
  - repeat split; apply incl_refl.
Qed.

Lemma fold_collapseGroup_mono (G : jsobj group) (edges : list Edge.t)
      (ks : list string) (ch : changes) :
  incl (nodesToRemove ch) (nodesToRemove (fold_left (collapseGroup G edges) ks ch))
  /\ incl (nodesToAdd ch) (nodesToAdd (fold_left (collapseGroup G edges) ks ch))
  /\ incl (newEdgesToAdd ch) (newEdgesToAdd (fold_left (collapseGroup G edges) ks ch)).
Proof.
  revert ch. induction ks as [|k ks IH]; simpl; intros ch.
  - repeat split; apply incl_refl.
  - destruct (IH (collapseGroup G edges ch k)) as [H1 [H2 H3]].
    destruct (collapseGroup_mono G edges ch k) as [M1 [M2 M3]].
    repeat split; eapply incl_tran; eassumption.
Qed.

Lemma fold_collapseGroup_at (G : jsobj group) (edges : list Edge.t)
      (ks : list string) (ch : changes) (b : string) (g : group)
      (first second : Node.t) (rest : list Node.t) :
  In b ks ->
  obj_get G b = Some g ->
  others g = first :: second :: rest ->
  let ch' := fold_left (collapseGroup G edges) ks ch in
  In (representativeNode b first (others g)) (nodesToAdd ch')
  /\ incl (map Node.id (others g)) (nodesToRemove ch')
  /\ incl (map (fun s => Edge.mk (Node.id s) (b ++ "-group")%string) (sources g))
          (newEdgesToAdd ch').
Proof.
  intros Hin Hg Ho. revert ch. induction ks as [|k ks IH]; simpl; intros ch.
  - contradiction.
  - destruct Hin as [->|Hin]; [|now apply IH].
    destruct (fold_collapseGroup_mono G edges ks (collapseGroup G edges ch b))
      as [M1 [M2 M3]].
    unfold collapseGroup in M1, M2, M3 |- *. rewrite Hg, Ho in *. rewrite <- Ho in *.
    simpl in M1, M2, M3. repeat split.
    + apply M2. apply in_or_app. right. left. reflexivity.
    + eapply incl_tran; [|exact M1]. apply incl_appr, incl_refl.
    + eapply incl_tran; [|exact M3]. apply incl_appr, incl_refl.
Qed.

(** Every node added by step 2 is named after a key. *)
Lemma fold_collapseGroup_added (G : jsobj group) (edges : list Edge.t)
      (ks : list string) (ch : changes) (n : Node.t) :
  In n (nodesToAdd (fold_left (collapseGroup G edges) ks ch)) ->
  In n (nodesToAdd ch) \/ exists k, Node.id n = (k ++ "-group")%string.
Proof.
  revert ch. induction ks as [|k ks IH]; simpl; intros ch H; [now left|].
  apply IH in H as [H|H]; [|now right].
  unfold collapseGroup in H. destruct (obj_get G k) as [g|]; [|now left].
  destruct (others g) as [|first [|second rest]]; simpl in H; try now left.
  apply in_app_or in H as [H|[<-|[]]]; [now left|]. right. now exists k.
Qed.

Lemma countId_app (k : string) (l l' : list Node.t) :
  countId k (l ++ l') = countId k l + countId k l'.
Proof. unfold countId. now rewrite filter_app, length_app. Qed.

Lemma collapseGroup_count_other (G : jsobj group) (edges : list Edge.t)
      (ch : changes) (k b : string) :
  k <> b ->
  countId (b ++ "-group") (nodesToAdd (collapseGroup G edges ch k))
  = countId (b ++ "-group") (nodesToAdd ch).
Proof.
  intros Hne. unfold collapseGroup. destruct (obj_get G k) as [g|]; [|reflexivity].
  destruct (others g) as [|first [|second rest]]; simpl; try reflexivity.
  rewrite countId_app. unfold countId at 2. simpl.
  destruct (String.eqb_spec (k ++ "-group") (b ++ "-group")) as [E|E].
  - apply append_group_inj in E. contradiction.
  - simpl. apply Nat.add_0_r.
Qed.

Lemma fold_collapseGroup_count_other (G : jsobj group) (edges : list Edge.t)
      (ks : list string) (ch : changes) (b : string) :
  ~ In b ks ->
  countId (b ++ "-group") (nodesToAdd (fold_left (collapseGroup G edges) ks ch))
  = countId (b ++ "-group") (nodesToAdd ch).
Proof.
  revert ch. induction ks as [|k ks IH]; simpl; intros ch Hn; [reflexivity|].
  rewrite IH by (intros H; apply Hn; now right).
  apply collapseGroup_count_other. intros ->. apply Hn. now left.
Qed.

Lemma fold_collapseGroup_count (G : jsobj group) (edges : list Edge.t)
      (ks : list string) (ch : changes) (b : string) (g : group)
      (first second : Node.t) (rest : list Node.t) :
  NoDup ks -> In b ks ->
  obj_get G b = Some g ->
  others g = first :: second :: rest ->
  countId (b ++ "-group") (nodesToAdd (fold_left (collapseGroup G edges) ks ch))
  = S (countId (b ++ "-group") (nodesToAdd ch)).
Proof.
  intros Hnd Hin Hg Ho. revert ch. induction ks as [|k ks IH]; simpl; intros ch.
  - contradiction.
  - inversion Hnd as [|? ? Hk Hks]; subst.
    destruct (String.eqb_spec k b) as [->|Hne].
    + rewrite fold_collapseGroup_count_other by exact Hk.
      unfold collapseGroup. rewrite Hg, Ho. simpl.
      rewrite countId_app. unfold countId at 2. simpl.
      rewrite String.eqb_refl. simpl. apply Nat.add_1_r.
    + destruct Hin as [E|Hin]; [contradiction|].
      rewrite (IH Hks Hin). f_equal. now apply collapseGroup_count_other.
Qed.

(** *** Step 3: edges that survive the duplicate filter *)

Lemma uniqueFrom_acc (l : list Edge.t) (seen : list string)
      (acc : list Edge.t) (e : Edge.t) :
  In e acc -> In e (uniqueFrom seen acc l).
Proof.
  revert seen acc. induction l as [|edge l IH]; simpl; intros seen acc H; [exact H|].
  destruct (mem (edgeKey edge) seen); apply IH; [exact H|].
  apply in_or_app. now left.
Qed.

Lemma uniqueFrom_keeps (l : list Edge.t) (seen : list string)
      (acc : list Edge.t) (e : Edge.t) :
  (forall e', edgeKey e' = edgeKey e -> e' = e) ->
  (forall k, In k seen -> exists e', In e' acc /\ edgeKey e' = k) ->
  In e l -> In e (uniqueFrom seen acc l).
Proof.
  intros Hinj. revert seen acc. induction l as [|edge l IH]; simpl;
    intros seen acc Hs Hin; [contradiction|].
  destruct (mem (edgeKey edge) seen) eqn:E.
  - destruct Hin as [->|Hin]; [|now apply IH].
    apply mem_In in E. apply Hs in E as [e' [He' Hk]].
    apply Hinj in Hk. subst e'. now apply uniqueFrom_acc.
  - destruct Hin as [->|Hin].
    + apply uniqueFrom_acc. apply in_or_app. right. now left.
    + apply IH; [|exact Hin]. intros k [<-|Hk].
      * exists edge. split; [apply in_or_app; right; now left|reflexivity].
      * apply Hs in Hk as [e' [He' Hk']]. exists e'.
        split; [apply in_or_app; now left|exact Hk'].
Qed.

Lemma lacks_app (ch : ascii) (a b : string) :
  lacks ch (a ++ b) = lacks ch a && lacks ch b.
Proof.
  induction a as [|c a IH]; simpl; [reflexivity|].
  rewrite IH. now rewrite andb_assoc.
Qed.

Lemma plain_nogt (s : string) : plain s = true -> lacks ">" s = true.
Proof.
  induction s as [|c s IH]; simpl; [reflexivity|].
  intros H. apply andb_true_iff in H as [Hc Hs]. rewrite (IH Hs), andb_true_r.
  destruct (Ascii.eqb_spec c ">"%char) as [->|]; [discriminate Hc|reflexivity].
Qed.

(** A key whose two halves have no greater-than sign determines its edge. *)
Lemma arrow_split (s t s' t' : string) :
  lacks ">" s = true -> lacks ">" t = true ->
  (s' ++ "->" ++ t')%string = (s ++ "->" ++ t)%string ->
  s' = s /\ t' = t.
Proof.
  revert s'. induction s as [|c s IH]; intros [|c' s']; simpl; intros Hs Ht H.
  - injection H as ->. split; reflexivity.
  - exfalso. injection H as -> H.
    destruct s' as [|c2 s']; simpl in H; [discriminate H|].
    injection H as -> H. rewrite <- H, lacks_app in Ht. simpl in Ht.
    rewrite andb_false_r in Ht. discriminate.
  - exfalso. injection H as <- H. apply andb_true_iff in Hs as [_ Hs].
    destruct s as [|c2 s]; simpl in H; [discriminate H|].
    injection H as <- H. simpl in Hs. discriminate.
  - injection H as -> H. apply andb_true_iff in Hs as [_ Hs].
    destruct (IH s' Hs Ht H) as [-> ->]. split; reflexivity.
Qed.

Lemma edgeKey_inj (s b : string) (e' : Edge.t) :
  plain s = true -> plain b = true ->
  edgeKey e' = edgeKey (Edge.mk s (b ++ "-group")) ->
  e' = Edge.mk s (b ++ "-group").
Proof.
  intros Hs Hb H. destruct e' as [s' t']. unfold edgeKey in H. simpl in H.
  apply arrow_split in H as [-> ->]; [reflexivity|now apply plain_nogt|].
  rewrite lacks_app, (plain_nogt _ Hb). reflexivity.
Qed.

Lemma specialFix_mono (newNodes : list Node.t) (uniqueEdges : list Edge.t)
      (e : Edge.t) :
  In e uniqueEdges -> In e (specialFix newNodes uniqueEdges).
Proof.
  intros H. unfold specialFix. destruct (_ && _); [|exact H].
  apply in_or_app. now left.
Qed.

Lemma existsb_tagged (b : string) (l : list Node.t) :
  existsb Node.isTriggerEvent (map (tagged b) l) = existsb Node.isTriggerEvent l.
Proof. induction l as [|n l IH]; simpl; [reflexivity|]. now rewrite IH. Qed.

Lemma map_id_tagged (b : string) (l : list Node.t) :
  map Node.id (map (tagged b) l) = map Node.id l.
Proof. rewrite map_map. reflexivity. Qed.

(** C8: when an object has more than one node that is no source node, the
    grouping pass adds exactly one node named after the object with the
    suffix -group; it is marked as a collapsed group, takes type, label and
    category from the first member, is a trigger exactly when some member
    is, and records the member ids; no member id names a node of the new
    node list; and every source node of the object has an edge to the
    group node in the new edge list, which holds no edge twice. *)
Theorem collapsed_group_is_replaced (nodes : list Node.t) (edges : list Edge.t)
        (baseId : string) (first : Node.t) :
  hd_error (membersOf nodes baseId) = Some first ->
  1 < List.length (membersOf nodes baseId) ->
  let newNodes := fst (groupSimilarNodes nodes edges) in
  let newEdges := snd (groupSimilarNodes nodes edges) in
  let groupId := (baseId ++ "-group")%string in
  (exists rep,
      In rep newNodes
      /\ Node.id rep = groupId
      /\ Node.isCollapsedGroup rep = true
      /\ Node.type rep = Node.type first
      /\ Node.label rep = Node.label first
      /\ Node.category rep = Node.category first
      /\ Node.isTriggerEvent rep
         = existsb Node.isTriggerEvent (membersOf nodes baseId)
      /\ Node.objectIds rep = map Node.id (membersOf nodes baseId))
  /\ countId groupId (nodesToAdd (changesOf nodes edges)) = 1
  /\ (forall m, In m (membersOf nodes baseId) ->
                ~ In (Node.id m) (map Node.id newNodes))
  /\ (forall s, In s (sourcesOf nodes baseId) ->
                In (Edge.mk (Node.id s) groupId) newEdges)
  /\ NoDup newEdges.
Proof.
  intros Hfirst Hlen newNodes newEdges groupId.
  destruct (membersOf nodes baseId) as [|first' [|second rest]] eqn:Em;
    simpl in Hfirst, Hlen; try lia.
  injection Hfirst as ->.
  assert (Hf : In first nodes /\ match_base (Node.id first) = Some baseId).
  { assert (H : In first (membersOf nodes baseId)) by (rewrite Em; now left).
    apply filter_In in H as [H1 H2]. apply andb_true_iff in H2 as [H2 _].
    split; [exact H1|now apply base_is_true]. }
  destruct Hf as [Hf1 Hf2].
  pose proof (baseIdGroupsOf_get nodes baseId first Hf1 Hf2) as HG.
  rewrite Em in HG.
  set (g := mkGroup (map (tagged baseId) (sourcesOf nodes baseId))
                    (map (tagged baseId) (first :: second :: rest))) in HG.
  assert (Hk : In baseId (obj_keys (baseIdGroupsOf nodes))).
  { apply obj_keys_In. eapply obj_get_In_keys. exact HG. }
  assert (Ho : others g = tagged baseId first :: tagged baseId second
                          :: map (tagged baseId) rest) by reflexivity.
  destruct (fold_collapseGroup_at (baseIdGroupsOf nodes) edges
              (obj_keys (baseIdGroupsOf nodes)) (mkChanges [] [] [] [])
              baseId g _ _ _ Hk HG Ho) as [Hrep [Hrem Hnew]].
  fold (changesOf nodes edges) in Hrep, Hrem, Hnew.
  assert (Hplain : plain baseId = true).
  { apply match_base_spec in Hf2 as [_ [Hd _]]. now apply all_digits_plain. }
  split; [|split; [|split; [|split]]].
  - exists (representativeNode baseId (tagged baseId first) (others g)).
    split.
    + unfold newNodes, groupSimilarNodes, newNodesOf. simpl.
      apply in_or_app. right. exact Hrep.
    + simpl. rewrite existsb_tagged, map_map. simpl.
      repeat split; reflexivity.
  - unfold changesOf.
    rewrite (fold_collapseGroup_count _ _ _ _ _ g _ _ _
               (NoDup_baseIdGroups_keys nodes) Hk HG Ho).
    reflexivity.
  - intros m Hm Hin.
    assert (Hmb : match_base (Node.id m) = Some baseId).
    { rewrite <- Em in Hm.
      apply filter_In in Hm as [_ H2]. apply andb_true_iff in H2 as [H2 _].
      now apply base_is_true. }
    assert (Hrm : In (Node.id m) (nodesToRemove (changesOf nodes edges))).
    { apply Hrem. simpl. rewrite map_id_tagged.
      change (In (Node.id m) (map Node.id (first :: second :: rest))).
      apply in_map. exact Hm. }
    apply in_map_iff in Hin as [n [Hid Hn]].
    unfold newNodes, groupSimilarNodes, newNodesOf in Hn. simpl in Hn.
    apply in_app_or in Hn as [Hn|Hn].
    + apply filter_In in Hn as [_ Hn]. rewrite Hid in Hn.
      apply mem_In in Hrm. rewrite Hrm in Hn. discriminate.
    + apply fold_collapseGroup_added in Hn as [[]|[k Hk']].
      rewrite Hid in Hk'. rewrite Hk', match_base_group_id in Hmb. discriminate.
  - intros s Hs.
    assert (Hsb : match_base (Node.id s) = Some baseId).
    { apply filter_In in Hs as [_ H2]. apply andb_true_iff in H2 as [H2 _].
      now apply base_is_true. }
    unfold newEdges, groupSimilarNodes. simpl. apply specialFix_mono.
    unfold uniqueEdgesOf. apply uniqueFrom_keeps.
    + intros e'. apply edgeKey_inj; [|exact Hplain].
      eapply match_base_plain. exact Hsb.
    + intros k [].
    + apply in_or_app. right. apply Hnew. simpl.
      apply in_map_iff. exists (tagged baseId s). split; [reflexivity|].
      apply in_map. exact Hs.
  - unfold newEdges, groupSimilarNodes. simpl.
    apply specialFix_NoDup, uniqueEdgesOf_NoDup.
Qed.

End Grouping.

Section GroupingExamples.
Import GraphRenderer.

Lemma collapsed_group_is_replaced_witness :
  let nodes := TraceData.nodes (extractTraceData Samples.object7) in
  let edges := TraceData.edges (extractTraceData Samples.object7) in
  map Node.id (membersOf nodes "7") = ["7-1"; "7-2"; "7-3"]
  /\ map Node.id (sourcesOf nodes "7") = ["7"]
  /\ countId "7-group" (nodesToAdd (changesOf nodes edges)) = 1
  /\ (forall m, In m (membersOf nodes "7") ->
                ~ In (Node.id m) (map Node.id (fst (groupSimilarNodes nodes edges))))
  /\ (forall s, In s (sourcesOf nodes "7") ->
                In (Edge.mk (Node.id s) "7-group") (snd (groupSimilarNodes nodes edges)))
  /\ NoDup (snd (groupSimilarNodes nodes edges)).
Proof.
  intros nodes edges.
  split; [reflexivity|]. split; [reflexivity|].
  destruct (hd_error (membersOf nodes "7")) as [first|] eqn:E; [|discriminate E].
  assert (Hlen : 1 < List.length (membersOf nodes "7")).
  { vm_compute. repeat constructor. }
  exact (proj2 (collapsed_group_is_replaced nodes edges "7" first E Hlen)).
Defined.

(** The scenario of the specification: one source and three other events
    of object 7 become the source node and the node 7-group, linked by one
    edge. *)
Example object7_collapses :
  map Node.id (fst (Samples.graphOf Samples.object7))
  = ["request"; "route"; "7"; "7-group"]
  /\ snd (Samples.graphOf Samples.object7)
     = [Edge.mk "request" "route"; Edge.mk "route" "7"; Edge.mk "7" "7-group"].
Proof. split; reflexivity. Qed.

(** Edges between the members of two collapsed groups are redirected at
    one end only (the first matching update wins): for
    [Samples.chainedGroups] every node has an incoming edge before the
    grouping pass, but afterwards the edges from 5-group still point to the
    removed nodes 9 and 9-1, and the node 9-group has no incoming edge. *)
Example grouping_can_disconnect_a_group :
  let nodes := TraceData.nodes (extractTraceData Samples.chainedGroups) in
  let edges := TraceData.edges (extractTraceData Samples.chainedGroups) in
  map Node.id nodes = ["request"; "route"; "1"; "5"; "5-1"; "9"; "9-1"]
  /\ edges = [Edge.mk "request" "route"; Edge.mk "route" "1"; Edge.mk "1" "5";
              Edge.mk "1" "5-1"; Edge.mk "5-1" "9"; Edge.mk "5-1" "9-1"]
  /\ map Node.id (fst (groupSimilarNodes nodes edges))
     = ["request"; "route"; "1"; "5-group"; "9-group"]
  /\ snd (groupSimilarNodes nodes edges)
     = [Edge.mk "request" "route"; Edge.mk "route" "1"; Edge.mk "1" "5-group";
        Edge.mk "5-group" "9"; Edge.mk "5-group" "9-1"].
Proof. repeat split; reflexivity. Qed.

End GroupingExamples.

(** ** The hierarchical layout: corrective pass *)

Section CorrectivePass.
Import GraphRenderer.

(** What one round of the pass does: a positioned node other than the
    request and the route, with at least one incoming edge, whose y is at
    most 50 below the largest y of its parents (when that is positive) is
    moved to that y plus 80; otherwise nothing changes. *)
Lemma adjustNode_pushes (links : list Edge.t) (nodes : list Node.t) (i : nat)
      (node : Node.t) (ny : Z) :
  nth_error nodes i = Some node ->
  Node.id node <> "request" -> Node.id node <> "route" ->
  parentsOf links (Node.id node) <> [] ->
  Node.y node = Some ny ->
  let m := maxParentY nodes (parentsOf links (Node.id node)) in
  (0 < m)%Z -> (ny <= m + 50)%Z ->
  nth_error (adjustNode links nodes i) i = Some (setY (m + 80)%Z node).
Proof.
  intros Hi Hq Hr Hp Hy m Hm Hle. unfold adjustNode. rewrite Hi.
  destruct (String.eqb_spec (Node.id node) "request"); [contradiction|].
  destruct (String.eqb_spec (Node.id node) "route"); [contradiction|].
  cbn [orb]. subst m.
  destruct (parentsOf links (Node.id node)) as [|q qs] eqn:E; [contradiction|].
  rewrite Hy. apply Z.ltb_lt in Hm. apply Z.leb_le in Hle. rewrite Hm, Hle.
  cbn [andb]. rewrite nth_error_update_nth, Nat.eqb_refl, Hi. reflexivity.
Qed.

Lemma adjustNode_keeps (links : list Edge.t) (nodes : list Node.t) (i : nat)
      (node : Node.t) (ny : Z) :
  nth_error nodes i = Some node ->
  Node.y node = Some ny ->
  (maxParentY nodes (parentsOf links (Node.id node)) + 50 < ny)%Z ->
  adjustNode links nodes i = nodes.
Proof.
  intros Hi Hy Hlt. unfold adjustNode. rewrite Hi.
  destruct (_ || _); [reflexivity|].
  destruct (parentsOf links (Node.id node)) as [|q qs] eqn:E; [reflexivity|].
  rewrite Hy.
  replace (ny <=? maxParentY nodes (q :: qs) + 50)%Z with false
    by (symmetry; apply Z.leb_gt; exact Hlt).
  now rewrite andb_false_r.
Qed.

(** C9 (violated by the code): for the trace [Samples.chain9_7_8] the
    grouping pass appends the group node 7-group after its child 8 in the
    node list; the single sweep of the corrective pass leaves 8 at 610 when
    its parent is still at 530, and afterwards pushes 7-group down to 650,
    below its own parent 9.  The edge from 7-group to 8 then points
    upwards. *)
Theorem corrective_pass_leaves_child_above_parent :
  let nodes := Samples.place Samples.placement9_7_8
                             (fst (Samples.graphOf Samples.chain9_7_8)) in
  let links := snd (Samples.graphOf Samples.chain9_7_8) in
  map Node.id nodes = ["request"; "route"; "9"; "8"; "7-group"]
  /\ In (Edge.mk "7-group" "8") links
  /\ yOf (correctivePass nodes links) "7-group" = Some 650%Z
  /\ yOf (correctivePass nodes links) "8" = Some 610%Z.
Proof.
  vm_compute. repeat split. right. right. left. reflexivity.
Qed.

End CorrectivePass.

(** ** The graph builder: trigger events *)

Section Triggers.











(** *** Where the edges come from *)

Lemma processEvent_explained events tb sorted srcs st event :
  In event events ->
  (forall e, In e (edges st) -> explained events tb e) ->
  (forall n, In n (nodesWithoutParents st) ->
             exists ev, In ev events /\ fst n = Event.objectId ev
                        /\ isViolation ev = false) ->
  (forall e, In e (edges (processEvent events tb sorted srcs st event)) ->
             explained events tb e)
  /\ (forall n, In n (nodesWithoutParents (processEvent events tb sorted srcs st event)) ->
                exists ev, In ev events /\ fst n = Event.objectId ev
                           /\ isViolation ev = false).
Proof.
  intros Hin He Hn. unfold processEvent.
  assert (own : forall e, Edge.target e = Event.objectId event ->
                          isViolation event = false -> explained events tb e).
  { intros e Ht Hv. right. left. exists event. split; [exact Hin|].
    split; [exact Ht|]. rewrite Hv. discriminate. }
  destruct (isViolation event) eqn:Ev; simpl.
  { split; [|exact Hn]. intros e H. apply in_app_or in H as [H|[<-|[]]]; [now apply He|].
    right. left. exists event. split; [exact Hin|]. split; [reflexivity|]. reflexivity. }
  destruct (Event.parentObjectIds event) as [|q qs] eqn:Eq;
    cbn [edges nodesWithoutParents].
  - destruct (isSource event); simpl.
    { split; [|exact Hn]. intros e H.
      apply in_app_or in H as [H|[<-|[]]]; [now apply He|]. now apply own. }
    destruct (mem _ _); simpl.
    { split; [|exact Hn]. intros e H.
      apply in_app_or in H as [H|[<-|H]]; [now apply He|now apply own|].
      destruct (nextNodeId events tb (Event.objectId event)) as [next|] eqn:En;
        [|contradiction].
      destruct H as [<-|[]]. right. right. exists event. repeat split; assumption. }
    destruct (_ && _); simpl; (split; [exact He|]); intros n H;
      apply in_app_or in H as [H|[<-|[]]]; try (now apply Hn);
      exists event; repeat split; assumption.
  - split; [|exact Hn]. intros e H.
    apply in_app_or in H as [H|H]; [now apply He|].
    rewrite <- Eq in H. apply in_flat_map in H as [p [_ Hp]].
    apply own; [|reflexivity]. eapply parentEdges_target. exact Hp.
Qed.

Lemma fold_processEvent_explained events tb sorted srcs l st :
  incl l events ->
  (forall e, In e (edges st) -> explained events tb e) ->
  (forall n, In n (nodesWithoutParents st) ->
             exists ev, In ev events /\ fst n = Event.objectId ev
                        /\ isViolation ev = false) ->
  let st' := fold_left (processEvent events tb sorted srcs) l st in
  (forall e, In e (edges st') -> explained events tb e)
  /\ (forall n, In n (nodesWithoutParents st') ->
                exists ev, In ev events /\ fst n = Event.objectId ev
                           /\ isViolation ev = false).
Proof.
  revert st. induction l as [|ev l IH]; simpl; intros st Hl He Hn.
  - split; assumption.
  - destruct (processEvent_explained events tb sorted srcs st ev
                (Hl ev (or_introl eq_refl)) He Hn) as [He' Hn'].
    apply IH; [|exact He'|exact Hn'].
    intros x Hx. apply Hl. now right.
Qed.

Lemma fold_specialEdge_inv (events : list Event.t) (edges : list Edge.t) (e : Edge.t) :
  In e (fold_left specialEdge events edges) -> In e edges \/ e = edge853_951.
Proof.
  revert edges. induction events as [|ev events IH]; simpl; intros edges H; [now left|].
  apply IH in H as [H|H]; [|now right].
  unfold specialEdge in H. destruct (_ && _); [|now left].
  destruct (existsb _ _); [now left|].
  apply in_app_or in H as [H|[<-|[]]]; [now left|now right].
Qed.

Lemma buildEdges_explained (events : list Event.t) (e : Edge.t) :
  In e (buildEdges events) ->
  explained events (build_tables events) e \/ e = edge853_951.
Proof.
  intros H. unfold buildEdges in H.
  apply fold_specialEdge_inv in H as [H|H]; [|now right]. left.
  set (sorted := sort_by (fun e => parseInt_or_0 (Some (Event.time e))) events) in *.
  destruct (fold_processEvent_explained events (build_tables events) sorted
              (map Event.objectId (filter isSource sorted)) sorted
              (mkProgress [Edge.mk "request" "route"] "route" [])) as [He Hn].
  - intros x Hx. unfold sorted in Hx. now apply In_sort_by in Hx.
  - simpl. intros e' [<-|[]]. now left.
  - simpl. intros n [].
  - apply in_app_or in H as [H|H]; [now apply He|].
    apply in_map_iff in H as [n [<- Hn']]. apply Hn in Hn' as [ev [H1 [H2 H3]]].
    right. left. exists ev. split; [exact H1|]. split; [exact H2|].
    rewrite H3. discriminate.
Qed.

End Triggers.

Section TriggerClaim.

Lemma fold_processEvent_edges_mono events tb sorted srcs l st (e : Edge.t) :
  In e (edges st) ->
  In e (edges (fold_left (processEvent events tb sorted srcs) l st)).
Proof.
  revert st. induction l as [|ev l IH]; simpl; intros st H; [exact H|].
  apply IH. now apply processEvent_edges_mono.
Qed.





End TriggerClaim.

(** ** The identifiers returned by the parser never name a property of
    [Object.prototype] *)

Section ParsedIds.

Lemma proto_key_lacks_dash (s : string) :
  proto_key s = true -> lacks "-" s = true.
Proof.
  unfold proto_key, proto_keys. simpl. intros H.
  repeat (apply orb_prop in H as [H|H];
          [apply String.eqb_eq in H; subst s; reflexivity|]).
  discriminate H.
Qed.

Lemma renamed_not_proto (d x : string) : proto_key (d ++ "-" ++ x) = false.
Proof.
  destruct (proto_key (d ++ "-" ++ x)) eqn:E; [|reflexivity].
  apply proto_key_lacks_dash in E. rewrite lacks_app in E. simpl in E.
  rewrite andb_false_r in E. discriminate.
Qed.

Lemma renamed_not_empty (d x : string) : (d ++ "-" ++ x)%string <> "".
Proof. destruct d; discriminate. Qed.

Lemma lookup_put_attr (l : list (string * string)) (n v : string) :
  lookup_attr (put_attr l n v) n = Some v.
Proof.
  induction l as [|[k w] l IH]; simpl.
  - now rewrite String.eqb_refl.
  - destruct (String.eqb_spec k n) as [->|Hne]; simpl.
    + now rewrite String.eqb_refl.
    + destruct (String.eqb_spec k n); [contradiction|exact IH].
Qed.

Lemma objectIdOf_renamed (el : xml) (d x : string) (i : nat) :
  proto_key (objectIdOf el i) = false ->
  proto_key (objectIdOf (setAttribute el "objectId" (d ++ "-" ++ x)) i) = false.
Proof.
  destruct el as [t attrs cs|s]; [|now simpl].
  intros _. unfold objectIdOf, getAttribute, setAttribute.
  rewrite lookup_put_attr. unfold or_else.
  destruct (String.eqb_spec (d ++ "-" ++ x) "") as [E|_].
  - now apply renamed_not_empty in E.
  - apply renamed_not_proto.
Qed.

(** Every element of the list carries, at its index, an id that is no
    property name of [Object.prototype]. *)
Lemma rename_one_ids (d : string) (st : dedup) (ip : nat * nat) :
  (forall i el, nth_error (allEvents st) i = Some el ->
                proto_key (objectIdOf el i) = false) ->
  forall i el, nth_error (allEvents (rename_one d st ip)) i = Some el ->
               proto_key (objectIdOf el i) = false.
Proof.
  intros H i el. destruct ip as [k pos]. simpl.
  rewrite nth_error_update_nth.
  destruct (Nat.eqb_spec i pos) as [->|_]; [|apply H].
  destruct (nth_error (allEvents st) pos) as [el0|] eqn:E; [|discriminate].
  simpl. intros H'. injection H' as <-.
  apply objectIdOf_renamed. now apply H.
Qed.

Lemma fold_rename_ids (d : string) (l : list (nat * nat)) (st : dedup) :
  (forall i el, nth_error (allEvents st) i = Some el ->
                proto_key (objectIdOf el i) = false) ->
  forall i el, nth_error (allEvents (fold_left (rename_one d) l st)) i = Some el ->
               proto_key (objectIdOf el i) = false.
Proof.
  revert st. induction l as [|ip l IH]; simpl; intros st H; [exact H|].
  apply IH. now apply rename_one_ids.
Qed.

Lemma fix_duplicates_ids (ds : list string) (st : option dedup) (st' : dedup) :
  fold_left fix_duplicate ds st = Some st' ->
  (forall st0, st = Some st0 ->
     forall i el, nth_error (allEvents st0) i = Some el ->
                  proto_key (objectIdOf el i) = false) ->
  forall i el, nth_error (allEvents st') i = Some el ->
               proto_key (objectIdOf el i) = false.
Proof.
  revert st. induction ds as [|d ds IH]; simpl; intros st H Hst.
  - now apply Hst.
  - apply (IH _ H). intros st1 E.
    destruct st as [st0|]; [|discriminate E]. simpl in E.
    destruct (obj_get (objectIdPositions st0) d) as [ps|]; [|discriminate E].
    injection E as <-. apply fold_rename_ids. now apply Hst.
Qed.

Lemma fold_scan_None (l : list (nat * xml)) : fold_left scan_event l None = None.
Proof. induction l as [|ie l IH]; simpl; [reflexivity|exact IH]. Qed.

Lemma scan_events_ids (l : list (nat * xml)) (st0 st' : dedup) :
  (forall k c, obj_get (objectIdCounts st0) k = Some c -> proto_key k = false) ->
  fold_left scan_event l (Some st0) = Some st' ->
  forall i el, In (i, el) l -> proto_key (objectIdOf el i) = false.
Proof.
  revert st0. induction l as [|[j x] l IH]; simpl; intros st0 HK H i el Hin;
    [contradiction|].
  destruct (obj_get (objectIdCounts st0) (objectIdOf x j)) as [c|] eqn:Ec.
  - destruct (obj_get (objectIdPositions st0) (objectIdOf x j)) as [ps|];
      [|rewrite fold_scan_None in H; discriminate H].
    destruct Hin as [E|Hin].
    + injection E as <- <-. now apply (HK _ _ Ec).
    + eapply IH; [|exact H|exact Hin]. intros k c' Hk. simpl in Hk.
      destruct (String.eqb_spec (objectIdOf x j) k) as [<-|Hne].
      * now apply (HK _ _ Ec).
      * rewrite obj_get_set_ne in Hk by exact Hne. now apply (HK _ _ Hk).
  - destruct (proto_key (objectIdOf x j)) eqn:Ep;
      [rewrite fold_scan_None in H; discriminate H|].
    destruct Hin as [E|Hin].
    + injection E as <- <-. exact Ep.
    + eapply IH; [|exact H|exact Hin]. intros k c' Hk. simpl in Hk.
      destruct (String.eqb_spec (objectIdOf x j) k) as [<-|Hne].
      * exact Ep.
      * rewrite obj_get_set_ne in Hk by exact Hne. now apply (HK _ _ Hk).
Qed.

Lemma In_indexed {A : Type} (l : list A) (i : nat) (x : A) :
  In (i, x) (indexed l) <-> nth_error l i = Some x.
Proof.
  unfold indexed.
  assert (H : forall n, In (i, x) (combine (seq n (List.length l)) l)
                        <-> n <= i /\ nth_error l (i - n) = Some x).
  { induction l as [|y l IH]; intros n; simpl.
    - split; [intros []|]. intros [_ H]. destruct (i - n); discriminate H.
    - rewrite IH. split.
      + intros [E|[Hle Hn]].
        * injection E as -> ->. split; [lia|]. now rewrite Nat.sub_diag.
        * split; [lia|]. replace (i - n) with (S (i - S n)) by lia. exact Hn.
      + intros [Hle Hn]. destruct (i - n) as [|k] eqn:Ek.
        * left. injection Hn as ->. f_equal. lia.
        * right. split; [lia|]. replace (i - S n) with k by lia. exact Hn. }
  rewrite H. rewrite Nat.sub_0_r. split; [intros [_ H']; exact H'|].
  intros H'. split; [lia|exact H'].
Qed.

(** No event returned by the parser is named after a property of
    [Object.prototype]; in particular none is named [__proto__]. *)
Lemma extractEvents_ids_not_proto (eventsElement : xml) (event : Event.t) :
  In event (extractEvents eventsElement) ->
  proto_key (Event.objectId event) = false.
Proof.
  unfold extractEvents.
  set (sorted := sort_by timeKey _).
  destruct (dedupObjectIds sorted) as [st|] eqn:E; [|intros []].
  intros H. apply in_map_iff in H as [[i el] [<- Hin]]. simpl.
  apply In_indexed in Hin. revert i el Hin.
  unfold dedupObjectIds in E.
  destruct (fold_left scan_event (indexed sorted) (Some (mkDedup sorted [] [])))
    as [st1|] eqn:E1; [|discriminate E].
  apply (fix_duplicates_ids _ _ _ E).
  intros st0 E0. injection E0 as <-. intros i el Hi.
  apply scan_events_allEvents in E1 as Ha. destruct Ha as [st2 [H2 H3]].
  injection H2 as <-. rewrite H3 in Hi. simpl in Hi.
  eapply scan_events_ids; [|exact E1|now apply In_indexed].
  intros k c Hk. simpl in Hk. discriminate Hk.
Qed.

Lemma extractEvents_ids_not___proto__ (eventsElement : xml) :
  Forall (fun e => Event.objectId e <> "__proto__") (extractEvents eventsElement).
Proof.
  apply Forall_forall. intros e He E.
  apply extractEvents_ids_not_proto in He. rewrite E in He. discriminate.
Qed.

End ParsedIds.

(** ** The renaming rule holds when the new ids are fresh *)

Section FreshRenaming.

(** *** Decimal numerals *)

Lemma to_uint_not_Nil (n : nat) : Nat.to_uint n <> Decimal.Nil.
Proof.
  intros H. assert (E : n = 0).
  { rewrite <- (DecimalNat.Unsigned.of_to n), H. reflexivity. }
  subst n. discriminate H.
Qed.

Lemma string_of_nat_inj (n m : nat) : string_of_nat n = string_of_nat m -> n = m.
Proof.
  unfold string_of_nat. intros H.
  assert (E : Some (Nat.to_uint n) = Some (Nat.to_uint m)).
  { rewrite <- (NilZero.usu _ (to_uint_not_Nil n)),
            <- (NilZero.usu _ (to_uint_not_Nil m)), H. reflexivity. }
  injection E as E.
  rewrite <- (DecimalNat.Unsigned.of_to n), <- (DecimalNat.Unsigned.of_to m), E.
  reflexivity.
Qed.

Lemma all_digits_uint (d : Decimal.uint) :
  all_digits (NilEmpty.string_of_uint d) = true.
Proof. induction d; simpl; auto. Qed.

Lemma all_digits_string_of_nat (n : nat) : all_digits (string_of_nat n) = true.
Proof.
  unfold string_of_nat, NilZero.string_of_uint.
  destruct (Nat.to_uint n); try apply (all_digits_uint (_ u)); reflexivity.
Qed.

Lemma all_digits_lacks_dash (s : string) : all_digits s = true -> lacks "-" s = true.
Proof.
  induction s as [|c s IH]; simpl; [reflexivity|].
  intros H. apply andb_true_iff in H as [Hc Hs]. rewrite (IH Hs), andb_true_r.
  destruct (Ascii.eqb_spec c "-"%char) as [->|]; [discriminate Hc|reflexivity].
Qed.

(** An id followed by a hyphen and a numeral determines both parts. *)
Lemma dash_split (d d' a b : string) :
  lacks "-" a = true -> lacks "-" b = true ->
  (d ++ "-" ++ a)%string = (d' ++ "-" ++ b)%string ->
  d = d' /\ a = b.
Proof.
  revert d'. induction d as [|c d IH]; intros [|c' d']; simpl; intros Ha Hb H.
  - injection H as ->. split; reflexivity.
  - exfalso. injection H as <- H. rewrite H, lacks_app in Ha. simpl in Ha.
    rewrite andb_false_r in Ha. discriminate.
  - exfalso. injection H as -> H. rewrite <- H, lacks_app in Hb. simpl in Hb.
    rewrite andb_false_r in Hb. discriminate.
  - injection H as -> H. destruct (IH d' Ha Hb H) as [-> ->]. split; reflexivity.
Qed.

Lemma renamed_inj (d d' : string) (k k' : nat) :
  (d ++ "-" ++ string_of_nat k)%string = (d' ++ "-" ++ string_of_nat k')%string ->
  d = d' /\ k = k'.
Proof.
  intros H. apply dash_split in H as [-> H].
  - split; [reflexivity|now apply string_of_nat_inj].
  - apply all_digits_lacks_dash, all_digits_string_of_nat.
  - apply all_digits_lacks_dash, all_digits_string_of_nat.
Qed.


(** *** Occurrences and their indices *)

Lemma In_combine_seq {A : Type} (l : list A) (n i : nat) (x : A) :
  In (i, x) (combine (seq n (List.length l)) l)
  <-> n <= i /\ nth_error l (i - n) = Some x.
Proof.
  revert n. induction l as [|y l IH]; intros n; simpl.
  - split; [intros []|]. intros [_ H]. destruct (i - n); discriminate H.
  - rewrite IH. split.
    + intros [E|[Hle Hn]].
      * injection E as -> ->. split; [lia|]. now rewrite Nat.sub_diag.
      * split; [lia|]. replace (i - n) with (S (i - S n)) by lia. exact Hn.
    + intros [Hle Hn]. destruct (i - n) as [|k] eqn:Ek.
      * left. injection Hn as ->. f_equal. lia.
      * right. split; [lia|]. replace (i - S n) with k by lia. exact Hn.
Qed.

Lemma occurrences_cons (d x : string) (ids : list string) :
  occurrences d (x :: ids)
  = (if (x =? d)%string then 1 else 0) + occurrences d ids.
Proof.
  unfold occurrences. simpl. rewrite (String.eqb_sym d x).
  destruct (x =? d)%string; reflexivity.
Qed.

Lemma length_indicesFrom (n : nat) (d : string) (ids : list string) :
  List.length (indicesFrom n d ids) = occurrences d ids.
Proof.
  revert n. induction ids as [|x r IH]; intros n; [reflexivity|].
  rewrite occurrences_cons. simpl. destruct (x =? d)%string; simpl; now rewrite IH.
Qed.

Lemma In_indicesFrom (n : nat) (d : string) (ids : list string) (p : nat) :
  In p (indicesFrom n d ids) <-> n <= p /\ nth_error ids (p - n) = Some d.
Proof.
  revert n. induction ids as [|x r IH]; intros n; simpl.
  - split; [intros []|]. intros [_ H]. destruct (p - n); discriminate H.
  - assert (Hr : In p (indicesFrom (S n) d r)
                 <-> S n <= p /\ nth_error (x :: r) (p - n) = Some d).
    { rewrite IH. split; intros [H1 H2]; (split; [exact H1|]).
      - replace (p - n) with (S (p - S n)) by lia. exact H2.
      - replace (p - n) with (S (p - S n)) in H2 by lia. exact H2. }
    destruct (String.eqb_spec x d) as [->|Hne]; simpl.
    + rewrite Hr. split.
      * intros [<-|[H1 H2]]; [|split; [lia|exact H2]].
        split; [lia|]. now rewrite Nat.sub_diag.
      * intros [H1 H2]. destruct (Nat.eq_dec n p) as [E|E]; [now left|].
        right. split; [lia|exact H2].
    + rewrite Hr. split; intros [H1 H2]; (split; [|exact H2]); [lia|].
      destruct (Nat.eq_dec n p) as [E|E]; [|lia].
      subst p. rewrite Nat.sub_diag in H2. simpl in H2. injection H2 as E.
      contradiction.
Qed.

Lemma NoDup_indicesFrom (n : nat) (d : string) (ids : list string) :
  NoDup (indicesFrom n d ids).
Proof.
  revert n. induction ids as [|x r IH]; intros n; simpl; [constructor|].
  destruct (x =? d)%string; [|apply IH].
  constructor; [|apply IH]. intros H. apply In_indicesFrom in H. lia.
Qed.

(** The occurrence at index [i] is the one numbered by the occurrences
    before it. *)
Lemma nth_indicesFrom (n : nat) (d : string) (ids : list string) (i : nat) :
  nth_error ids i = Some d ->
  nth_error (indicesFrom n d ids) (occurrences d (firstn i ids)) = Some (n + i).
Proof.
  revert n i. induction ids as [|x r IH]; intros n i H.
  - destruct i; discriminate H.
  - destruct i as [|i]; simpl in H.
    + injection H as ->. simpl. rewrite String.eqb_refl. simpl. f_equal. lia.
    + simpl firstn. rewrite occurrences_cons. simpl indicesFrom.
      destruct (x =? d)%string; simpl; rewrite (IH (S n) i H); f_equal; lia.
Qed.

Lemma occurrences_before_lt (d : string) (ids : list string) (i : nat) :
  nth_error ids i = Some d ->
  occurrences d (firstn i ids) < occurrences d ids.
Proof.
  intros H. rewrite <- (length_indicesFrom 0 d ids).
  apply nth_error_Some. rewrite (nth_indicesFrom 0 d ids i H). discriminate.
Qed.

Lemma NoDup_nth_unique {A : Type} (l : list A) (i j : nat) (x : A) :
  NoDup l -> nth_error l i = Some x -> nth_error l j = Some x -> i = j.
Proof.
  intros Hn Hi Hj. apply (proj1 (NoDup_nth_error l) Hn).
  - apply nth_error_Some. rewrite Hi. discriminate.
  - now rewrite Hi, Hj.
Qed.


(** *** The first pass records, for every id, the indices of its
    occurrences *)

Lemma extend_nil {A : Type} (o : option (list A)) : extend o [] = o.
Proof. destruct o as [l|]; simpl; [now rewrite app_nil_r|reflexivity]. Qed.

Lemma extend_cons {A : Type} (o : option (list A)) (x : A) (l : list A) :
  extend (extend o [x]) l = extend o (x :: l).
Proof.
  destruct o as [l0|]; simpl.
  - now rewrite <- app_assoc.
  - reflexivity.
Qed.

Lemma proto_key___proto__ (k : string) : proto_key k = false -> k <> "__proto__".
Proof. intros H ->. discriminate H. Qed.

Lemma scan_event_step (st0 : dedup) (n : nat) (x : xml) :
  consistent st0 ->
  proto_key (objectIdOf x n) = false ->
  exists st1,
    scan_event (Some st0) (n, x) = Some st1
    /\ allEvents st1 = allEvents st0
    /\ consistent st1
    /\ (NoDup (map fst (objectIdCounts st0)) -> NoDup (map fst (objectIdCounts st1)))
    /\ forall d,
         obj_get (objectIdPositions st1) d
         = if (objectIdOf x n =? d)%string
           then extend (obj_get (objectIdPositions st0) d) [n]
           else obj_get (objectIdPositions st0) d.
Proof.
  intros Hc Hp. pose proof (proto_key___proto__ _ Hp) as Hne.
  unfold scan_event. rewrite (Hc (objectIdOf x n)).
  destruct (obj_get (objectIdPositions st0) (objectIdOf x n)) as [ps|] eqn:E; simpl.
  - eexists. split; [reflexivity|]. split; [reflexivity|]. split; [|split].
    + intros d. simpl. destruct (String.eqb_spec (objectIdOf x n) d) as [<-|Hd].
      * rewrite !obj_get_set_eq by exact Hne. simpl.
        rewrite length_app. simpl. f_equal. lia.
      * rewrite !obj_get_set_ne by exact Hd. apply Hc.
    + simpl. apply NoDup_keys_set.
    + intros d. simpl. destruct (String.eqb_spec (objectIdOf x n) d) as [<-|Hd].
      * rewrite obj_get_set_eq by exact Hne. now rewrite E.
      * now rewrite obj_get_set_ne by exact Hd.
  - rewrite Hp. eexists. split; [reflexivity|]. split; [reflexivity|]. split; [|split].
    + intros d. simpl. destruct (String.eqb_spec (objectIdOf x n) d) as [<-|Hd].
      * now rewrite !obj_get_set_eq by exact Hne.
      * rewrite !obj_get_set_ne by exact Hd. apply Hc.
    + simpl. apply NoDup_keys_set.
    + intros d. simpl. destruct (String.eqb_spec (objectIdOf x n) d) as [<-|Hd].
      * rewrite obj_get_set_eq by exact Hne. now rewrite E.
      * now rewrite obj_get_set_ne by exact Hd.
Qed.

Lemma scan_fold (els : list xml) (n : nat) (st0 : dedup) :
  consistent st0 ->
  Forall (fun d => proto_key d = false) (idsFrom n els) ->
  exists st',
    fold_left scan_event (combine (seq n (List.length els)) els) (Some st0)
    = Some st'
    /\ allEvents st' = allEvents st0
    /\ consistent st'
    /\ (NoDup (map fst (objectIdCounts st0)) -> NoDup (map fst (objectIdCounts st')))
    /\ forall d,
         obj_get (objectIdPositions st') d
         = extend (obj_get (objectIdPositions st0) d)
                  (indicesFrom n d (idsFrom n els)).
Proof.
  revert n st0. induction els as [|x els IH]; intros n st0 Hc Hp.
  - exists st0. simpl. repeat split; auto. intros d. now rewrite extend_nil.
  - unfold idsFrom in Hp. simpl in Hp. inversion Hp as [|? ? Hx Hr]; subst.
    destruct (scan_event_step st0 n x Hc Hx) as [st1 [E1 [A1 [C1 [N1 P1]]]]].
    destruct (IH (S n) st1 C1 Hr) as [st' [E' [A' [C' [N' P']]]]].
    exists st'. cbn [List.length seq combine fold_left]. rewrite E1.
    split; [exact E'|]. split; [now rewrite A', A1|]. split; [exact C'|].
    split; [intros H; now apply N', N1|].
    intros d. rewrite P', P1. unfold idsFrom. cbn [List.length seq combine map fst snd indicesFrom].
    destruct (objectIdOf x n =? d)%string; [|reflexivity].
    apply extend_cons.
Qed.


(** *** The renaming loop *)

Lemma objectIdOf_set (el : xml) (d : string) (k i : nat) :
  isElem el = true ->
  objectIdOf (setAttribute el "objectId" (d ++ "-" ++ string_of_nat k)) i
  = (d ++ "-" ++ string_of_nat k)%string.
Proof.
  destruct el as [t attrs cs|s]; [|discriminate]. intros _.
  unfold objectIdOf, getAttribute, setAttribute. rewrite lookup_put_attr.
  unfold or_else.
  destruct (String.eqb_spec (d ++ "-" ++ string_of_nat k) "") as [E|_];
    [|reflexivity].
  now apply renamed_not_empty in E.
Qed.

Lemma isElem_set (el : xml) (n v : string) :
  isElem (setAttribute el n v) = isElem el.
Proof. destruct el; reflexivity. Qed.

Lemma rename_one_elems (d : string) (st : dedup) (kp : nat * nat) :
  Forall (fun el => isElem el = true) (allEvents st) ->
  Forall (fun el => isElem el = true) (allEvents (rename_one d st kp)).
Proof.
  intros H. destruct kp as [k p]. simpl. apply Forall_forall. intros el Hin.
  apply In_nth_error in Hin as [i Hi]. rewrite nth_error_update_nth in Hi.
  rewrite Forall_forall in H.
  destruct (i =? p)%nat.
  - destruct (nth_error (allEvents st) i) as [el0|] eqn:E; [|discriminate Hi].
    simpl in Hi. injection Hi as <-. rewrite isElem_set. apply H.
    eapply nth_error_In. exact E.
  - apply H. eapply nth_error_In. exact Hi.
Qed.

Lemma rename_one_current (d : string) (st : dedup) (k p i : nat) :
  Forall (fun el => isElem el = true) (allEvents st) ->
  currentId (allEvents (rename_one d st (k, p))) i
  = if (i =? p)%nat
    then option_map (fun _ => (d ++ "-" ++ string_of_nat k)%string)
                    (currentId (allEvents st) i)
    else currentId (allEvents st) i.
Proof.
  intros H. unfold currentId. simpl. rewrite nth_error_update_nth.
  destruct (i =? p)%nat; [|reflexivity].
  destruct (nth_error (allEvents st) i) as [el|] eqn:E; [|reflexivity].
  simpl. f_equal. apply objectIdOf_set.
  rewrite Forall_forall in H. apply H. eapply nth_error_In. exact E.
Qed.

Lemma fold_rename_elems (d : string) (pairs : list (nat * nat)) (st : dedup) :
  Forall (fun el => isElem el = true) (allEvents st) ->
  Forall (fun el => isElem el = true)
         (allEvents (fold_left (rename_one d) pairs st)).
Proof.
  revert st. induction pairs as [|kp pairs IH]; simpl; intros st H; [exact H|].
  apply IH. now apply rename_one_elems.
Qed.

Lemma fold_rename_current (d : string) (pairs : list (nat * nat)) (st : dedup)
      (i : nat) :
  Forall (fun el => isElem el = true) (allEvents st) ->
  NoDup (map snd pairs) ->
  currentId (allEvents (fold_left (rename_one d) pairs st)) i
  = match find (fun kp => (snd kp =? i)%nat) pairs with
    | Some kp => option_map (fun _ => (d ++ "-" ++ string_of_nat (fst kp))%string)
                            (currentId (allEvents st) i)
    | None => currentId (allEvents st) i
    end.
Proof.
  revert st. induction pairs as [|[k p] pairs IH]; intros st He Hn; [reflexivity|].
  simpl in Hn. inversion Hn as [|? ? Hp Hr]; subst.
  cbn [fold_left find snd fst].
  rewrite IH by (try apply rename_one_elems; assumption).
  rewrite rename_one_current by exact He.
  destruct (Nat.eqb_spec p i) as [->|Hne].
  - rewrite Nat.eqb_refl.
    destruct (find (fun kp => (snd kp =? i)%nat) pairs) as [kp|] eqn:Ef; [|reflexivity].
    exfalso. apply find_some in Ef as [Hin Hs]. apply Nat.eqb_eq in Hs.
    apply Hp. rewrite <- Hs. apply in_map. exact Hin.
  - destruct (Nat.eqb_spec i p) as [E|_]; [symmetry in E; contradiction|].
    reflexivity.
Qed.

Lemma fold_rename_positions (d : string) (pairs : list (nat * nat)) (st : dedup)
      (d' : string) :
  (forall kp, In kp pairs -> (d ++ "-" ++ string_of_nat (fst kp))%string <> d') ->
  obj_get (objectIdPositions (fold_left (rename_one d) pairs st)) d'
  = obj_get (objectIdPositions st) d'.
Proof.
  revert st. induction pairs as [|[k p] pairs IH]; simpl; intros st H; [reflexivity|].
  rewrite IH by (intros kp Hk; apply H; now right).
  simpl. apply obj_get_set_ne. apply (H (k, p)). now left.
Qed.

(** The rounds of the inner loop: the pairs of an index [k >= 1] and the
    position of occurrence number [k]. *)
Lemma In_rounds (l : list nat) (k p : nat) :
  In (k, p) (tl (combine (seq 0 (List.length l)) l))
  <-> 1 <= k /\ nth_error l k = Some p.
Proof.
  destruct l as [|x l]; simpl.
  - split; [intros []|]. intros [_ H]. destruct k; discriminate H.
  - rewrite In_combine_seq. split; intros [H1 H2]; (split; [exact H1|]).
    + destruct k as [|k]; [lia|]. simpl in H2 |- *.
      now rewrite Nat.sub_0_r in H2.
    + destruct k as [|k]; [lia|]. simpl in H2 |- *. now rewrite Nat.sub_0_r.
Qed.

Lemma NoDup_rounds (l : list nat) :
  NoDup l -> NoDup (map snd (tl (combine (seq 0 (List.length l)) l))).
Proof.
  destruct l as [|x l]; simpl; [constructor|].
  intros H. inversion H as [|? ? _ Hl]; subst.
  replace (map snd (combine (seq 1 (List.length l)) l)) with l; [exact Hl|].
  generalize 1. clear. induction l as [|y l IH]; intros n; simpl; [reflexivity|].
  now rewrite <- IH.
Qed.


Lemma mem_cons (k x : string) (l : list string) :
  mem k (x :: l) = (k =? x)%string || mem k l.
Proof. reflexivity. Qed.

Lemma fix_duplicate_inv (ids0 done : list string) (st : dedup) (d : string) :
  freshRenames ids0 ->
  renamingInv ids0 done st ->
  In d ids0 -> ~ In d done ->
  exists st1,
    fix_duplicate (Some st) d = Some st1 /\ renamingInv ids0 (d :: done) st1.
Proof.
  intros Hfresh [He [Hpos Hcur]] Hd Hnd.
  unfold fix_duplicate. rewrite (Hpos d Hd). eexists. split; [reflexivity|].
  set (indices := indicesFrom 0 d ids0).
  set (pairs := tl (combine (seq 0 (List.length indices)) indices)).
  pose proof (NoDup_indicesFrom 0 d ids0) as Hni. fold indices in Hni.
  split; [now apply fold_rename_elems|]. split.
  - intros d' Hd'. rewrite fold_rename_positions; [now apply Hpos|].
    intros [k p] Hin E. apply In_rounds in Hin as [H1 H2]. cbn [fst] in E.
    assert (Hk : k < occurrences d ids0).
    { rewrite <- (length_indicesFrom 0). apply nth_error_Some.
      fold indices. rewrite H2. discriminate. }
    apply (Hfresh d k H1 Hk). now rewrite E.
  - intros i d' Hi.
    rewrite fold_rename_current by (try apply NoDup_rounds; assumption).
    rewrite (Hcur i d' Hi), mem_cons.
    destruct (String.eqb_spec d' d) as [->|Hne]; cbn [orb].
    + assert (Hm : mem d done = false).
      { destruct (mem d done) eqn:E; [|reflexivity].
        apply mem_In in E. contradiction. }
      rewrite Hm.
      pose proof (nth_indicesFrom 0 d ids0 i Hi) as Hk. simpl in Hk.
      fold indices in Hk. unfold renamedId. rewrite Hi.
      destruct (find (fun kp => (snd kp =? i)%nat) pairs) as [[k' p']|] eqn:Ef.
      * apply find_some in Ef as [Hin Hp]. simpl in Hp. apply Nat.eqb_eq in Hp.
        subst p'. apply In_rounds in Hin as [H1 H2].
        assert (k' = occurrences d (firstn i ids0))
          by (eapply NoDup_nth_unique; eassumption).
        subst k'. simpl.
        destruct (occurrences d (firstn i ids0)); [lia|reflexivity].
      * destruct (occurrences d (firstn i ids0)) as [|k0] eqn:Ek; [reflexivity|].
        exfalso. assert (Hin : In (S k0, i) pairs).
        { apply In_rounds. split; [lia|exact Hk]. }
        apply (find_none _ _ Ef) in Hin. simpl in Hin.
        rewrite Nat.eqb_refl in Hin. discriminate.
    + destruct (find (fun kp => (snd kp =? i)%nat) pairs) as [[k' p']|] eqn:Ef;
        [|reflexivity].
      exfalso. apply find_some in Ef as [Hin Hp]. simpl in Hp.
      apply Nat.eqb_eq in Hp. subst p'. apply In_rounds in Hin as [_ H2].
      apply nth_error_In in H2. apply In_indicesFrom in H2 as [_ H2].
      rewrite Nat.sub_0_r, Hi in H2. injection H2 as E. contradiction.
Qed.

Lemma fold_fix_duplicate_inv (ids0 ds done : list string) (st : dedup) :
  freshRenames ids0 ->
  NoDup ds ->
  (forall d, In d ds -> In d ids0 /\ ~ In d done) ->
  renamingInv ids0 done st ->
  exists st',
    fold_left fix_duplicate ds (Some st) = Some st'
    /\ renamingInv ids0 (rev ds ++ done) st'.
Proof.
  intros Hfresh. revert done st.
  induction ds as [|d ds IH]; intros done st Hn Hd Hinv.
  - exists st. split; [reflexivity|exact Hinv].
  - inversion Hn as [|? ? Hnotin Hn']; subst.
    destruct (Hd d (or_introl eq_refl)) as [H1 H2].
    destruct (fix_duplicate_inv ids0 done st d Hfresh Hinv H1 H2) as [st1 [E1 I1]].
    destruct (IH (d :: done) st1 Hn') as [st' [E' I']]; [|exact I1|].
    + intros d' Hd'. destruct (Hd d' (or_intror Hd')) as [H3 H4].
      split; [exact H3|]. intros [<-|H5]; contradiction.
    + exists st'. cbn [fold_left]. rewrite E1. split; [exact E'|].
      simpl rev. now rewrite <- app_assoc.
Qed.


(** *** The result of the pre-processing *)

Lemma nth_error_idsFrom (l : list xml) (n i : nat) :
  nth_error (idsFrom n l) i
  = option_map (fun el => objectIdOf el (n + i)) (nth_error l i).
Proof.
  unfold idsFrom. revert n i. induction l as [|x l IH]; intros n i.
  - destruct i; reflexivity.
  - destruct i as [|i]; simpl.
    + now rewrite Nat.add_0_r.
    + rewrite IH. now rewrite Nat.add_succ_r.
Qed.

Lemma length_idsFrom (l : list xml) (n : nat) :
  List.length (idsFrom n l) = List.length l.
Proof.
  unfold idsFrom. rewrite length_map, length_combine, length_seq.
  apply Nat.min_id.
Qed.

Lemma In_keys_get {V : Type} (o : jsobj V) (k : string) :
  In k (map fst o) -> exists v, obj_get o k = Some v.
Proof.
  induction o as [|[k' v'] o IH]; simpl; [intros []|].
  destruct (String.eqb_spec k' k) as [->|Hne]; [intros _; now exists v'|].
  intros [E|H]; [contradiction|now apply IH].
Qed.

Lemma dedup_fresh (sorted : list xml) :
  Forall (fun el => isElem el = true) sorted ->
  Forall (fun d => proto_key d = false) (rawIds sorted) ->
  freshRenames (rawIds sorted) ->
  exists st,
    dedupObjectIds sorted = Some st
    /\ List.length (allEvents st) = List.length sorted
    /\ forall i d, nth_error (rawIds sorted) i = Some d ->
                   currentId (allEvents st) i
                   = Some (renamedId (rawIds sorted) i).
Proof.
  intros Hel Hproto Hfresh. set (ids0 := rawIds sorted) in *.
  destruct (scan_fold sorted 0 (mkDedup sorted [] [])) as [st1 [E1 [A1 [C1 [N1 P1]]]]].
  { intros d. reflexivity. }
  { exact Hproto. }
  simpl in A1, P1. fold (rawIds sorted) in P1. fold ids0 in P1.
  assert (Hpos : forall d, In d ids0 ->
                   obj_get (objectIdPositions st1) d = Some (indicesFrom 0 d ids0)).
  { intros d Hd. rewrite P1. apply In_nth_error in Hd as [i Hi].
    pose proof (nth_indicesFrom 0 d ids0 i Hi) as Hk.
    destruct (indicesFrom 0 d ids0); [|reflexivity].
    destruct (occurrences d (firstn i ids0)); discriminate Hk. }
  assert (Hin : forall d c, obj_get (objectIdCounts st1) d = Some c ->
                  In d ids0 /\ c = occurrences d ids0).
  { intros d c Hc. rewrite (C1 d), P1 in Hc.
    destruct (indicesFrom 0 d ids0) as [|p l] eqn:Ei; [discriminate Hc|].
    simpl in Hc. injection Hc as <-. split.
    - assert (Hp : In p (indicesFrom 0 d ids0)) by (rewrite Ei; now left).
      apply In_indicesFrom in Hp as [_ Hp]. eapply nth_error_In. exact Hp.
    - rewrite <- (length_indicesFrom 0), Ei. reflexivity. }
  unfold dedupObjectIds. fold (indexed sorted) in E1. rewrite E1.
  set (ds := filter _ (obj_keys (objectIdCounts st1))).
  destruct (fold_fix_duplicate_inv ids0 ds [] st1 Hfresh) as [st' [E' [He' [_ Hcur']]]].
  { apply NoDup_filter, NoDup_obj_keys, N1. constructor. }
  { intros d Hd. split; [|intros []].
    apply filter_In in Hd as [Hk _]. apply obj_keys_In, In_keys_get in Hk as [c Hc].
    now apply (Hin d c). }
  { split; [now rewrite A1|]. split; [exact Hpos|].
    intros i d Hi. rewrite A1. unfold ids0, rawIds in Hi.
    rewrite nth_error_idsFrom in Hi. unfold currentId. exact Hi. }
  exists st'. split; [exact E'|]. split.
  { apply fix_duplicates_length in E' as [st0 [E0 L0]]. injection E0 as <-.
    now rewrite L0, A1. }
  intros i d Hi. rewrite (Hcur' i d Hi). rewrite app_nil_r.
  destruct (mem d (rev ds)) eqn:Em; [reflexivity|].
  f_equal. unfold renamedId. rewrite Hi.
  assert (Hd : In d ids0) by (eapply nth_error_In; exact Hi).
  pose proof (Hpos d Hd) as Hp. pose proof (C1 d) as Hc. rewrite Hp in Hc.
  simpl in Hc. rewrite length_indicesFrom in Hc.
  assert (Hle : occurrences d ids0 <= 1).
  { destruct (Nat.leb_spec (occurrences d ids0) 1) as [H|H]; [exact H|].
    exfalso. assert (Hds : In d ds).
    { apply filter_In. split.
      - apply obj_keys_In. eapply obj_get_In_keys. exact Hc.
      - rewrite Hc. now apply Nat.ltb_lt. }
    apply in_rev, mem_In in Hds. rewrite Hds in Em. discriminate. }
  pose proof (occurrences_before_lt d ids0 i Hi) as Hlt.
  destruct (occurrences d (firstn i ids0)); [reflexivity|lia].
Qed.

Lemma renamedId_inj (ids : list string) (i j : nat) :
  freshRenames ids ->
  i < List.length ids -> j < List.length ids ->
  renamedId ids i = renamedId ids j -> i = j.
Proof.
  intros Hfresh Hi Hj. unfold renamedId.
  destruct (nth_error ids i) as [d|] eqn:Ei;
    [|apply nth_error_None in Ei; lia].
  destruct (nth_error ids j) as [e|] eqn:Ej;
    [|apply nth_error_None in Ej; lia].
  pose proof (nth_indicesFrom 0 d ids i Ei) as Ki.
  pose proof (nth_indicesFrom 0 e ids j Ej) as Kj.
  pose proof (occurrences_before_lt d ids i Ei) as Li.
  pose proof (occurrences_before_lt e ids j Ej) as Lj.
  simpl in Ki, Kj.
  destruct (occurrences d (firstn i ids)) as [|k] eqn:Oi;
    destruct (occurrences e (firstn j ids)) as [|k'] eqn:Oj; intros E.
  - subst e. rewrite Ki in Kj. now injection Kj.
  - exfalso. apply (Hfresh e (S k')); [lia|exact Lj|].
    rewrite <- E. eapply nth_error_In. exact Ei.
  - exfalso. apply (Hfresh d (S k)); [lia|exact Li|].
    rewrite E. eapply nth_error_In. exact Ej.
  - apply renamed_inj in E as [-> E]. rewrite E in Ki. rewrite Ki in Kj.
    now injection Kj.
Qed.

Lemma NoDup_map_seq {A : Type} (f : nat -> A) (a n : nat) :
  (forall i j, a <= i < a + n -> a <= j < a + n -> f i = f j -> i = j) ->
  NoDup (map f (seq a n)).
Proof.
  revert a. induction n as [|n IH]; intros a H; simpl; [constructor|].
  constructor.
  - intros Hin. apply in_map_iff in Hin as [j [Hj Hs]]. apply in_seq in Hs.
    assert (j = a) by (apply H; [lia|lia|exact Hj]). lia.
  - apply IH. intros i j Hi Hj. apply H; lia.
Qed.

Lemma event_elements_are_elements (eventsElement : xml) :
  Forall (fun el => isElem el = true)
         (sort_by timeKey
            (getElementsByTagName eventsElement "propagation-event"
             ++ getElementsByTagName eventsElement "method-event"
             ++ getElementsByTagName eventsElement "tag-event")).
Proof.
  apply Forall_forall. intros el H. apply In_sort_by in H.
  assert (T : forall name, In el (getElementsByTagName eventsElement name) ->
                           isElem el = true).
  { intros name Hn. apply filter_In in Hn as [_ Hn]. now destruct el. }
  apply in_app_or in H as [H|H]; [now apply (T _ H)|].
  apply in_app_or in H as [H|H]; now apply (T _ H).
Qed.

(** The renaming rule and the uniqueness of the ids, under the condition
    that the code does not check: when no raw id names a property of
    [Object.prototype] and no id made by the renaming is already in use,
    the first occurrence of every id keeps it, occurrence number k + 1
    gets the id followed by a hyphen and k, and the returned ids are
    pairwise different. *)
Theorem renaming_rule_when_fresh (eventsElement : xml) :
  let ids :=
    rawIds (sort_by timeKey
              (getElementsByTagName eventsElement "propagation-event"
               ++ getElementsByTagName eventsElement "method-event"
               ++ getElementsByTagName eventsElement "tag-event")) in
  Forall (fun d => proto_key d = false) ids ->
  freshRenames ids ->
  map Event.objectId (extractEvents eventsElement)
  = map (renamedId ids) (seq 0 (List.length ids))
  /\ NoDup (map Event.objectId (extractEvents eventsElement)).
Proof.
  intros ids Hproto Hfresh. unfold extractEvents.
  set (sorted := sort_by timeKey _) in *.
  destruct (dedup_fresh sorted (event_elements_are_elements eventsElement)
                        Hproto Hfresh) as [st [E [L Hcur]]].
  rewrite E.
  assert (Hids : map Event.objectId (map makeEvent (indexed (allEvents st)))
                 = map (renamedId ids) (seq 0 (List.length ids))).
  { rewrite map_map.
    rewrite (map_ext _ (fun ie => objectIdOf (snd ie) (fst ie)))
      by (intros [i el]; reflexivity).
    change (map (fun ie : nat * xml => objectIdOf (snd ie) (fst ie))
                (indexed (allEvents st)))
      with (idsFrom 0 (allEvents st)).
    apply nth_error_ext. intros i.
    rewrite nth_error_idsFrom, nth_error_map, nth_error_seq. simpl.
    unfold ids at 2. unfold rawIds. rewrite length_idsFrom.
    destruct (Nat.ltb_spec i (List.length sorted)) as [Hlt|Hge].
    - destruct (nth_error ids i) as [d|] eqn:Ei.
      + apply (Hcur i d Ei).
      + apply nth_error_None in Ei. unfold ids, rawIds in Ei.
        rewrite length_idsFrom in Ei. lia.
    - simpl. assert (Hn : nth_error (allEvents st) i = None)
        by (apply nth_error_None; lia).
      now rewrite Hn. }
  split; [exact Hids|]. rewrite Hids. apply NoDup_map_seq.
  intros i j Hi Hj. apply renamedId_inj; [exact Hfresh|lia|lia].
Qed.

(** The condition holds for the ids 42, 42 of the scenario, and the rule
    gives 42 and 42-1. *)
Example renaming_rule_42_42 :
  map Event.objectId (extractEvents Samples.ids_42_42) = ["42"; "42-1"]
  /\ NoDup (map Event.objectId (extractEvents Samples.ids_42_42)).
Proof.
  apply (renaming_rule_when_fresh Samples.ids_42_42).
  - repeat constructor.
  - intros d k H1 H2 Hin. vm_compute in Hin.
    destruct Hin as [E|[E|[]]]; symmetry in E;
      apply (f_equal (lacks "-")) in E; rewrite lacks_app in E;
      simpl in E; rewrite andb_false_r in E; discriminate E.
Qed.

(** Under the same condition the parsed events satisfy the precondition of
    the statements about [buildEdges]. *)
Corollary parsed_events_have_unique_ids (eventsElement : xml) :
  let ids :=
    rawIds (sort_by timeKey
              (getElementsByTagName eventsElement "propagation-event"
               ++ getElementsByTagName eventsElement "method-event"
               ++ getElementsByTagName eventsElement "tag-event")) in
  Forall (fun d => proto_key d = false) ids ->
  freshRenames ids ->
  uniqueIds (extractEvents eventsElement).
Proof.
  intros ids Hproto Hfresh. split.
  - apply (renaming_rule_when_fresh eventsElement Hproto Hfresh).
  - apply extractEvents_ids_not___proto__.
Qed.

End FreshRenaming.

(** ** The order of the parsed events *)

Section TimeOrder.






Lemma map_update_nth_inv {A B : Type} (g : A -> B) (f : A -> A) (l : list A)
      (n : nat) :
  (forall x, g (f x) = g x) -> map g (update_nth n f l) = map g l.
Proof.
  intros H. revert n. induction l as [|x l IH]; intros [|n]; simpl;
    rewrite ?H, ?IH; reflexivity.
Qed.










End TimeOrder.

(** ** Identifiers of the parsed events *)

Section ParsedIdentifiers.




(** X4.  No event returned by [extractEvents] is named after a property of
    [Object.prototype] ([constructor], [toString], [__proto__], ...). *)
Theorem parsed_ids_name_no_prototype_property (eventsElement : xml) :
  Forall (fun e => proto_key (Event.objectId e) = false)
         (extractEvents eventsElement).
Proof.
  apply Forall_forall. intros e He.
  exact (extractEvents_ids_not_proto eventsElement e He).
Qed.

(** X5.  One event element whose id names a property of
    [Object.prototype] makes the identifier pre-processing throw; the
    catch block of [extractEvents] then returns the empty array, so the
    trace loses all its events. *)
Theorem prototype_named_id_empties_the_event_list (eventsElement : xml) :
  let ids :=
    rawIds (sort_by timeKey
              (getElementsByTagName eventsElement "propagation-event"
               ++ getElementsByTagName eventsElement "method-event"
               ++ getElementsByTagName eventsElement "tag-event")) in
  Exists (fun d => proto_key d = true) ids ->
  extractEvents eventsElement = [].
Proof.
  intros ids Hex. unfold extractEvents. fold (sortedElements eventsElement).
  set (sorted := sortedElements eventsElement) in *.
  destruct (dedupObjectIds sorted) as [st|] eqn:E; [exfalso|reflexivity].
  unfold dedupObjectIds in E.
  destruct (fold_left scan_event (indexed sorted) (Some (mkDedup sorted [] [])))
    as [st1|] eqn:E1; [|discriminate E].
  apply Exists_exists in Hex as [d [Hd Hp]].
  unfold ids, rawIds, idsFrom in Hd. fold (sortedElements eventsElement) in Hd.
  fold sorted in Hd.
  apply in_map_iff in Hd as [[i el] [<- Hin]]. simpl in Hp.
  assert (H : proto_key (objectIdOf el i) = false).
  { eapply scan_events_ids; [|exact E1|exact Hin].
    intros k c Hk. discriminate Hk. }
  rewrite H in Hp. discriminate Hp.
Qed.

Lemma prototype_named_id_empties_the_event_list_witness :
  extractEvents
    (Samples.eventsOf [Samples.ev "1" "Creation" [];
                       Samples.ev "toString" "P2O" ["1"]]) = [].
Proof.
  apply prototype_named_id_empties_the_event_list.
  vm_compute. apply Exists_cons_tl. apply Exists_cons_hd. reflexivity.
Defined.

End ParsedIdentifiers.

(** ** The decoded payloads are escaped *)

Section Escaping.

Lemma escape_char_lacks (ch c : ascii) :
  In ch ["<"; ">"; ascii_of_nat 34; "'"]%char ->
  lacks ch (escape_char c) = true.
Proof.
  intros Hch. unfold escape_char.
  destruct (Ascii.eqb_spec c "<") as [->|H1];
    [destruct Hch as [<-|[<-|[<-|[<-|[]]]]]; reflexivity|].
  destruct (Ascii.eqb_spec c ">") as [->|H2];
    [destruct Hch as [<-|[<-|[<-|[<-|[]]]]]; reflexivity|].
  destruct (Ascii.eqb_spec c "&") as [->|H3];
    [destruct Hch as [<-|[<-|[<-|[<-|[]]]]]; reflexivity|].
  destruct (Ascii.eqb_spec c (ascii_of_nat 34)) as [->|H4];
    [destruct Hch as [<-|[<-|[<-|[<-|[]]]]]; reflexivity|].
  destruct (Ascii.eqb_spec c "'") as [->|H5];
    [destruct Hch as [<-|[<-|[<-|[<-|[]]]]]; reflexivity|].
  simpl. rewrite andb_true_r. apply negb_true_iff. apply Ascii.eqb_neq.
  destruct Hch as [<-|[<-|[<-|[<-|[]]]]]; assumption.
Qed.

Lemma sanitize_lacks (ch : ascii) (s : string) :
  In ch ["<"; ">"; ascii_of_nat 34; "'"]%char ->
  lacks ch (sanitize s) = true.
Proof.
  intros Hch. induction s as [|c s IH]; simpl; [reflexivity|].
  now rewrite lacks_app, escape_char_lacks, IH.
Qed.

Lemma decodeContent_lacks (ch : ascii) (encodedContent s : string) :
  In ch ["<"; ">"; ascii_of_nat 34; "'"]%char ->
  decodeContent encodedContent = Some s -> lacks ch s = true.
Proof.
  intros Hch. unfold decodeContent.
  destruct (encodedContent =? "")%string; [discriminate|].
  intros H. injection H as <-.
  destruct (String.eqb_spec
              match atob encodedContent with
              | Some v => v
              | None => encodedContent
              end "") as [->|_]; [reflexivity|].
  now apply sanitize_lacks.
Qed.

Lemma extractContent_lacks (ch : ascii) (eventEl : xml) (tag s : string)
      (c : Content.t) :
  In ch ["<"; ">"; ascii_of_nat 34; "'"]%char ->
  extractContent eventEl tag = Some c ->
  Content.decoded c = Some s -> lacks ch s = true.
Proof.
  intros Hch. unfold extractContent.
  destruct (querySelector eventEl tag) as [el|]; [|discriminate].
  intros H. injection H as <-. simpl. now apply decodeContent_lacks.
Qed.

(** X6.  The decoded text of the [object] and of the [return] payload of
    every parsed event contains none of the characters less-than,
    greater-than, double quote and apostrophe, whether the payload was
    Base64 or not. *)
Theorem decoded_payload_has_no_markup (eventsElement : xml) (event : Event.t)
        (c : Content.t) (s : string) (ch : ascii) :
  In event (extractEvents eventsElement) ->
  Event.objectData event = Some c \/ Event.returnData event = Some c ->
  Content.decoded c = Some s ->
  In ch ["<"; ">"; ascii_of_nat 34; "'"]%char ->
  lacks ch s = true.
Proof.
  intros He Hc Hs Hch.
  apply extractEvents_made in He as [i [el ->]]. simpl in Hc.
  destruct Hc as [Hc|Hc]; exact (extractContent_lacks ch el _ s c Hch Hc Hs).
Qed.

Lemma decoded_payload_has_no_markup_witness :
  lacks "<" "&lt;b&gt;" = true.
Proof.
  apply (decoded_payload_has_no_markup
           (Samples.eventsOf [Samples.undecodable])
           (makeEvent (0, Samples.undecodable))
           (Content.mk true "" "<b>" (Some "&lt;b&gt;"))
           "&lt;b&gt;" "<").
  - left. reflexivity.
  - left. reflexivity.
  - reflexivity.
  - left. reflexivity.
Defined.

End Escaping.

(** ** The shape of the edge list *)

Section EdgeShape.

Lemma followingEventId_In (events : list Event.t) (tb : tables)
      (fuel i : nat) (t : string) :
  followingEventId events tb fuel i = Some t ->
  In t (map Event.objectId events).
Proof.
  revert i. induction fuel as [|fuel IH]; simpl; intros i H; [discriminate H|].
  destruct (find (positionIs tb i) events) as [e|] eqn:E.
  - injection H as <-. apply find_some in E as [E _]. now apply in_map.
  - now apply IH in H.
Qed.

(** X7.  Every edge returned by [buildEdges] is the edge from the request
    to the route, or the hard-wired edge between the groups 853 and 951,
    or enters an event of the list: no other edge enters the route, and
    none enters the request unless an event is called [request]. *)
Theorem edges_enter_events (events : list Event.t) :
  Forall (fun e => e = Edge.mk "request" "route"
                   \/ e = edge853_951
                   \/ In (Edge.target e) (map Event.objectId events))
         (buildEdges events).
Proof.
  apply Forall_forall. intros e He.
  apply buildEdges_explained in He as [[H|[H|H]]|H].
  - now left.
  - destruct H as [ev [Hin [Ht _]]]. right. right. rewrite Ht.
    now apply in_map.
  - destruct H as [ev [_ [_ [_ Hn]]]]. right. right.
    unfold nextNodeId in Hn.
    destruct (obj_get _ _); [|discriminate Hn].
    now apply followingEventId_In in Hn.
  - right. now left.
Qed.

Lemma processEvent_appends events tb sorted srcs st event :
  exists l, edges (processEvent events tb sorted srcs st event) = edges st ++ l.
Proof.
  unfold processEvent.
  destruct (isViolation event); [eexists; reflexivity|].
  destruct (Event.parentObjectIds event); [|eexists; reflexivity].
  destruct (isSource event); [eexists; reflexivity|].
  destruct (mem _ (nodesMissingObjectId tb)); [eexists; reflexivity|].
  destruct (_ && _); exists []; simpl; now rewrite app_nil_r.
Qed.

Lemma fold_processEvent_appends events tb sorted srcs l st :
  exists l', edges (fold_left (processEvent events tb sorted srcs) l st)
             = edges st ++ l'.
Proof.
  revert st. induction l as [|ev l IH]; intros st; simpl.
  - exists []. now rewrite app_nil_r.
  - destruct (IH (processEvent events tb sorted srcs st ev)) as [l2 H2].
    destruct (processEvent_appends events tb sorted srcs st ev) as [l1 H1].
    exists (l1 ++ l2). now rewrite H2, H1, app_assoc.
Qed.

Lemma fold_specialEdge_appends (events : list Event.t) (edges : list Edge.t) :
  exists l, fold_left specialEdge events edges = edges ++ l.
Proof.
  revert edges. induction events as [|ev events IH]; intros edges; simpl.
  - exists []. now rewrite app_nil_r.
  - destruct (IH (specialEdge edges ev)) as [l H]. rewrite H.
    unfold specialEdge. destruct (_ && _); [|now exists l].
    destruct (existsb _ _); [now exists l|].
    exists ([edge853_951] ++ l). now rewrite app_assoc.
Qed.

Lemma buildEdges_head (events : list Event.t) :
  exists rest, buildEdges events = Edge.mk "request" "route" :: rest.
Proof.
  unfold buildEdges.
  set (sorted := sort_by _ events).
  set (srcs := map Event.objectId (filter isSource sorted)).
  destruct (fold_processEvent_appends events (build_tables events) sorted srcs
              sorted (mkProgress [Edge.mk "request" "route"] "route" []))
    as [l1 H1].
  destruct (fold_specialEdge_appends events
              (edges (fold_left
                        (processEvent events (build_tables events) sorted srcs)
                        sorted
                        (mkProgress [Edge.mk "request" "route"] "route" []))
               ++ map (fun n => Edge.mk (snd n) (fst n))
                      (nodesWithoutParents
                         (fold_left
                            (processEvent events (build_tables events) sorted srcs)
                            sorted
                            (mkProgress [Edge.mk "request" "route"] "route" [])))))
    as [l2 H2].
  rewrite H2, H1. simpl. eexists. reflexivity.
Qed.

(** X8.  The edge list always starts with the edge from the request to
    the route, also for a trace without events. *)
Theorem edge_list_starts_at_the_request (events : list Event.t) :
  exists rest, buildEdges events = Edge.mk "request" "route" :: rest.
Proof. exact (buildEdges_head events). Qed.

Lemma fold_processEvent_adds events tb sorted srcs l st event (e : Edge.t) :
  In event l ->
  (forall st', In e (edges (processEvent events tb sorted srcs st' event))) ->
  In e (edges (fold_left (processEvent events tb sorted srcs) l st)).
Proof.
  intros Hin He. revert st. induction l as [|ev l IH]; intros st; [destruct Hin|].
  simpl. destruct Hin as [->|Hin].
  - apply fold_processEvent_edges_mono. apply He.
  - now apply IH.
Qed.

(** X9.  A source event that is no trigger and lists no parent is linked
    from the route. *)
Theorem parentless_source_hangs_off_the_route (events : list Event.t)
        (event : Event.t) :
  In event events ->
  isSource event = true ->
  isViolation event = false ->
  Event.parentObjectIds event = [] ->
  In (Edge.mk "route" (Event.objectId event)) (buildEdges events).
Proof.
  intros Hin Hs Hv Hp. unfold buildEdges.
  apply fold_specialEdge_mono. apply in_or_app. left.
  apply (fold_processEvent_adds _ _ _ _ _ _ event).
  - now apply In_sort_by.
  - intros st'. unfold processEvent. rewrite Hv, Hp, Hs. simpl.
    apply in_or_app. right. now left.
Qed.

Lemma parentless_source_hangs_off_the_route_witness :
  In (Edge.mk "route" "1")
     (buildEdges [Event.mk "1" "0" "Creation" false false true "" [] [] None None]).
Proof.
  apply (parentless_source_hangs_off_the_route
           [Event.mk "1" "0" "Creation" false false true "" [] [] None None]
           (Event.mk "1" "0" "Creation" false false true "" [] [] None None)).
  - left. reflexivity.
  - reflexivity.
  - reflexivity.
  - reflexivity.
Defined.

End EdgeShape.

(** ** What the grouping pass leaves alone *)

Section GroupingFrame.
Import GraphRenderer.

Lemma fold_classify_none (nodes : list Node.t) (o : jsobj group) (b : string) :
  (forall n, In n nodes -> match_base (Node.id n) <> Some b) ->
  obj_get (fold_left classify nodes o) b = obj_get o b.
Proof.
  revert o. induction nodes as [|n nodes IH]; intros o H; simpl; [reflexivity|].
  rewrite IH by (intros n' Hn'; apply H; now right).
  apply classify_other. apply H. now left.
Qed.

(** The entry of [baseIdGroups] for an object holds the source nodes and
    the other nodes of the object, in the order of the node list. *)
Lemma baseIdGroupsOf_entry (nodes : list Node.t) (b : string) (g : group) :
  obj_get (baseIdGroupsOf nodes) b = Some g ->
  g = mkGroup (map (tagged b) (sourcesOf nodes b))
              (map (tagged b) (membersOf nodes b)).
Proof.
  destruct (existsb (fun n => base_is (match_base (Node.id n)) b) nodes) eqn:E.
  - apply existsb_exists in E as [n [Hn Hb]]. apply base_is_true in Hb.
    rewrite (baseIdGroupsOf_get nodes b n Hn Hb). intros H. now injection H.
  - intros H. unfold baseIdGroupsOf in H. rewrite fold_classify_none in H.
    + discriminate H.
    + intros n Hn Hb. apply base_is_true in Hb.
      assert (Ht : existsb (fun n => base_is (match_base (Node.id n)) b) nodes
                   = true)
        by (apply existsb_exists; now exists n).
      rewrite Ht in E. discriminate E.
Qed.

Lemma collapseGroup_small (G : jsobj group) (edges : list Edge.t)
      (ch : changes) (b : string) :
  (forall g, obj_get G b = Some g -> List.length (others g) <= 1) ->
  collapseGroup G edges ch b = ch.
Proof.
  intros H. unfold collapseGroup. destruct (obj_get G b) as [g|]; [|reflexivity].
  specialize (H g eq_refl).
  destruct (others g) as [|first [|second rest]]; try reflexivity.
  simpl in H. lia.
Qed.

Lemma fold_collapseGroup_small (G : jsobj group) (edges : list Edge.t)
      (ks : list string) (ch : changes) :
  (forall b g, obj_get G b = Some g -> List.length (others g) <= 1) ->
  fold_left (collapseGroup G edges) ks ch = ch.
Proof.
  intros H. induction ks as [|k ks IH]; simpl; [reflexivity|].
  rewrite collapseGroup_small by apply H. exact IH.
Qed.

Lemma filter_all {A : Type} (p : A -> bool) (l : list A) :
  (forall x, In x l -> p x = true) -> filter p l = l.
Proof.
  induction l as [|x l IH]; simpl; intros H; [reflexivity|].
  rewrite (H x (or_introl eq_refl)). f_equal. apply IH.
  intros y Hy. apply H. now right.
Qed.

Lemma changesOf_small (nodes : list Node.t) (edges : list Edge.t) :
  (forall b, List.length (membersOf nodes b) <= 1) ->
  changesOf nodes edges = mkChanges [] [] [] [].
Proof.
  intros H. unfold changesOf. apply fold_collapseGroup_small.
  intros b g Hg. apply baseIdGroupsOf_entry in Hg. subst g. simpl.
  rewrite length_map. apply H.
Qed.

Lemma groupSimilarNodes_small (nodes : list Node.t) (edges : list Edge.t) :
  (forall b, List.length (membersOf nodes b) <= 1) ->
  groupSimilarNodes nodes edges
  = (map tagNode nodes,
     specialFix (map tagNode nodes) (uniqueFrom [] [] edges)).
Proof.
  intros H. unfold groupSimilarNodes. rewrite (changesOf_small nodes edges H).
  unfold newNodesOf, uniqueEdgesOf. simpl. rewrite !app_nil_r.
  rewrite (filter_all _ (map tagNode nodes)) by reflexivity.
  rewrite (filter_all _ edges) by reflexivity.
  rewrite (map_ext (applyUpdate []) (fun e => e)) by reflexivity.
  now rewrite map_id.
Qed.

(** X10.  When no object has more than one node that is no source node,
    the grouping pass removes and adds no node: the nodes are only tagged
    with their base id, and the edges only go through the duplicate
    filter and the special case of the groups 853 and 951. *)
Theorem grouping_without_repeats_keeps_the_nodes (nodes : list Node.t)
        (edges : list Edge.t) :
  (forall b, List.length (membersOf nodes b) <= 1) ->
  groupSimilarNodes nodes edges
  = (map tagNode nodes,
     specialFix (map tagNode nodes) (uniqueFrom [] [] edges)).
Proof. exact (groupSimilarNodes_small nodes edges). Qed.

Lemma grouping_without_repeats_keeps_the_nodes_witness :
  groupSimilarNodes (buildNodes (Samples.eventsIn Samples.orphan))
                    (buildEdges (Samples.eventsIn Samples.orphan))
  = (map tagNode (buildNodes (Samples.eventsIn Samples.orphan)),
     specialFix (map tagNode (buildNodes (Samples.eventsIn Samples.orphan)))
                (uniqueFrom [] [] (buildEdges (Samples.eventsIn Samples.orphan)))).
Proof.
  apply grouping_without_repeats_keeps_the_nodes.
  intros b. unfold membersOf. simpl.
  match goal with |- List.length (if ?c then _ else _) <= 1 => destruct c end;
    simpl; lia.
Defined.

(** What step 2 puts on the list of nodes to remove. *)
Lemma fold_collapseGroup_removed (G : jsobj group) (edges : list Edge.t)
      (ks : list string) (ch : changes) (k : string) :
  In k (nodesToRemove (fold_left (collapseGroup G edges) ks ch)) ->
  In k (nodesToRemove ch)
  \/ exists b g, In b ks /\ obj_get G b = Some g
                 /\ 1 < List.length (others g)
                 /\ In k (map Node.id (others g)).
Proof.
  revert ch. induction ks as [|b ks IH]; simpl; intros ch H; [now left|].
  apply IH in H as [H|[b' [g [H1 H2]]]].
  - unfold collapseGroup in H. destruct (obj_get G b) as [g|] eqn:Eg; [|now left].
    destruct (others g) as [|first [|second rest]] eqn:Eo; simpl in H;
      try now left.
    apply in_app_or in H as [H|H]; [now left|]. right. exists b, g.
    rewrite Eo. split; [now left|]. split; [exact Eg|]. split; [simpl; lia|exact H].
  - right. exists b', g. split; [now right|exact H2].
Qed.

Lemma removed_is_member (nodes : list Node.t) (edges : list Edge.t) (k : string) :
  In k (nodesToRemove (changesOf nodes edges)) ->
  exists b n, In n (membersOf nodes b) /\ Node.id n = k
              /\ 1 < List.length (membersOf nodes b).
Proof.
  intros H. unfold changesOf in H.
  apply fold_collapseGroup_removed in H as [[]|[b [g [_ [Hg [Hl Hk]]]]]].
  apply baseIdGroupsOf_entry in Hg. subst g. simpl in Hl, Hk.
  rewrite length_map in Hl. rewrite map_id_tagged in Hk.
  apply in_map_iff in Hk as [n [Hn1 Hn2]]. now exists b, n.
Qed.

Lemma mem_false (k : string) (l : list string) : mem k l = false <-> ~ In k l.
Proof.
  split.
  - intros H Hin. apply mem_In in Hin. rewrite Hin in H. discriminate H.
  - intros H. destruct (mem k l) eqn:E; [|reflexivity].
    apply mem_In in E. contradiction.
Qed.

(** X11.  A node whose id is not of the form digits or digits-digits (the
    request, the route, an event named [event-N], ...) is still in the
    node list after the grouping pass, unchanged. *)
Theorem unnumbered_nodes_survive_grouping (nodes : list Node.t)
        (edges : list Edge.t) (node : Node.t) :
  In node nodes ->
  match_base (Node.id node) = None ->
  In node (fst (groupSimilarNodes nodes edges)).
Proof.
  intros Hin Hm. unfold groupSimilarNodes, newNodesOf. simpl.
  apply in_or_app. left. apply filter_In. split.
  - apply in_map_iff. exists node. split; [|exact Hin].
    unfold tagNode. now rewrite Hm.
  - apply negb_true_iff. apply mem_false. intros Hr.
    apply removed_is_member in Hr as [b [n [Hn [Hid _]]]].
    unfold membersOf in Hn. apply filter_In in Hn as [_ Hn].
    apply andb_true_iff in Hn as [Hn _]. apply base_is_true in Hn.
    rewrite Hid, Hm in Hn. discriminate Hn.
Qed.

Lemma unnumbered_nodes_survive_grouping_witness :
  In routeNode
     (fst (groupSimilarNodes (buildNodes (Samples.eventsIn Samples.object7))
                             (buildEdges (Samples.eventsIn Samples.object7)))).
Proof.
  apply unnumbered_nodes_survive_grouping.
  - right. left. reflexivity.
  - reflexivity.
Defined.

(** X12.  When the node ids are pairwise different, every source node
    survives the grouping pass (tagged with its base id when it has one):
    only nodes that are no source nodes are collapsed. *)
Theorem source_nodes_survive_grouping (nodes : list Node.t)
        (edges : list Edge.t) (node : Node.t) :
  NoDup (map Node.id nodes) ->
  In node nodes ->
  isSourceNode node = true ->
  In (tagNode node) (fst (groupSimilarNodes nodes edges)).
Proof.
  intros Hnd Hin Hs. unfold groupSimilarNodes, newNodesOf. simpl.
  apply in_or_app. left. apply filter_In. split; [now apply in_map|].
  apply negb_true_iff. apply mem_false. intros Hr.
  assert (Hid : Node.id (tagNode node) = Node.id node)
    by (unfold tagNode; destruct (match_base _); reflexivity).
  rewrite Hid in Hr.
  apply removed_is_member in Hr as [b [n [Hn [Hk _]]]].
  unfold membersOf in Hn. apply filter_In in Hn as [Hn1 Hn2].
  apply andb_true_iff in Hn2 as [_ Hn2].
  assert (n = node).
  { apply In_nth_error in Hn1 as [i Hi]. apply In_nth_error in Hin as [j Hj].
    assert (Hij : i = j).
    { apply (proj1 (NoDup_nth_error (map Node.id nodes)) Hnd).
      - apply nth_error_Some. rewrite nth_error_map, Hi. discriminate.
      - rewrite !nth_error_map, Hi, Hj. simpl. now rewrite Hk. }
    subst j. congruence. }
  subst n. rewrite Hs in Hn2. discriminate Hn2.
Qed.

Lemma source_nodes_survive_grouping_witness :
  let nodes := buildNodes (Samples.eventsIn Samples.object7) in
  exists source,
    nth_error nodes 2 = Some source
    /\ In (tagNode source)
          (fst (groupSimilarNodes nodes
                                  (buildEdges (Samples.eventsIn Samples.object7)))).
Proof.
  intros nodes.
  destruct (nth_error nodes 2) as [source|] eqn:E; [|discriminate E].
  exists source. split; [reflexivity|].
  apply source_nodes_survive_grouping.
  - vm_compute.
    repeat (constructor;
            [intros H; repeat (destruct H as [H|H]; [discriminate H|]); exact H|]).
    constructor.
  - apply nth_error_In with (n := 2). exact E.
  - injection E as <-. reflexivity.
Defined.

End GroupingFrame.

(** ** The grouping pass run twice *)

Section GroupingTwice.
Import GraphRenderer.

Lemma tagNode_id (n : Node.t) : Node.id (tagNode n) = Node.id n.
Proof. unfold tagNode. destruct (match_base _); reflexivity. Qed.

Lemma tagNode_idem (n : Node.t) : tagNode (tagNode n) = tagNode n.
Proof.
  unfold tagNode at 2. destruct (match_base (Node.id n)) as [b|] eqn:E.
  - unfold tagNode. simpl. rewrite E. reflexivity.
  - unfold tagNode. now rewrite E.
Qed.

Lemma tagNode_isSource (n : Node.t) : isSourceNode (tagNode n) = isSourceNode n.
Proof. unfold tagNode. destruct (match_base _); reflexivity. Qed.

Lemma added_is_group (nodes : list Node.t) (edges : list Edge.t) (n : Node.t) :
  In n (nodesToAdd (changesOf nodes edges)) ->
  exists k, Node.id n = (k ++ "-group")%string.
Proof.
  intros H. unfold changesOf in H.
  apply fold_collapseGroup_added in H as [[]|H]. exact H.
Qed.

(** The members of a repeated object are all on the list of nodes to
    remove. *)
Lemma members_are_removed (nodes : list Node.t) (edges : list Edge.t)
      (b : string) (m : Node.t) :
  1 < List.length (membersOf nodes b) ->
  In m (membersOf nodes b) ->
  In (Node.id m) (nodesToRemove (changesOf nodes edges)).
Proof.
  intros Hlen Hm.
  assert (Hmb : In m nodes /\ match_base (Node.id m) = Some b).
  { apply filter_In in Hm as [H1 H2]. apply andb_true_iff in H2 as [H2 _].
    split; [exact H1|now apply base_is_true]. }
  destruct Hmb as [Hm1 Hm2].
  pose proof (baseIdGroupsOf_get nodes b m Hm1 Hm2) as HG.
  destruct (membersOf nodes b) as [|first [|second rest]] eqn:Em;
    simpl in Hlen; try lia.
  assert (Hk : In b (obj_keys (baseIdGroupsOf nodes))).
  { apply obj_keys_In. eapply obj_get_In_keys. exact HG. }
  destruct (fold_collapseGroup_at (baseIdGroupsOf nodes) edges
              (obj_keys (baseIdGroupsOf nodes)) (mkChanges [] [] [] [])
              b _ _ _ _ Hk HG eq_refl) as [_ [Hrem _]].
  apply Hrem. simpl. rewrite map_id_tagged.
  change (In (Node.id m) (map Node.id (first :: second :: rest))).
  now apply in_map.
Qed.

Lemma filter_none {A : Type} (p : A -> bool) (l : list A) :
  (forall x, In x l -> p x = false) -> filter p l = [].
Proof.
  induction l as [|x l IH]; simpl; intros H; [reflexivity|].
  rewrite (H x (or_introl eq_refl)). apply IH.
  intros y Hy. apply H. now right.
Qed.

Lemma length_filter_filter {A : Type} (p q : A -> bool) (l : list A) :
  List.length (filter p (filter q l)) <= List.length (filter p l).
Proof.
  induction l as [|x l IH]; simpl; [lia|].
  destruct (q x); simpl; destruct (p x); simpl; lia.
Qed.

Lemma membersOf_tagNode (nodes : list Node.t) (b : string) :
  membersOf (map tagNode nodes) b = map tagNode (membersOf nodes b).
Proof.
  unfold membersOf. induction nodes as [|n nodes IH]; simpl; [reflexivity|].
  rewrite tagNode_id, tagNode_isSource.
  destruct (_ && _); simpl; now rewrite IH.
Qed.

(** After the pass no object has more than one node left that is no
    source node. *)
Lemma grouped_has_no_repeats (nodes : list Node.t) (edges : list Edge.t)
      (b : string) :
  List.length (membersOf (newNodesOf nodes (changesOf nodes edges)) b) <= 1.
Proof.
  unfold newNodesOf. unfold membersOf at 1. rewrite filter_app, length_app.
  fold (membersOf (nodesToAdd (changesOf nodes edges)) b).
  assert (Ha : membersOf (nodesToAdd (changesOf nodes edges)) b = []).
  { unfold membersOf. apply filter_none.
    intros n Hn. apply added_is_group in Hn as [k Hk].
    rewrite Hk, match_base_group_id. reflexivity. }
  rewrite Ha. simpl. rewrite Nat.add_0_r.
  destruct (Nat.le_gt_cases (List.length (membersOf nodes b)) 1) as [Hle|Hgt].
  - eapply Nat.le_trans; [apply length_filter_filter|].
    fold (membersOf (map tagNode nodes) b).
    now rewrite membersOf_tagNode, length_map.
  - match goal with |- List.length ?l <= 1 => destruct l as [|x l'] eqn:E end;
      [simpl; lia|exfalso].
    assert (Hx : In x (x :: l')) by now left.
    rewrite <- E in Hx. apply filter_In in Hx as [Hx1 Hx2].
    apply filter_In in Hx1 as [Hx1 Hx3].
    apply in_map_iff in Hx1 as [n [<- Hn]].
    rewrite tagNode_id, tagNode_isSource in Hx2.
    assert (Hm : In n (membersOf nodes b)) by (apply filter_In; now split).
    apply (members_are_removed nodes edges b n Hgt) in Hm.
    rewrite tagNode_id in Hx3. apply mem_In in Hm. rewrite Hm in Hx3.
    discriminate Hx3.
Qed.

Lemma map_fixed {A : Type} (f : A -> A) (l : list A) :
  (forall x, In x l -> f x = x) -> map f l = l.
Proof.
  induction l as [|x l IH]; simpl; intros H; [reflexivity|].
  rewrite (H x (or_introl eq_refl)). f_equal. apply IH.
  intros y Hy. apply H. now right.
Qed.

Lemma grouped_is_tagged (nodes : list Node.t) (edges : list Edge.t) :
  map tagNode (newNodesOf nodes (changesOf nodes edges))
  = newNodesOf nodes (changesOf nodes edges).
Proof.
  apply map_fixed. intros x Hx. unfold newNodesOf in Hx.
  apply in_app_or in Hx as [Hx|Hx].
  - apply filter_In in Hx as [Hx _]. apply in_map_iff in Hx as [n [<- _]].
    apply tagNode_idem.
  - apply added_is_group in Hx as [k Hk]. unfold tagNode.
    now rewrite Hk, match_base_group_id.
Qed.

Lemma uniqueFrom_keys_NoDup (l : list Edge.t) (seen : list string)
      (acc : list Edge.t) :
  NoDup (map edgeKey acc) ->
  (forall e, In e acc -> In (edgeKey e) seen) ->
  NoDup (map edgeKey (uniqueFrom seen acc l)).
Proof.
  revert seen acc. induction l as [|e l IH]; simpl; intros seen acc Hnd Hs;
    [exact Hnd|].
  destruct (mem (edgeKey e) seen) eqn:E; [now apply IH|].
  apply IH.
  - rewrite map_app. simpl. apply NoDup_snoc; [exact Hnd|].
    intros Hin. apply in_map_iff in Hin as [e' [He' Hin]].
    apply Hs in Hin. rewrite He' in Hin. apply mem_In in Hin.
    rewrite Hin in E. discriminate E.
  - intros e' He'. apply in_app_or in He' as [He'|[<-|[]]].
    + right. now apply Hs.
    + now left.
Qed.

Lemma uniqueFrom_fixed (l : list Edge.t) (seen : list string)
      (acc : list Edge.t) :
  NoDup (map edgeKey l) ->
  (forall e, In e l -> ~ In (edgeKey e) seen) ->
  uniqueFrom seen acc l = acc ++ l.
Proof.
  revert seen acc. induction l as [|e l IH]; simpl; intros seen acc Hnd Hs.
  - now rewrite app_nil_r.
  - inversion Hnd as [|? ? Hk Hl]; subst.
    rewrite (proj2 (mem_false _ _) (Hs e (or_introl eq_refl))).
    rewrite IH; [now rewrite <- app_assoc|exact Hl|].
    intros e' He' [Heq|Hin].
    + apply Hk. rewrite Heq. now apply in_map.
    + apply (Hs e' (or_intror He') Hin).
Qed.

Lemma edge853_951_key (e : Edge.t) :
  edgeKey e = edgeKey edge853_951 -> e = edge853_951.
Proof.
  destruct e as [s t]. intros H.
  destruct (arrow_split "853-group" "951-group" s t eq_refl eq_refl H)
    as [-> ->].
  reflexivity.
Qed.

Lemma specialFix_keys_NoDup (newNodes : list Node.t) (ue : list Edge.t) :
  NoDup (map edgeKey ue) -> NoDup (map edgeKey (specialFix newNodes ue)).
Proof.
  intros H. unfold specialFix. destruct (_ && negb _) eqn:E; [|exact H].
  rewrite map_app. apply NoDup_snoc; [exact H|].
  intros Hin. apply in_map_iff in Hin as [e [He Hin]].
  apply edge853_951_key in He. subst e.
  apply andb_true_iff in E as [_ E]. apply negb_true_iff in E.
  apply existsb_Edge_eqb in Hin. rewrite Hin in E. discriminate E.
Qed.

Lemma specialFix_idem (newNodes : list Node.t) (ue : list Edge.t) :
  specialFix newNodes (specialFix newNodes ue) = specialFix newNodes ue.
Proof.
  unfold specialFix.
  destruct (hasId newNodes "853-group" && hasId newNodes "951-group"
            && negb (existsb (Edge.eqb edge853_951) ue)) eqn:E.
  - assert (H : existsb (Edge.eqb edge853_951) (ue ++ [edge853_951]) = true).
    { apply existsb_Edge_eqb. apply in_or_app. right. now left. }
    rewrite H. cbn [negb]. now rewrite andb_false_r.
  - now rewrite E.
Qed.

(** X13.  Running the grouping pass on its own result changes nothing:
    the nodes and the edges come back as they are. *)
Theorem grouping_twice_is_grouping_once (nodes : list Node.t)
        (edges : list Edge.t) :
  groupSimilarNodes (fst (groupSimilarNodes nodes edges))
                    (snd (groupSimilarNodes nodes edges))
  = groupSimilarNodes nodes edges.
Proof.
  unfold groupSimilarNodes at 2 3 4. cbn [fst snd].
  rewrite groupSimilarNodes_small by apply grouped_has_no_repeats.
  rewrite (grouped_is_tagged nodes edges).
  set (ch := changesOf nodes edges).
  f_equal.
  assert (Hk : NoDup (map edgeKey (specialFix (newNodesOf nodes ch)
                                              (uniqueEdgesOf edges ch)))).
  { apply specialFix_keys_NoDup. unfold uniqueEdgesOf.
    apply uniqueFrom_keys_NoDup; [constructor|intros e []]. }
  rewrite (uniqueFrom_fixed _ [] [] Hk) by (intros e _ []).
  simpl. apply specialFix_idem.
Qed.

Lemma endsWith_app (k suffix : string) : endsWith (k ++ suffix) suffix = true.
Proof.
  induction k as [|c k IH]; cbn [append endsWith].
  - destruct suffix; cbn [endsWith]; now rewrite String.eqb_refl.
  - rewrite IH. apply orb_true_r.
Qed.

(** Filtering a node list keeps the ids distinct. *)
Lemma filter_keeps_ids_distinct (keep : Node.t -> bool) (nodes : list Node.t) :
  NoDup (map Node.id nodes) -> NoDup (map Node.id (filter keep nodes)).
Proof.
  induction nodes as [|n nodes IH]; simpl; intros H; [constructor|].
  inversion H as [|? ? Hn Hl]; subst.
  destruct (keep n); simpl; [|now apply IH].
  constructor; [|now apply IH].
  intros Hin. apply Hn. apply in_map_iff in Hin as [y [Hy Hin]].
  apply filter_In in Hin as [Hin _]. apply in_map_iff. now exists y.
Qed.

Lemma fold_collapseGroup_ids (G : jsobj group) (edges : list Edge.t)
      (ks : list string) (ch : changes) :
  NoDup ks ->
  NoDup (map Node.id (nodesToAdd ch)) ->
  (forall n, In n (nodesToAdd ch) ->
             exists k, Node.id n = (k ++ "-group")%string /\ ~ In k ks) ->
  NoDup (map Node.id (nodesToAdd (fold_left (collapseGroup G edges) ks ch))).
Proof.
  revert ch. induction ks as [|k ks IH]; simpl; intros ch Hks Hnd Hinv;
    [exact Hnd|].
  inversion Hks as [|? ? Hk Hks']; subst.
  assert (Hweak : forall n, In n (nodesToAdd ch) ->
                            exists k', Node.id n = (k' ++ "-group")%string
                                       /\ ~ In k' ks).
  { intros n Hn. destruct (Hinv n Hn) as [k' [H1 H2]]. exists k'.
    split; [exact H1|]. intros H. apply H2. now right. }
  apply IH; [exact Hks'| |].
  - unfold collapseGroup. destruct (obj_get G k) as [g|]; [|exact Hnd].
    destruct (others g) as [|first [|second rest]]; simpl; try exact Hnd.
    rewrite map_app. simpl. apply NoDup_snoc; [exact Hnd|].
    intros Hin. apply in_map_iff in Hin as [n [Hid Hn]].
    destruct (Hinv n Hn) as [k' [H1 H2]]. rewrite H1 in Hid.
    apply append_group_inj in Hid. subst k'. apply H2. now left.
  - unfold collapseGroup. destruct (obj_get G k) as [g|]; [|exact Hweak].
    destruct (others g) as [|first [|second rest]]; simpl; try exact Hweak.
    intros n Hn. apply in_app_or in Hn as [Hn|[<-|[]]]; [now apply Hweak|].
    exists k. split; [reflexivity|exact Hk].
Qed.

(** X14.  When the node ids are pairwise different and none of them ends
    in [-group], the ids of the nodes after the grouping pass are pairwise
    different as well. *)
Theorem grouping_keeps_the_ids_distinct (nodes : list Node.t)
        (edges : list Edge.t) :
  NoDup (map Node.id nodes) ->
  Forall (fun n => isGroupId (Node.id n) = false) nodes ->
  NoDup (map Node.id (fst (groupSimilarNodes nodes edges))).
Proof.
  intros Hnd Hg. unfold groupSimilarNodes, newNodesOf. simpl.
  rewrite map_app. apply NoDup_app.
  - apply filter_keeps_ids_distinct. rewrite map_map.
    rewrite (map_ext _ Node.id) by apply tagNode_id. exact Hnd.
  - unfold changesOf. apply fold_collapseGroup_ids.
    + apply NoDup_baseIdGroups_keys.
    + constructor.
    + intros n [].
  - intros k H1 H2.
    apply in_map_iff in H1 as [x [Hx H1]]. apply filter_In in H1 as [H1 _].
    apply in_map_iff in H1 as [n [<- Hn]]. rewrite tagNode_id in Hx.
    apply in_map_iff in H2 as [r [Hr H2]].
    apply added_is_group in H2 as [b Hb].
    apply (proj1 (Forall_forall _ _) Hg) in Hn.
    rewrite Hx, <- Hr, Hb in Hn. unfold isGroupId in Hn.
    rewrite endsWith_app in Hn. discriminate Hn.
Qed.

Lemma grouping_keeps_the_ids_distinct_witness :
  NoDup (map Node.id
             (fst (groupSimilarNodes
                     (buildNodes (Samples.eventsIn Samples.object7))
                     (buildEdges (Samples.eventsIn Samples.object7))))).
Proof.
  apply grouping_keeps_the_ids_distinct.
  - vm_compute.
    repeat (constructor;
            [intros H; repeat (destruct H as [H|H]; [discriminate H|]); exact H|]).
    constructor.
  - vm_compute. repeat constructor.
Defined.

End GroupingTwice.

(** ** What the corrective pass of the layout guarantees *)

Section CorrectivePassFrame.
Import GraphRenderer.

Lemma adjustNode_other (links : list Edge.t) (nodes : list Node.t) (j i : nat) :
  i <> j -> nth_error (adjustNode links nodes j) i = nth_error nodes i.
Proof.
  intros Hne. unfold adjustNode.
  destruct (nth_error nodes j) as [node|]; [|reflexivity].
  destruct (_ || _); [reflexivity|].
  destruct (parentsOf links (Node.id node)); [reflexivity|].
  destruct (Node.y node) as [ny|]; [|reflexivity].
  destruct (_ && _); [|reflexivity].
  rewrite nth_error_update_nth.
  destruct (Nat.eqb_spec i j); [contradiction|reflexivity].
Qed.

Lemma fold_adjustNode_other (links : list Edge.t) (l : list nat)
      (nodes : list Node.t) (i : nat) :
  ~ In i l ->
  nth_error (fold_left (adjustNode links) l nodes) i = nth_error nodes i.
Proof.
  revert nodes. induction l as [|j l IH]; simpl; intros nodes H; [reflexivity|].
  rewrite IH by (intros Hin; apply H; now right).
  apply adjustNode_other. intros ->. apply H. now left.
Qed.

Lemma adjustNode_ids (links : list Edge.t) (nodes : list Node.t) (j : nat) :
  map Node.id (adjustNode links nodes j) = map Node.id nodes.
Proof.
  unfold adjustNode.
  destruct (nth_error nodes j) as [node|]; [|reflexivity].
  destruct (_ || _); [reflexivity|].
  destruct (parentsOf links (Node.id node)); [reflexivity|].
  destruct (Node.y node) as [ny|]; [|reflexivity].
  destruct (_ && _); [|reflexivity].
  now apply map_update_nth_inv.
Qed.

Lemma fold_adjustNode_ids (links : list Edge.t) (l : list nat)
      (nodes : list Node.t) :
  map Node.id (fold_left (adjustNode links) l nodes) = map Node.id nodes.
Proof.
  revert nodes. induction l as [|j l IH]; simpl; intros nodes; [reflexivity|].
  now rewrite IH, adjustNode_ids.
Qed.

(** The round of the node at index [j]: the node stays, or it has a
    position not more than 50 below the lowest of its parents and is put
    80 below that parent. *)
Lemma adjustNode_at (links : list Edge.t) (nodes : list Node.t) (j : nat)
      (node : Node.t) :
  nth_error nodes j = Some node ->
  nth_error (adjustNode links nodes j) j = Some node
  \/ exists v,
       Node.y node = Some v
       /\ Node.id node <> "request" /\ Node.id node <> "route"
       /\ parentsOf links (Node.id node) <> []
       /\ let m := maxParentY nodes (parentsOf links (Node.id node)) in
          (0 < m)%Z /\ (v <= m + 50)%Z
          /\ nth_error (adjustNode links nodes j) j
             = Some (setY (m + 80)%Z node).
Proof.
  intros Hj. unfold adjustNode. rewrite Hj.
  destruct (String.eqb_spec (Node.id node) "request") as [|H1];
    [left; exact Hj|].
  destruct (String.eqb_spec (Node.id node) "route") as [|H2];
    [left; exact Hj|].
  cbn [orb].
  destruct (parentsOf links (Node.id node)) as [|p ps] eqn:Ep; [left; exact Hj|].
  destruct (Node.y node) as [ny|] eqn:Ey; [|left; exact Hj].
  destruct (Z.ltb_spec 0 (maxParentY nodes (p :: ps))) as [Hm|Hm];
    [|left; exact Hj].
  destruct (Z.leb_spec ny (maxParentY nodes (p :: ps) + 50)) as [Hn|Hn];
    [|left; exact Hj].
  right. exists ny. cbn [andb].
  split; [reflexivity|]. split; [exact H1|]. split; [exact H2|].
  split; [discriminate|].
  split; [exact Hm|]. split; [exact Hn|].
  rewrite nth_error_update_nth, Nat.eqb_refl, Hj. reflexivity.
Qed.

Lemma seq_split_at (n i : nat) :
  i < n -> seq 0 n = seq 0 i ++ i :: seq (S i) (n - S i).
Proof.
  intros H. replace n with (i + S (n - S i)) at 1 by lia.
  rewrite seq_app. reflexivity.
Qed.

(** The pass seen from index [i]: the rounds before leave the node alone,
    the round of [i] works on the list they produce, and the rounds after
    leave the result alone. *)
Lemma correctivePass_at (nodes : list Node.t) (links : list Edge.t) (i : nat)
      (node : Node.t) :
  nth_error nodes i = Some node ->
  let before := fold_left (adjustNode links) (seq 0 i) nodes in
  nth_error before i = Some node
  /\ nth_error (correctivePass nodes links) i
     = nth_error (adjustNode links before i) i.
Proof.
  intros Hi before.
  assert (Hlt : i < List.length nodes) by (apply nth_error_Some; congruence).
  split.
  - unfold before. rewrite fold_adjustNode_other; [exact Hi|].
    intros H. apply in_seq in H. lia.
  - unfold correctivePass. rewrite (seq_split_at _ i Hlt), fold_left_app.
    simpl. fold before. apply fold_adjustNode_other.
    intros H. apply in_seq in H. lia.
Qed.

(** X15.  The corrective pass never moves a node up and changes nothing
    but the vertical position: the node at an index is afterwards the
    same node, or the same node at a position strictly further down. *)
Theorem corrective_pass_only_pushes_down (nodes : list Node.t)
        (links : list Edge.t) (i : nat) (node : Node.t) :
  nth_error nodes i = Some node ->
  nth_error (correctivePass nodes links) i = Some node
  \/ exists v v',
       Node.y node = Some v /\ (v < v')%Z
       /\ nth_error (correctivePass nodes links) i = Some (setY v' node).
Proof.
  intros Hi. destruct (correctivePass_at nodes links i node Hi) as [Hb ->].
  destruct (adjustNode_at links _ i node Hb) as [H|[v [Hv [_ [_ [_ H]]]]]].
  - now left.
  - cbv zeta in H. destruct H as [Hm [Hle H]].
    right. exists v. eexists. split; [exact Hv|]. split; [|exact H]. lia.
Qed.

Lemma corrective_pass_only_pushes_down_witness :
  let nodes := Samples.place Samples.placement9_7_8
                 (fst (Samples.graphOf Samples.chain9_7_8)) in
  let links := snd (Samples.graphOf Samples.chain9_7_8) in
  exists node,
    nth_error nodes 3 = Some node
    /\ (nth_error (correctivePass nodes links) 3 = Some node
        \/ exists v v',
             Node.y node = Some v /\ (v < v')%Z
             /\ nth_error (correctivePass nodes links) 3 = Some (setY v' node)).
Proof.
  intros nodes links.
  destruct (nth_error nodes 3) as [node|] eqn:E; [|discriminate E].
  exists node. split; [reflexivity|].
  exact (corrective_pass_only_pushes_down nodes links 3 node E).
Defined.

(** X16.  The request, the route, the nodes without incoming link and the
    nodes without position are left where they are. *)
Theorem corrective_pass_leaves_roots_alone (nodes : list Node.t)
        (links : list Edge.t) (i : nat) (node : Node.t) :
  nth_error nodes i = Some node ->
  Node.id node = "request" \/ Node.id node = "route"
  \/ parentsOf links (Node.id node) = [] \/ Node.y node = None ->
  nth_error (correctivePass nodes links) i = Some node.
Proof.
  intros Hi Hroot. destruct (correctivePass_at nodes links i node Hi) as [Hb ->].
  destruct (adjustNode_at links _ i node Hb)
    as [H|[v [Hv [H1 [H2 [H3 _]]]]]]; [exact H|].
  destruct Hroot as [H|[H|[H|H]]]; try contradiction. congruence.
Qed.

Lemma corrective_pass_leaves_roots_alone_witness :
  let nodes := Samples.place Samples.placement9_7_8
                 (fst (Samples.graphOf Samples.chain9_7_8)) in
  let links := snd (Samples.graphOf Samples.chain9_7_8) in
  exists node,
    nth_error nodes 1 = Some node
    /\ nth_error (correctivePass nodes links) 1 = Some node.
Proof.
  intros nodes links.
  destruct (nth_error nodes 1) as [node|] eqn:E; [|discriminate E].
  exists node. split; [reflexivity|].
  apply (corrective_pass_leaves_roots_alone nodes links 1 node E).
  right. left. injection E as <-. reflexivity.
Defined.

Lemma find_by_unique_id (nodes : list Node.t) (i : nat) (node : Node.t) :
  NoDup (map Node.id nodes) ->
  nth_error nodes i = Some node ->
  find (fun n => (Node.id n =? Node.id node)%string) nodes = Some node.
Proof.
  revert i. induction nodes as [|x nodes IH]; intros i Hnd Hi;
    [destruct i; discriminate Hi|].
  inversion Hnd as [|? ? Hx Hl]; subst. simpl.
  destruct i as [|i]; simpl in Hi.
  - injection Hi as ->. now rewrite String.eqb_refl.
  - destruct (String.eqb_spec (Node.id x) (Node.id node)) as [E|_].
    + exfalso. apply Hx. rewrite E. apply in_map.
      now apply nth_error_In in Hi.
    + now apply (IH i).
Qed.

Lemma maxParentY_fold_ge (nodes : list Node.t) (parents : list string) (m0 : Z) :
  (m0 <= fold_left
           (fun m parentId =>
              match find (fun n => (Node.id n =? parentId)%string) nodes with
              | Some parentNode =>
                  match Node.y parentNode with
                  | Some py => if (m <? py)%Z then py else m
                  | None => m
                  end
              | None => m
              end) parents m0)%Z.
Proof.
  revert m0. induction parents as [|p ps IH]; simpl; intros m0; [lia|].
  eapply Z.le_trans; [|apply IH].
  destruct (find _ nodes) as [pn|]; [|lia].
  destruct (Node.y pn) as [py|]; [|lia].
  destruct (Z.ltb_spec m0 py); lia.
Qed.

Lemma maxParentY_ge (nodes : list Node.t) (parents : list string)
      (p : string) (pn : Node.t) (py : Z) :
  In p parents ->
  find (fun n => (Node.id n =? p)%string) nodes = Some pn ->
  Node.y pn = Some py ->
  (py <= maxParentY nodes parents)%Z.
Proof.
  intros Hin Hf Hy. unfold maxParentY. generalize 0%Z as m0.
  induction parents as [|q qs IH]; [destruct Hin|]. intros m0. simpl.
  destruct Hin as [->|Hin]; [|now apply IH].
  rewrite Hf, Hy. eapply Z.le_trans; [|apply maxParentY_fold_ge].
  destruct (Z.ltb_spec m0 py); lia.
Qed.

Lemma yOf_at (nodes : list Node.t) (i : nat) (node : Node.t) :
  NoDup (map Node.id nodes) ->
  nth_error nodes i = Some node ->
  yOf nodes (Node.id node) = Node.y node.
Proof.
  intros Hnd Hi. unfold yOf. now rewrite (find_by_unique_id nodes i node Hnd Hi).
Qed.

(** X17.  What the pass does guarantee.  When the node ids are pairwise
    different, a link whose source comes before its target in the node
    list is in order afterwards: if the target had a position and is
    neither the request nor the route, and the source ends at a position
    below the top, then the target ends more than 50 below the source. *)
Theorem corrective_pass_orders_forward_links (nodes : list Node.t)
        (links : list Edge.t) (i j : nat) (parent child : Node.t)
        (yc yp : Z) :
  NoDup (map Node.id nodes) ->
  i < j ->
  nth_error nodes i = Some parent ->
  nth_error nodes j = Some child ->
  In (Edge.mk (Node.id parent) (Node.id child)) links ->
  Node.id child <> "request" -> Node.id child <> "route" ->
  Node.y child = Some yc ->
  yOf (correctivePass nodes links) (Node.id parent) = Some yp ->
  (0 < yp)%Z ->
  exists yc',
    yOf (correctivePass nodes links) (Node.id child) = Some yc'
    /\ (yp + 50 < yc')%Z.
Proof.
  intros Hnd Hij Hi Hj Hlink Hr1 Hr2 Hyc Hyp Hpos.
  assert (Hids : map Node.id (correctivePass nodes links) = map Node.id nodes)
    by apply fold_adjustNode_ids.
  assert (Hnd' : NoDup (map Node.id (correctivePass nodes links)))
    by now rewrite Hids.
  destruct (correctivePass_at nodes links j child Hj) as [Hbj Hfj].
  set (before := fold_left (adjustNode links) (seq 0 j) nodes) in *.
  assert (Hbids : map Node.id before = map Node.id nodes)
    by apply fold_adjustNode_ids.
  (* the source has reached its final position before the round of the target *)
  assert (Hlen : j < List.length nodes) by (apply nth_error_Some; congruence).
  assert (Hfi : nth_error (correctivePass nodes links) i = nth_error before i).
  { unfold correctivePass. rewrite (seq_split_at _ j Hlen), fold_left_app.
    fold before. apply fold_adjustNode_other.
    intros [H|H]; [lia|]. apply in_seq in H. lia. }
  destruct (nth_error before i) as [p1|] eqn:Ep1.
  2:{ apply nth_error_None in Ep1.
      assert (List.length before = List.length nodes)
        by (rewrite <- (length_map Node.id before), Hbids; apply length_map).
      lia. }
  assert (Hp1id : Node.id p1 = Node.id parent).
  { assert (H : nth_error (map Node.id before) i = Some (Node.id p1))
      by (rewrite nth_error_map, Ep1; reflexivity).
    rewrite Hbids, nth_error_map, Hi in H. simpl in H. congruence. }
  assert (Hp1y : Node.y p1 = Some yp).
  { rewrite <- Hyp, <- Hp1id. symmetry.
    apply (yOf_at _ i p1 Hnd' Hfi). }
  assert (Hparent : In (Node.id parent) (parentsOf links (Node.id child))).
  { unfold parentsOf.
    change (Node.id parent)
      with (Edge.source (Edge.mk (Node.id parent) (Node.id child))).
    apply in_map. apply filter_In. split; [exact Hlink|].
    simpl. apply String.eqb_refl. }
  assert (Hm : (yp <= maxParentY before (parentsOf links (Node.id child)))%Z).
  { apply (maxParentY_ge before _ (Node.id parent) p1 yp Hparent); [|exact Hp1y].
    rewrite <- Hp1id. apply (find_by_unique_id before i p1); [|exact Ep1].
    now rewrite Hbids. }
  destruct (adjustNode_at links before j child Hbj)
    as [H|[v [Hv [_ [_ [_ H]]]]]].
  - (* the target stays: it was already far enough below *)
    rewrite H in Hfj.
    exists yc. split.
    + rewrite <- Hyc. apply (yOf_at _ j child Hnd' Hfj).
    + unfold adjustNode in H. rewrite Hbj in H.
      destruct (String.eqb_spec (Node.id child) "request"); [contradiction|].
      destruct (String.eqb_spec (Node.id child) "route"); [contradiction|].
      cbn [orb] in H.
      destruct (parentsOf links (Node.id child)) as [|q qs] eqn:Eq;
        [destruct Hparent|].
      rewrite Hyc in H.
      destruct (Z.ltb_spec 0 (maxParentY before (q :: qs))) as [H0|H0]; [|lia].
      destruct (Z.leb_spec yc (maxParentY before (q :: qs) + 50)) as [H5|H5];
        [|lia].
      cbn [andb] in H. rewrite nth_error_update_nth, Nat.eqb_refl, Hbj in H.
      simpl in H. injection H as H.
      apply (f_equal Node.y) in H. simpl in H. rewrite Hyc in H.
      injection H as H. lia.
  - cbv zeta in H. destruct H as [H0 [H5 H]]. rewrite H in Hfj.
    eexists. split.
    + change (Node.id child) with (Node.id (setY
        (maxParentY before (parentsOf links (Node.id child)) + 80) child)).
      rewrite (yOf_at _ j _ Hnd' Hfj). reflexivity.
    + lia.
Qed.

Lemma corrective_pass_orders_forward_links_witness :
  let nodes := Samples.place Samples.placement9_7_8
                 (fst (Samples.graphOf Samples.chain9_7_8)) in
  let links := snd (Samples.graphOf Samples.chain9_7_8) in
  exists yc',
    yOf (correctivePass nodes links) "9" = Some yc' /\ (330 + 50 < yc')%Z.
Proof.
  intros nodes links.
  apply (corrective_pass_orders_forward_links nodes links 1 2
           (GraphRenderer.setY 330 routeNode)
           (GraphRenderer.setY 570
              (tagNode (eventNode (makeEvent (0, Samples.ev "9" "P2O" [])))))
           570 330).
  - vm_compute.
    repeat (constructor;
            [intros H; repeat (destruct H as [H|H]; [discriminate H|]); exact H|]).
    constructor.
  - lia.
  - reflexivity.
  - reflexivity.
  - vm_compute. do 3 right. left. reflexivity.
  - discriminate.
  - discriminate.
  - reflexivity.
  - reflexivity.
  - lia.
Defined.

End CorrectivePassFrame.

(** ** Strings *)

Section Strings.

Lemma append_assoc (a b c : string) :
  ((a ++ b) ++ c)%string = (a ++ b ++ c)%string.
Proof. induction a as [|x a IH]; simpl; [reflexivity|]. now rewrite IH. Qed.

Lemma append_nil_r (a : string) : (a ++ "")%string = a.
Proof. induction a as [|x a IH]; simpl; [reflexivity|]. now rewrite IH. Qed.

Lemma length_append (a b : string) :
  String.length (a ++ b) = String.length a + String.length b.
Proof. induction a as [|x a IH]; simpl; [reflexivity|]. now rewrite IH. Qed.

End Strings.

(** ** Escaping for display *)

Section EscapeHtml.

Lemma replace_char_app (c : ascii) (rep a b : string) :
  replace_char c rep (a ++ b)%string = (replace_char c rep a ++ replace_char c rep b)%string.
Proof.
  induction a as [|x a IH]; simpl; [reflexivity|].
  now rewrite IH, append_assoc.
Qed.

Lemma escapeHtml_app (a b : string) :
  GraphRenderer.escapeHtml (Some (a ++ b)%string)
  = (GraphRenderer.escapeHtml (Some a) ++ GraphRenderer.escapeHtml (Some b))%string.
Proof. unfold GraphRenderer.escapeHtml. now rewrite !replace_char_app. Qed.

Lemma replace_char_one (c x : ascii) (rep : string) :
  x <> c -> replace_char c rep (String x "") = String x "".
Proof.
  intros H. simpl. destruct (Ascii.eqb_spec x c); [contradiction|reflexivity].
Qed.

Lemma escapeHtml_one (c : ascii) :
  GraphRenderer.escapeHtml (Some (String c "")) = App.escapeOne c.
Proof.
  unfold App.escapeOne.
  destruct (Ascii.eqb_spec c "<") as [->|H1]; [reflexivity|].
  destruct (Ascii.eqb_spec c ">") as [->|H2]; [reflexivity|].
  destruct (Ascii.eqb_spec c "&") as [->|H3]; [reflexivity|].
  destruct (Ascii.eqb_spec c (ascii_of_nat 34)) as [->|H4]; [reflexivity|].
  destruct (Ascii.eqb_spec c "'") as [->|H5]; [reflexivity|].
  unfold GraphRenderer.escapeHtml.
  now rewrite !replace_char_one by assumption.
Qed.

Lemma escapeHtml_cons (c : ascii) (s : string) :
  GraphRenderer.escapeHtml (Some (String c s))
  = (App.escapeOne c ++ GraphRenderer.escapeHtml (Some s))%string.
Proof.
  change (String c s) with (String c "" ++ s)%string.
  now rewrite escapeHtml_app, escapeHtml_one.
Qed.

(** X18.  The five replacements of [escapeHtml], made one after the
    other, escape every character of the text exactly once, as the
    character switch of [applyTaintRanges] does: the ampersand of an
    entity written by a later replacement is not escaped again. *)
Theorem escapeHtml_escapes_each_character_once (c : ascii) (s : string) :
  GraphRenderer.escapeHtml (Some (String c s))
  = (App.escapeOne c ++ GraphRenderer.escapeHtml (Some s))%string.
Proof. exact (escapeHtml_cons c s). Qed.

Lemma escapeOne_lacks (ch c : ascii) :
  In ch ["<"; ">"; ascii_of_nat 34; "'"]%char ->
  lacks ch (App.escapeOne c) = true.
Proof.
  intros Hch. unfold App.escapeOne.
  destruct (Ascii.eqb_spec c "<") as [->|H1];
    [destruct Hch as [<-|[<-|[<-|[<-|[]]]]]; reflexivity|].
  destruct (Ascii.eqb_spec c ">") as [->|H2];
    [destruct Hch as [<-|[<-|[<-|[<-|[]]]]]; reflexivity|].
  destruct (Ascii.eqb_spec c "&") as [->|H3];
    [destruct Hch as [<-|[<-|[<-|[<-|[]]]]]; reflexivity|].
  destruct (Ascii.eqb_spec c (ascii_of_nat 34)) as [->|H4];
    [destruct Hch as [<-|[<-|[<-|[<-|[]]]]]; reflexivity|].
  destruct (Ascii.eqb_spec c "'") as [->|H5];
    [destruct Hch as [<-|[<-|[<-|[<-|[]]]]]; reflexivity|].
  simpl. rewrite andb_true_r. apply negb_true_iff. apply Ascii.eqb_neq.
  destruct Hch as [<-|[<-|[<-|[<-|[]]]]]; assumption.
Qed.

Lemma escapeHtml_lacks (ch : ascii) (s : string) :
  In ch ["<"; ">"; ascii_of_nat 34; "'"]%char ->
  lacks ch (GraphRenderer.escapeHtml (Some s)) = true.
Proof.
  intros Hch. induction s as [|c s IH]; [reflexivity|].
  now rewrite escapeHtml_cons, lacks_app, escapeOne_lacks, IH.
Qed.

(** X19.  The result of [escapeHtml] contains none of the characters
    less-than, greater-than, double quote and apostrophe. *)
Theorem escapeHtml_leaves_no_markup (unsafe : option string) :
  Forall (fun ch => lacks ch (GraphRenderer.escapeHtml unsafe) = true)
         ["<"; ">"; ascii_of_nat 34; "'"]%char.
Proof.
  apply Forall_forall. intros ch Hch.
  destruct unsafe as [s|]; [now apply escapeHtml_lacks|reflexivity].
Qed.

(** What [escapeOne] writes: one of the five entities, or the character
    itself, which is then no ampersand. *)
Lemma escapeOne_cases (c : ascii) :
  (c = "&"%char /\ App.escapeOne c = "&amp;")
  \/ (c = "<"%char /\ App.escapeOne c = "&lt;")
  \/ (c = ">"%char /\ App.escapeOne c = "&gt;")
  \/ (c = ascii_of_nat 34 /\ App.escapeOne c = "&quot;")
  \/ (c = "'"%char /\ App.escapeOne c = "&#039;")
  \/ (c <> "&"%char /\ App.escapeOne c = String c "").
Proof.
  unfold App.escapeOne.
  destruct (Ascii.eqb_spec c "<") as [->|H1]; [right; left; now split|].
  destruct (Ascii.eqb_spec c ">") as [->|H2]; [right; right; left; now split|].
  destruct (Ascii.eqb_spec c "&") as [->|H3]; [left; now split|].
  destruct (Ascii.eqb_spec c (ascii_of_nat 34)) as [->|H4];
    [right; right; right; left; now split|].
  destruct (Ascii.eqb_spec c "'") as [->|H5];
    [right; right; right; right; left; now split|].
  right; right; right; right; right. now split.
Qed.

Lemma escapeOne_not_empty (c : ascii) (s : string) :
  (App.escapeOne c ++ s)%string <> "".
Proof.
  destruct (escapeOne_cases c) as [[_ ->]|[[_ ->]|[[_ ->]|[[_ ->]|[[_ ->]|[_ ->]]]]]];
    discriminate.
Qed.

Lemma escapeOne_prefix_free (a b : ascii) (s t : string) :
  (App.escapeOne a ++ s)%string = (App.escapeOne b ++ t)%string ->
  a = b /\ s = t.
Proof.
  destruct (escapeOne_cases a) as [[-> ->]|[[-> ->]|[[-> ->]|[[-> ->]|[[-> ->]|[Ha ->]]]]]];
    destruct (escapeOne_cases b) as [[-> ->]|[[-> ->]|[[-> ->]|[[-> ->]|[[-> ->]|[Hb ->]]]]]];
    simpl; intros H; try discriminate H;
    try (injection H as H; split; [reflexivity|exact H]);
    try (injection H as H1 H2; split; congruence).
Qed.

(** X20.  [escapeHtml] loses nothing: two texts with the same escaped
    form are the same text. *)
Theorem escapeHtml_is_injective (s t : string) :
  GraphRenderer.escapeHtml (Some s) = GraphRenderer.escapeHtml (Some t) ->
  s = t.
Proof.
  revert t. induction s as [|a s IH]; intros [|b t] H.
  - reflexivity.
  - rewrite escapeHtml_cons in H. symmetry in H.
    now apply escapeOne_not_empty in H.
  - rewrite escapeHtml_cons in H. now apply escapeOne_not_empty in H.
  - rewrite !escapeHtml_cons in H. apply escapeOne_prefix_free in H as [-> H].
    f_equal. now apply IH.
Qed.

Lemma escapeHtml_is_injective_witness : "a<b&c" = "a<b&c".
Proof. apply (escapeHtml_is_injective "a<b&c" "a<b&c"). reflexivity. Defined.

(** X21.  The parser escapes the decoded payloads like [escapeHtml],
    except for the apostrophe, which it writes as [&#39;] where
    [escapeHtml] writes [&#039;]. *)
Theorem sanitize_agrees_with_escapeHtml (s : string) :
  lacks "'" s = true ->
  sanitize s = GraphRenderer.escapeHtml (Some s).
Proof.
  induction s as [|c s IH]; [reflexivity|].
  cbn [sanitize lacks]. intros H. apply andb_true_iff in H as [Hc Hs].
  rewrite escapeHtml_cons, (IH Hs). f_equal.
  unfold escape_char, App.escapeOne.
  apply negb_true_iff in Hc. rewrite Hc.
  repeat match goal with
         | |- context [Ascii.eqb ?a ?b] => destruct (Ascii.eqb a b)
         end; reflexivity.
Qed.

Lemma sanitize_agrees_with_escapeHtml_witness :
  sanitize "<b>" = GraphRenderer.escapeHtml (Some "<b>").
Proof. apply sanitize_agrees_with_escapeHtml. reflexivity. Defined.

End EscapeHtml.

(** ** Display names of the event types *)

Section DisplayTypes.

(** X22.  [getDisplayType] maps its own results to themselves, so that a
    display name is never translated a second time; and the side panel
    and the graph name every type alike, except the type [route], which
    only the graph translates. *)
Theorem display_names_are_stable (type : option string) :
  GraphRenderer.getDisplayType (Some (GraphRenderer.getDisplayType type))
  = GraphRenderer.getDisplayType type
  /\ (App.getDisplayType type = GraphRenderer.getDisplayType type
      \/ type = Some "route").
Proof.
  destruct type as [t|]; [|split; [reflexivity|now left]].
  unfold App.getDisplayType, GraphRenderer.getDisplayType. split.
  - repeat (match goal with
            | |- context [String.eqb t ?b] => destruct (String.eqb_spec t b)
            end; cbn [orb]; try contradiction);
      reflexivity.
  - repeat match goal with
           | |- context [String.eqb t ?b] =>
               destruct (String.eqb_spec t b); cbn [orb]
           end; subst; auto.
Qed.

End DisplayTypes.

(** ** The taint ranges of the request node *)

Section RequestRanges.

Lemma substring_skip (pre s : string) (n m : nat) :
  substring (String.length pre + n) m (pre ++ s) = substring n m s.
Proof. induction pre as [|c pre IH]; simpl; [reflexivity|exact IH]. Qed.

Lemma substring_take (x post : string) :
  substring 0 (String.length x) (x ++ post) = x.
Proof.
  induction x as [|c x IH]; simpl; [destruct post; reflexivity|].
  now rewrite IH.
Qed.

Lemma fold_lengths_shift {A : Type} (f : A -> string) (k : nat) (l : list A)
      (a : nat) :
  fold_left (fun len p => len + String.length (f p) + k) l a
  = a + fold_left (fun len p => len + String.length (f p) + k) l 0.
Proof.
  revert a. induction l as [|x l IH]; intros a; simpl; [lia|].
  rewrite (IH (a + _ + k)), (IH (String.length (f x) + k)). lia.
Qed.

(** The text that [join] puts before the element at index [i]. *)
Lemma join_split {A : Type} (f : A -> string) (sep : string) (l : list A)
      (i : nat) (x : A) :
  nth_error l i = Some x ->
  exists pre post,
    join sep (map f l) = (pre ++ f x ++ post)%string
    /\ String.length pre
       = fold_left (fun len p => len + String.length (f p) + String.length sep)
                   (firstn i l) 0.
Proof.
  revert i. induction l as [|y l IH]; intros i Hi; [destruct i; discriminate Hi|].
  destruct i as [|i]; simpl in Hi.
  - injection Hi as ->. exists "".
    destruct l as [|z l].
    + exists "". simpl. now rewrite append_nil_r.
    + exists (sep ++ join sep (map f (z :: l)))%string. split; reflexivity.
  - destruct (IH i Hi) as [pre [post [H1 H2]]].
    exists (f y ++ sep ++ pre)%string, post. split.
    + destruct l as [|z l]; [destruct i; discriminate Hi|].
      change (join sep (map f (y :: z :: l)))
        with (f y ++ sep ++ join sep (map f (z :: l)))%string.
      rewrite H1. now rewrite !append_assoc.
    + cbn [firstn fold_left]. rewrite fold_lengths_shift, <- H2.
      rewrite !length_append. lia.
Qed.

(** X23.  The span that [buildNodes] computes for a parameter of the
    request selects exactly the value of that parameter in the text of
    [taintedData], counted from the end of the prefix [Source: ]. *)
Theorem request_span_selects_the_value (trackedParams : list (string * string))
        (idx : nat) (param : string * string) :
  nth_error trackedParams idx = Some param ->
  substring (String.length "Source: "
             + fst (requestTaintSpan trackedParams idx param))
            (snd (requestTaintSpan trackedParams idx param)
             - fst (requestTaintSpan trackedParams idx param))
            (requestTaintedData trackedParams)
  = snd param.
Proof.
  intros Hi. unfold requestTaintedData.
  destruct trackedParams as [|p0 ps] eqn:E; [destruct idx; discriminate Hi|].
  rewrite <- E in *. replace (0 <? List.length trackedParams)%nat with true
    by (rewrite E; reflexivity).
  rewrite substring_skip.
  destruct (join_split paramText ", " trackedParams idx param Hi)
    as [pre [post [H1 H2]]].
  rewrite H1. unfold requestTaintSpan. cbn [fst snd].
  change (String.length ", ") with 2 in H2. rewrite <- H2.
  unfold paramText at 1. destruct param as [name value]. cbn [fst snd].
  replace (String.length pre + String.length name + 2)
    with (String.length (pre ++ name ++ "=" ++ dq))
    by (rewrite !length_append; simpl; lia).
  replace (String.length (pre ++ name ++ "=" ++ dq) + String.length value
           - String.length (pre ++ name ++ "=" ++ dq))
    with (String.length value) by lia.
  replace (pre ++ (name ++ "=" ++ dq ++ value ++ dq) ++ post)%string
    with ((pre ++ name ++ "=" ++ dq) ++ value ++ dq ++ post)%string
    by (now rewrite !append_assoc).
  rewrite <- (Nat.add_0_r (String.length (pre ++ name ++ "=" ++ dq))).
  rewrite substring_skip. apply substring_take.
Qed.

Lemma request_span_selects_the_value_witness :
  substring (8 + 14) (17 - 14)
            (requestTaintedData [("id", "7"); ("name", "bob")]) = "bob".
Proof.
  exact (request_span_selects_the_value [("id", "7"); ("name", "bob")] 1
                                        ("name", "bob") eq_refl).
Defined.

End RequestRanges.

(** ** Reading the range texts *)

Section RangeTexts.

Lemma read_digits_uint (d : Decimal.uint) (acc : nat) :
  read_digits 10 (Some (Z.of_nat acc)) (NilEmpty.string_of_uint d)
  = Some (Z.of_nat (Nat.of_uint_acc d acc)).
Proof.
  revert acc. induction d as [|d IH|d IH|d IH|d IH|d IH|d IH|d IH|d IH|d IH|d IH];
    intros acc; [reflexivity|..];
    cbn [NilEmpty.string_of_uint read_digits Nat.of_uint_acc];
    rewrite Nat.tail_mul_spec;
    match goal with
    | |- context [digit_value 10 ?c] =>
        let v := eval vm_compute in (digit_value 10 c) in
        change (digit_value 10 c) with v
    end; cbv iota beta;
    rewrite <- IH; do 2 f_equal; lia.
Qed.

Lemma read_digits_string_of_nat (n : nat) :
  read_digits 10 None (string_of_nat n) = Some (Z.of_nat n).
Proof.
  unfold string_of_nat.
  rewrite <- (DecimalNat.Unsigned.of_to n) at 2. unfold Nat.of_uint.
  destruct (Nat.to_uint n) as [|d|d|d|d|d|d|d|d|d|d] eqn:E;
    [now apply to_uint_not_Nil in E|..];
    cbn [NilZero.string_of_uint NilEmpty.string_of_uint read_digits
         Nat.of_uint_acc];
    match goal with
    | |- context [digit_value 10 ?c] =>
        let v := eval vm_compute in (digit_value 10 c) in
        change (digit_value 10 c) with v
    end; cbv iota beta;
    match goal with
    | |- read_digits 10 (Some ?z) _ = Some (Z.of_nat (Nat.of_uint_acc _ ?a)) =>
        change z with (Z.of_nat a)
    end; apply read_digits_uint.
Qed.

Lemma string_of_nat_head (n : nat) :
  exists c r, string_of_nat n = String c r /\ is_digit c = true.
Proof.
  unfold string_of_nat.
  destruct (Nat.to_uint n) as [|d|d|d|d|d|d|d|d|d|d] eqn:E;
    [now apply to_uint_not_Nil in E|..];
    cbn [NilZero.string_of_uint NilEmpty.string_of_uint];
    eexists; eexists; split; reflexivity.
Qed.

Lemma parseInt10_digits (c : ascii) (r : string) :
  is_digit c = true ->
  parseInt10 (String c r) = read_digits 10 None (String c r).
Proof.
  intros H. unfold parseInt10.
  assert (Hs : is_space c = false).
  { unfold is_digit, is_space in *. apply andb_true_iff in H as [H1 H2].
    apply Nat.leb_le in H1.
    repeat match goal with
           | |- context [Nat.eqb ?a ?b] => destruct (Nat.eqb_spec a b); [lia|]
           end.
    reflexivity. }
  cbn [skip_spaces]. rewrite Hs.
  assert (Hm : (c =? "-")%char = false).
  { apply Ascii.eqb_neq. intros ->. discriminate H. }
  assert (Hp : (c =? "+")%char = false).
  { apply Ascii.eqb_neq. intros ->. discriminate H. }
  rewrite Hm, Hp.
  destruct (read_digits 10 None (String c r)); reflexivity.
Qed.

(** [parseInt] reads back the decimal numeral of a number. *)
Lemma parseInt10_string_of_nat (n : nat) :
  parseInt10 (string_of_nat n) = Some (Z.of_nat n).
Proof.
  destruct (string_of_nat_head n) as [c [r [E H]]].
  rewrite <- read_digits_string_of_nat, E. now apply parseInt10_digits.
Qed.

Lemma all_digits_lacks (ch : ascii) (s : string) :
  is_digit ch = false -> all_digits s = true -> lacks ch s = true.
Proof.
  intros Hch. induction s as [|c s IH]; simpl; [reflexivity|].
  intros H. apply andb_true_iff in H as [Hc Hs]. rewrite (IH Hs), andb_true_r.
  apply negb_true_iff. apply Ascii.eqb_neq. intros ->. congruence.
Qed.

Lemma split_lacks (sep : ascii) (s : string) :
  lacks sep s = true -> split sep s = [s].
Proof.
  induction s as [|c s IH]; simpl; [reflexivity|].
  intros H. apply andb_true_iff in H as [Hc Hs].
  apply negb_true_iff in Hc. rewrite Hc, (IH Hs). reflexivity.
Qed.

Lemma split_at_sep (sep : ascii) (a b : string) :
  lacks sep a = true ->
  split sep (a ++ String sep b) = a :: split sep b.
Proof.
  induction a as [|c a IH]; simpl.
  - now rewrite Ascii.eqb_refl.
  - intros H. apply andb_true_iff in H as [Hc Ha].
    apply negb_true_iff in Hc. rewrite Hc, (IH Ha). reflexivity.
Qed.

Lemma includes_lacks (ch : ascii) (s : string) :
  lacks ch s = true -> includes s (String ch "") = false.
Proof.
  induction s as [|c s IH]; simpl; [reflexivity|].
  intros H. apply andb_true_iff in H as [Hc Hs].
  apply negb_true_iff in Hc. rewrite (IH Hs), orb_false_r.
  destruct (Ascii.ascii_dec ch c) as [->|Hne].
  - rewrite Ascii.eqb_refl in Hc. discriminate Hc.
  - reflexivity.
Qed.

Lemma rangeText_lacks (ch : ascii) (a b : nat) :
  is_digit ch = false -> ch <> ":"%char -> lacks ch (rangeText a b) = true.
Proof.
  intros Hd Hc. unfold rangeText. rewrite lacks_app.
  rewrite (all_digits_lacks ch _ Hd (all_digits_string_of_nat a)).
  change (":" ++ string_of_nat b)%string with (String ":" (string_of_nat b)).
  cbn [lacks andb].
  rewrite (all_digits_lacks ch _ Hd (all_digits_string_of_nat b)).
  rewrite andb_true_r. apply negb_true_iff. apply Ascii.eqb_neq. congruence.
Qed.

Lemma rangeText_not_empty (a b : nat) : rangeText a b <> "".
Proof.
  unfold rangeText. destruct (string_of_nat_head a) as [c [r [-> _]]].
  discriminate.
Qed.

(** The numbers of a range text. *)
Lemma rangeText_parsed (a b : nat) :
  map parseInt10 (split ":" (rangeText a b))
  = [Some (Z.of_nat a); Some (Z.of_nat b)].
Proof.
  unfold rangeText.
  change (string_of_nat a ++ ":" ++ string_of_nat b)%string
    with (string_of_nat a ++ String ":" (string_of_nat b))%string.
  rewrite split_at_sep, split_lacks
    by (apply all_digits_lacks; [reflexivity|apply all_digits_string_of_nat]).
  simpl. now rewrite !parseInt10_string_of_nat.
Qed.

(** What the first loop of the highlighting does with one range text. *)
Lemma markRange_rangeText (len : nat) (m : Highlight.highlightMap)
      (tag : option string) (a b : nat) :
  Highlight.markRange len m (TaintRange.mk tag (Some (rangeText a b)))
  = if (len <? b)%nat then m
    else Highlight.mark (or_else tag "tainted") (Z.of_nat a) (Z.of_nat b) m.
Proof.
  unfold Highlight.markRange. cbn [TaintRange.range TaintRange.tag].
  destruct (String.eqb_spec (rangeText a b) "") as [E|_];
    [now apply rangeText_not_empty in E|].
  rewrite (includes_lacks "," (rangeText a b))
    by (apply rangeText_lacks; [reflexivity|discriminate]).
  unfold Highlight.markSingle. rewrite rangeText_parsed.
  destruct (Z.ltb_spec (Z.of_nat a) 0) as [H|_]; [lia|]. cbn [orb].
  destruct (Z.ltb_spec (Z.of_nat len) (Z.of_nat b)) as [H|H];
    destruct (Nat.ltb_spec len b) as [H'|H']; try lia; reflexivity.
Qed.

End RangeTexts.

(** ** The span loop of the highlighting *)

Section HighlightLoop.
Import Highlight.

Variable openTag : string -> string.
Variable emit : ascii -> string.
Variable m : highlightMap.

Lemma emitted_app (a b : list ascii) :
  emitted emit (a ++ b) = (emitted emit a ++ emitted emit b)%string.
Proof.
  induction a as [|c a IH]; simpl; [reflexivity|].
  now rewrite IH, append_assoc.
Qed.

(** A stretch of characters outside every range, met outside a highlight. *)
Lemma run_plain (cs : list ascii) (n : nat) (st : cursor) :
  (forall i, n <= i < n + List.length cs -> m i = None) ->
  inHighlight st = false ->
  fold_left (step openTag emit m) (combine (seq n (List.length cs)) cs) st
  = mkCursor (result st ++ emitted emit cs) (currentTag st) false.
Proof.
  revert n st. induction cs as [|c cs IH]; intros n st Hm Hst.
  - simpl. rewrite append_nil_r. destruct st. simpl in Hst. now subst.
  - cbn [List.length seq combine fold_left].
    rewrite IH.
    + unfold step. rewrite (Hm n) by (simpl; lia). rewrite Hst.
      cbn [result currentTag emitted fold_right]. now rewrite append_assoc.
    + intros i Hi. apply Hm. simpl. lia.
    + unfold step. rewrite (Hm n) by (simpl; lia). now rewrite Hst.
Qed.

(** A stretch inside a range, met inside the highlight of its tag. *)
Lemma run_inside (tag : string) (cs : list ascii) (n : nat) (st : cursor) :
  (forall i, n <= i < n + List.length cs -> m i = Some tag) ->
  inHighlight st = true ->
  currentTag st = Some tag ->
  fold_left (step openTag emit m) (combine (seq n (List.length cs)) cs) st
  = mkCursor (result st ++ emitted emit cs) (Some tag) true.
Proof.
  revert n st. induction cs as [|c cs IH]; intros n st Hm Hst Ht.
  - simpl. rewrite append_nil_r. destruct st. simpl in Hst, Ht. now subst.
  - cbn [List.length seq combine fold_left].
    assert (Hstep : step openTag emit m st (n, c)
                    = mkCursor (result st ++ emit c) (Some tag) true).
    { unfold step. rewrite (Hm n) by (simpl; lia). rewrite Hst, Ht.
      unfold differs. rewrite String.eqb_refl. simpl. now rewrite Hst, Ht. }
    rewrite Hstep, IH; try reflexivity.
    + cbn [result emitted fold_right]. now rewrite append_assoc.
    + intros i Hi. apply Hm. simpl. lia.
Qed.

(** A non-empty stretch inside a range, met outside a highlight. *)
Lemma run_enter (tag : string) (c : ascii) (cs : list ascii) (n : nat)
      (st : cursor) :
  (forall i, n <= i < n + S (List.length cs) -> m i = Some tag) ->
  inHighlight st = false ->
  fold_left (step openTag emit m)
            (combine (seq n (S (List.length cs))) (c :: cs)) st
  = mkCursor (result st ++ openTag tag ++ emitted emit (c :: cs))
             (Some tag) true.
Proof.
  intros Hm Hst. cbn [seq combine fold_left].
  assert (Hstep : step openTag emit m st (n, c)
                  = mkCursor (result st ++ openTag tag ++ emit c) (Some tag) true).
  { unfold step. rewrite (Hm n) by lia. rewrite Hst. simpl.
    now rewrite append_assoc. }
  rewrite Hstep, (run_inside tag); try reflexivity.
  - cbn [result emitted fold_right]. now rewrite !append_assoc.
  - intros i Hi. apply Hm. lia.
Qed.

(** A non-empty stretch outside every range, met inside a highlight. *)
Lemma run_leave (c : ascii) (cs : list ascii) (n : nat) (st : cursor) :
  (forall i, n <= i < n + S (List.length cs) -> m i = None) ->
  inHighlight st = true ->
  fold_left (step openTag emit m)
            (combine (seq n (S (List.length cs))) (c :: cs)) st
  = mkCursor (result st ++ "</span>" ++ emitted emit (c :: cs)) None false.
Proof.
  intros Hm Hst. cbn [seq combine fold_left].
  assert (Hstep : step openTag emit m st (n, c)
                  = mkCursor (result st ++ "</span>" ++ emit c) None false).
  { unfold step. rewrite (Hm n) by lia. rewrite Hst.
    cbn [result currentTag inHighlight]. now rewrite append_assoc. }
  rewrite Hstep, run_plain; try reflexivity.
  - cbn [result currentTag emitted fold_right]. now rewrite !append_assoc.
  - intros i Hi. apply Hm. lia.
Qed.

Lemma combine_seq_app (a b : list ascii) (n : nat) :
  combine (seq n (List.length (a ++ b))) (a ++ b)
  = combine (seq n (List.length a)) a
    ++ combine (seq (n + List.length a) (List.length b)) b.
Proof.
  revert n. induction a as [|c a IH]; intros n; simpl.
  - now rewrite Nat.add_0_r.
  - rewrite IH. now rewrite Nat.add_succ_r.
Qed.

(** The loop over a content made of three parts, of which exactly the
    non-empty middle one is marked: the middle part is wrapped in one
    span. *)
Lemma run_three (tag : string) (p q : list ascii) (c : ascii)
      (cs : list ascii) :
  (forall i, m i = if (List.length p <=? i)%nat
                      && (i <? List.length p + S (List.length cs))%nat
                   then Some tag else None) ->
  let chars := p ++ (c :: cs) ++ q in
  let st := fold_left (step openTag emit m)
                      (combine (seq 0 (List.length chars)) chars)
                      (mkCursor "" None false) in
  (if inHighlight st then (result st ++ "</span>")%string else result st)
  = (emitted emit p ++ openTag tag ++ emitted emit (c :: cs) ++ "</span>"
     ++ emitted emit q)%string.
Proof.
  intros Hm chars st. unfold st, chars.
  rewrite combine_seq_app, fold_left_app, combine_seq_app, fold_left_app.
  rewrite (run_plain p 0); [|intros i Hi; rewrite Hm|reflexivity].
  2:{ destruct (Nat.leb_spec (List.length p) i); [lia|reflexivity]. }
  cbn [List.length].
  rewrite (run_enter tag c cs (0 + List.length p));
    [|intros i Hi; rewrite Hm|reflexivity].
  2:{ destruct (Nat.leb_spec (List.length p) i); [|lia].
      destruct (Nat.ltb_spec i (List.length p + S (List.length cs))); [|lia].
      reflexivity. }
  cbn [result currentTag]. destruct q as [|d q].
  - simpl. now rewrite !append_assoc.
  - cbn [List.length].
    rewrite (run_leave d q); [|intros i Hi; rewrite Hm|reflexivity].
    2:{ destruct (Nat.ltb_spec i (List.length p + S (List.length cs))); [lia|].
        now rewrite andb_false_r. }
    cbn [result inHighlight]. now rewrite !append_assoc.
Qed.

(** The loop over a content in which nothing is marked. *)
Lemma run_unmarked (chars : list ascii) :
  (forall i, m i = None) ->
  let st := fold_left (step openTag emit m)
                      (combine (seq 0 (List.length chars)) chars)
                      (mkCursor "" None false) in
  (if inHighlight st then (result st ++ "</span>")%string else result st)
  = emitted emit chars.
Proof.
  intros Hm st. unfold st. rewrite run_plain; [reflexivity| |reflexivity].
  intros i _. apply Hm.
Qed.

End HighlightLoop.

Section HighlightClaims.
Import Highlight.

Lemma list_ascii_app (a b : string) :
  list_ascii_of_string (a ++ b)
  = list_ascii_of_string a ++ list_ascii_of_string b.
Proof. induction a as [|c a IH]; simpl; [reflexivity|]. now rewrite IH. Qed.

Lemma length_list_ascii (s : string) :
  List.length (list_ascii_of_string s) = String.length s.
Proof. induction s as [|c s IH]; simpl; [reflexivity|]. now rewrite IH. Qed.

Lemma emitted_verbatim (s : string) :
  emitted (fun char => String char "") (list_ascii_of_string s) = s.
Proof. induction s as [|c s IH]; simpl; [reflexivity|]. now rewrite IH. Qed.

Lemma emitted_escaped (s : string) :
  emitted App.escapeOne (list_ascii_of_string s) = App.escapeHtml (Some s).
Proof.
  induction s as [|c s IH]; [reflexivity|].
  change (emitted App.escapeOne (list_ascii_of_string (String c s)))
    with (App.escapeOne c ++ emitted App.escapeOne (list_ascii_of_string s))%string.
  rewrite IH. symmetry. exact (escapeHtml_cons c s).
Qed.

(** The highlighting of a content of three parts for the one range that
    covers the non-empty middle part. *)
Lemma highlight_one_range (openTag : string -> string) (emit : ascii -> string)
      (pre mid post : string) (tag : option string) :
  mid <> "" ->
  highlight openTag emit (pre ++ mid ++ post)
    [TaintRange.mk tag
       (Some (rangeText (String.length pre)
                        (String.length pre + String.length mid)))]
  = (emitted emit (list_ascii_of_string pre)
     ++ openTag (or_else tag "tainted")
     ++ emitted emit (list_ascii_of_string mid) ++ "</span>"
     ++ emitted emit (list_ascii_of_string post))%string.
Proof.
  intros Hmid. unfold highlight. cbn [fold_left].
  rewrite markRange_rangeText.
  assert (Hlen : (List.length (list_ascii_of_string (pre ++ mid ++ post))
                  <? String.length pre + String.length mid)%nat = false).
  { rewrite length_list_ascii, !length_append. apply Nat.ltb_ge. lia. }
  rewrite Hlen. rewrite !list_ascii_app.
  destruct mid as [|c mid]; [contradiction|].
  cbn [list_ascii_of_string].
  apply (run_three openTag emit _ (or_else tag "tainted")).
  intros i. unfold mark. rewrite !length_list_ascii.
  cbn [String.length].
  destruct (Z.leb_spec (Z.of_nat (String.length pre)) (Z.of_nat i));
    destruct (Nat.leb_spec (String.length pre) i); try lia; cbn [andb];
    [|reflexivity].
  destruct (Z.ltb_spec (Z.of_nat i)
              (Z.of_nat (String.length pre + S (String.length mid))));
    destruct (Nat.ltb_spec i (String.length pre + S (String.length mid)));
    try lia; reflexivity.
Qed.

(** X24.  In a tooltip, one range [a:b] that lies within the content
    wraps exactly the characters from position [a] up to, not including,
    position [b] in one span, and leaves the text before and after as it
    is. *)
Theorem tooltip_range_wraps_its_characters (pre mid post : string)
        (tag : option string) :
  mid <> "" ->
  GraphRenderer.applyTagRangesToTooltip (pre ++ mid ++ post)
    [TaintRange.mk tag
       (Some (string_of_nat (String.length pre) ++ ":"
              ++ string_of_nat (String.length pre + String.length mid))%string)]
  = (pre ++ GraphRenderer.tooltipSpan (or_else tag "tainted")
     ++ mid ++ "</span>" ++ post)%string.
Proof.
  intros Hmid. unfold GraphRenderer.applyTagRangesToTooltip.
  destruct (String.eqb_spec (pre ++ mid ++ post) "") as [E|_].
  - exfalso. destruct pre; [destruct mid; [contradiction|]|]; discriminate E.
  - cbn [List.length Nat.eqb orb].
    fold (rangeText (String.length pre) (String.length pre + String.length mid)).
    rewrite highlight_one_range by exact Hmid.
    now rewrite !emitted_verbatim.
Qed.

Lemma tooltip_range_wraps_its_characters_witness :
  GraphRenderer.applyTagRangesToTooltip "name=bob;"
    [TaintRange.mk (Some "tainted") (Some "5:8")]
  = ("name=" ++ GraphRenderer.tooltipSpan "tainted" ++ "bob" ++ "</span>"
     ++ ";")%string.
Proof.
  apply (tooltip_range_wraps_its_characters "name=" "bob" ";" (Some "tainted")).
  discriminate.
Defined.

(** X25.  In the side panel the same holds for the escaped text: each of
    the three parts is escaped on its own, unless escaping is skipped, be
    it on request or because the content seems to hold entities
    already. *)
Theorem panel_range_wraps_its_characters (pre mid post : string)
        (tag : option string) (skipEscaping : bool) :
  mid <> "" ->
  let content := (pre ++ mid ++ post)%string in
  let shown (s : string) :=
    if skipEscaping || App.mayHaveEntities content then s
    else App.escapeHtml (Some s) in
  App.applyTaintRanges content
    [TaintRange.mk tag
       (Some (string_of_nat (String.length pre) ++ ":"
              ++ string_of_nat (String.length pre + String.length mid))%string)]
    skipEscaping
  = (shown pre ++ App.taintSpan (or_else tag "tainted")
     ++ shown mid ++ "</span>" ++ shown post)%string.
Proof.
  intros Hmid content shown. unfold App.applyTaintRanges. fold content.
  destruct (String.eqb_spec content "") as [E|_].
  - exfalso. unfold content in E.
    destruct pre; [destruct mid; [contradiction|]|]; discriminate E.
  - cbn [List.length Nat.eqb orb]. unfold content at 2.
    fold (rangeText (String.length pre) (String.length pre + String.length mid)).
    rewrite highlight_one_range by exact Hmid. unfold shown.
    destruct (skipEscaping || App.mayHaveEntities content).
    + now rewrite !emitted_verbatim.
    + now rewrite !emitted_escaped.
Qed.

Lemma panel_range_wraps_its_characters_witness :
  App.applyTaintRanges "a<b" [TaintRange.mk None (Some "1:2")] false
  = ("a" ++ App.taintSpan "tainted" ++ "&lt;" ++ "</span>" ++ "b")%string.
Proof.
  apply (panel_range_wraps_its_characters "a" "<" "b" None false).
  discriminate.
Defined.

Lemma fold_markRange_beyond (len : nat) (ranges : list TaintRange.t)
      (m : highlightMap) :
  Forall (fun r => exists tag a b,
                     r = TaintRange.mk tag (Some (rangeText a b)) /\ len < b)
         ranges ->
  fold_left (markRange len) ranges m = m.
Proof.
  induction 1 as [|r ranges [tag [a [b [-> Hb]]]] _ IH]; simpl; [reflexivity|].
  rewrite markRange_rangeText.
  destruct (Nat.ltb_spec len b); [exact IH|lia].
Qed.

(** X26.  A range that ends beyond the content is not clipped but
    dropped: when every range does, the side panel shows the content as it
    shows it without any range. *)
Theorem ranges_beyond_the_content_are_dropped (content : string)
        (taintRanges : list TaintRange.t) (skipEscaping : bool) :
  Forall (fun r => exists tag a b,
                     r = TaintRange.mk tag
                           (Some (string_of_nat a ++ ":" ++ string_of_nat b)%string)
                     /\ String.length content < b)
         taintRanges ->
  App.applyTaintRanges content taintRanges skipEscaping
  = App.applyTaintRanges content [] skipEscaping.
Proof.
  intros H. unfold App.applyTaintRanges.
  destruct (String.eqb_spec content "") as [E|_]; [reflexivity|].
  destruct taintRanges as [|r rs]; [reflexivity|].
  cbn [List.length Nat.eqb orb]. unfold highlight.
  rewrite fold_markRange_beyond
    by (rewrite length_list_ascii; exact H).
  rewrite run_unmarked by reflexivity.
  destruct (skipEscaping || App.mayHaveEntities content).
  - apply emitted_verbatim.
  - apply emitted_escaped.
Qed.

Lemma ranges_beyond_the_content_are_dropped_witness :
  App.applyTaintRanges "a<b" [TaintRange.mk None (Some "0:4")] false
  = App.applyTaintRanges "a<b" [] false.
Proof.
  apply ranges_beyond_the_content_are_dropped.
  constructor; [|constructor].
  exists None, 0, 4. split; [reflexivity|simpl; lia].
Defined.

End HighlightClaims.

(** ** How many events and nodes a document gives *)

Section Counting.
Import NodeCountTest.

Lemma rename_positions_keep (d : string) (l : list (nat * nat)) (st : dedup)
      (k : string) :
  obj_get (objectIdPositions st) k <> None ->
  obj_get (objectIdPositions (fold_left (rename_one d) l st)) k <> None.
Proof.
  revert st. induction l as [|[i pos] l IH]; intros st H; simpl; [exact H|].
  apply IH. simpl.
  destruct (String.eqb_spec (d ++ "-" ++ string_of_nat i) k) as [<-|Hne].
  - rewrite obj_get_set_eq; [discriminate|].
    apply proto_key___proto__, renamed_not_proto.
  - now rewrite obj_get_set_ne.
Qed.

Lemma fold_fix_duplicate_some (ds : list string) (st : dedup) :
  (forall d, In d ds -> obj_get (objectIdPositions st) d <> None) ->
  exists st', fold_left fix_duplicate ds (Some st) = Some st'.
Proof.
  revert st. induction ds as [|d ds IH]; intros st H; simpl.
  - now exists st.
  - destruct (obj_get (objectIdPositions st) d) as [ps|] eqn:E.
    + apply IH. intros d' Hd'. apply rename_positions_keep. apply H. now right.
    + exfalso. apply (H d (or_introl eq_refl)). exact E.
Qed.

(** Without an id that names a property of [Object.prototype] the
    identifier pre-processing does not throw. *)
Lemma dedupObjectIds_some (sorted : list xml) :
  Forall (fun d => proto_key d = false) (rawIds sorted) ->
  exists st, dedupObjectIds sorted = Some st.
Proof.
  intros Hp. unfold dedupObjectIds.
  destruct (scan_fold sorted 0 (mkDedup sorted [] [])) as [st1 [E [_ [Hc _]]]].
  - intros d. reflexivity.
  - exact Hp.
  - unfold indexed. rewrite E. apply fold_fix_duplicate_some.
    intros d Hd. apply filter_In in Hd as [Hd _].
    apply obj_keys_In, In_keys_get in Hd as [c Hd].
    rewrite (Hc d) in Hd.
    destruct (obj_get (objectIdPositions st1) d); [discriminate|discriminate Hd].
Qed.

(** X27.  When no id names a property of [Object.prototype], the parser
    returns exactly one event for every event element below the events
    element: the renaming of duplicates never drops or adds an event. *)
Theorem no_event_is_lost (eventsElement : xml) :
  let elements :=
    sort_by timeKey
      (getElementsByTagName eventsElement "propagation-event"
       ++ getElementsByTagName eventsElement "method-event"
       ++ getElementsByTagName eventsElement "tag-event") in
  Forall (fun d => proto_key d = false) (rawIds elements) ->
  List.length (extractEvents eventsElement)
  = List.length (getElementsByTagName eventsElement "propagation-event")
    + List.length (getElementsByTagName eventsElement "method-event")
    + List.length (getElementsByTagName eventsElement "tag-event").
Proof.
  intros elements Hp. unfold extractEvents. fold elements.
  destruct (dedupObjectIds_some elements Hp) as [st E]. rewrite E.
  rewrite length_map, length_indexed, (dedupObjectIds_length _ _ E).
  unfold elements. rewrite length_sort_by, !length_app. lia.
Qed.

Lemma no_event_is_lost_witness :
  List.length (extractEvents Samples.ids_42_42_42d1) = 3 + 0 + 0.
Proof.
  apply (no_event_is_lost Samples.ids_42_42_42d1).
  vm_compute. repeat constructor.
Defined.

(** Induction on the tree of a document. *)
Lemma xml_tree_ind (P : xml -> Prop) :
  (forall d, P (Text d)) ->
  (forall t a cs, Forall P cs -> P (Elem t a cs)) ->
  forall x, P x.
Proof.
  intros HT HE. fix IH 1. intros [t a cs|d]; [|apply HT].
  apply HE. induction cs as [|c cs IHcs]; constructor; [apply IH|exact IHcs].
Qed.

Lemma length_filter_block (p : xml -> bool) (c : xml) (cs : list xml) :
  In c cs ->
  List.length (filter p (c :: descendants c))
  <= List.length (filter p (flat_map (fun c => c :: descendants c) cs)).
Proof.
  induction cs as [|y cs IH]; [intros []|].
  intros [->|Hin]; cbn [flat_map]; rewrite filter_app, length_app.
  - lia.
  - specialize (IH Hin). lia.
Qed.

(** An element has no more descendants of a kind than any of its
    ancestors. *)
Lemma count_below (p : xml -> bool) (r x : xml) :
  In x (descendants r) ->
  List.length (filter p (descendants x)) <= List.length (filter p (descendants r)).
Proof.
  induction r as [d|t a cs IH] using xml_tree_ind; [intros []|].
  cbn [descendants]. intros H. apply in_flat_map in H as [c [Hc Hx]].
  eapply Nat.le_trans; [|apply (length_filter_block p c cs Hc)].
  destruct Hx as [->|Hx].
  - simpl. destruct (p x); simpl; lia.
  - apply (proj1 (Forall_forall _ _) IH c Hc) in Hx.
    simpl. destruct (p c); simpl; lia.
Qed.

Lemma count_in_document (p : xml -> bool) (root x : xml) :
  In x (root :: descendants root) ->
  List.length (filter p (descendants x))
  <= List.length (filter p (root :: descendants root)).
Proof.
  intros [->|H].
  - simpl. destruct (p x); simpl; lia.
  - apply (count_below p) in H. simpl. destruct (p root); simpl; lia.
Qed.

Lemma events_element_count (xmlDoc findingElement eventsElement : xml)
      (l1 l2 : list xml) (tag : string) :
  doc_getElementsByTagName xmlDoc "finding" = findingElement :: l1 ->
  getElementsByTagName findingElement "events" = eventsElement :: l2 ->
  List.length (getElementsByTagName eventsElement tag)
  <= List.length (doc_getElementsByTagName xmlDoc tag).
Proof.
  intros Hf He.
  assert (H1 : In findingElement (xmlDoc :: descendants xmlDoc)).
  { assert (H : In findingElement (doc_getElementsByTagName xmlDoc "finding"))
      by (rewrite Hf; now left).
    now apply filter_In in H as [H _]. }
  assert (H2 : In eventsElement (descendants findingElement)).
  { assert (H : In eventsElement (getElementsByTagName findingElement "events"))
      by (rewrite He; now left).
    now apply filter_In in H as [H _]. }
  unfold getElementsByTagName, doc_getElementsByTagName.
  eapply Nat.le_trans; [apply (count_below _ _ _ H2)|].
  now apply count_in_document.
Qed.

Lemma length_extractEvents (eventsElement : xml) :
  List.length (extractEvents eventsElement)
  <= List.length (getElementsByTagName eventsElement "propagation-event")
     + List.length (getElementsByTagName eventsElement "method-event")
     + List.length (getElementsByTagName eventsElement "tag-event").
Proof.
  unfold extractEvents. set (sorted := sort_by timeKey _).
  destruct (dedupObjectIds sorted) as [st|] eqn:E; [|simpl; lia].
  rewrite length_map, length_indexed, (dedupObjectIds_length _ _ E).
  unfold sorted. rewrite length_sort_by, !length_app. lia.
Qed.

(** X28.  The node count test of the repository can only fail in one
    direction: for every document, the number of graph nodes that it
    compares (the nodes but two) is at most the number of event elements
    that it counts in the document. *)
Theorem node_count_never_exceeds_event_count (xmlDoc : xml) :
  (graphNodeCount (extractTraceData xmlDoc) <= countXmlEvents xmlDoc)%Z.
Proof.
  unfold graphNodeCount, countXmlEvents, extractTraceData.
  destruct (doc_getElementsByTagName xmlDoc "finding")
    as [|findingElement l1] eqn:Ef; [simpl; lia|].
  destruct (getElementsByTagName findingElement "request")
    as [|requestElement l3]; [simpl; lia|].
  destruct (getElementsByTagName findingElement "events")
    as [|eventsElement l2] eqn:Ee; [simpl; lia|].
  cbn [TraceData.nodes]. unfold buildNodes. cbn [List.length].
  rewrite length_map.
  pose proof (length_extractEvents eventsElement) as H.
  pose proof (events_element_count xmlDoc findingElement eventsElement l1 l2
                "propagation-event" Ef Ee) as H1.
  pose proof (events_element_count xmlDoc findingElement eventsElement l1 l2
                "method-event" Ef Ee) as H2.
  pose proof (events_element_count xmlDoc findingElement eventsElement l1 l2
                "tag-event" Ef Ee) as H3.
  lia.
Qed.

(** X29.  On a document that lacks a required element the test fails:
    the placeholder has one node, so the test compares the event count
    with minus one. *)
Theorem node_count_test_fails_on_the_placeholder (xmlDoc : xml) :
  lacksStructure xmlDoc ->
  doc_getElementsByTagName xmlDoc "parsererror" = [] ->
  runNodeCountTest xmlDoc = Some false.
Proof.
  intros Hl Hp. unfold runNodeCountTest, parseXmlContent. rewrite Hp.
  f_equal. apply Z.eqb_neq.
  assert (H : graphNodeCount (extractTraceData xmlDoc) = (-1)%Z).
  { unfold graphNodeCount, extractTraceData. unfold lacksStructure in Hl.
    destruct (doc_getElementsByTagName xmlDoc "finding")
      as [|findingElement l1]; [reflexivity|].
    destruct (getElementsByTagName findingElement "request")
      as [|requestElement l3]; [reflexivity|].
    destruct (getElementsByTagName findingElement "events")
      as [|eventsElement l2]; [reflexivity|].
    destruct Hl as [Hl|Hl]; discriminate Hl. }
  rewrite H. unfold countXmlEvents. lia.
Qed.

Lemma node_count_test_fails_on_the_placeholder_witness :
  runNodeCountTest Samples.noEvents = Some false.
Proof.
  apply node_count_test_fails_on_the_placeholder.
  - right. reflexivity.
  - reflexivity.
Defined.

(** X30.  The placeholder is the only result without edges: the edge
    list of the returned trace data is empty exactly when the document
    lacks a required element. *)
Theorem only_the_placeholder_has_no_edges (xmlDoc : xml) :
  TraceData.edges (extractTraceData xmlDoc) = [] <-> lacksStructure xmlDoc.
Proof.
  unfold extractTraceData, lacksStructure.
  destruct (doc_getElementsByTagName xmlDoc "finding")
    as [|findingElement l1]; [now split|].
  destruct (getElementsByTagName findingElement "request")
    as [|requestElement l3]; [split; [now left|reflexivity]|].
  destruct (getElementsByTagName findingElement "events")
    as [|eventsElement l2]; [split; [now right|reflexivity]|].
  cbn [TraceData.edges].
  destruct (buildEdges_head (extractEvents eventsElement)) as [rest ->].
  split; [discriminate|intros [H|H]; discriminate H].
Qed.

End Counting.
